(** * OpenDungeons: the game map (source/GameMap.cpp)

    A shallow embedding of the tile grid, the A* search, the line-of-sight
    tracer, the corner cutter, the field-of-view query, the flood fill and
    the per-turn bookkeeping of [GameMap], with the properties the
    specification states about them.

    Conventions of the embedding.
    - A C++ [int] is a [Z]; signed overflow is undefined in the source and is
      not modelled.  The [unsigned int] counter [numCallsTo_path] wraps
      modulo 2^32.
    - The [double] fields [g] and [h] of an A* node only ever hold small
      integers (sums of ones and of absolute values of [int] differences),
      so they are [Z] as well.  Other [double]s (hit points, radii) are the
      rationals they stand for, in [Q]; a product of two [double]s is the
      exact product rounded to a [double], and the rounding is written out.
    - A [Tile*] is the record of the tile it points to; the grid owns one
      tile per coordinate pair; where the source reads a field through a
      pointer after a write (the flood fill), the pointer is the coordinate
      pair and the read goes through the grid.
    - A pointer to a creature or a room in a vector is the element of the
      list; a [Seat*] is a key of the store of seats, because seats are
      written through pointers held in several places.
    - Loops that the source does not bound take a fuel argument and return
      [None] when the fuel is used up. *)

From Stdlib Require Import ZArith List Bool Lia QArith Qround Qabs Lqa String.
From stdpp Require Import base decidable option list gmap.

Local Open Scope Z_scope.

(** ** Tiles and the grid *)

(** [Tile::TileClearType]. *)
Inductive TileClearType : Type :=
  | walkableTile
  | flyableTile
  | diggableTile
  | impassableTile.

#[global] Instance TileClearType_eq_dec : EqDecision TileClearType.
Proof. solve_decision. Defined.

(** The fields of [Tile] that [GameMap] reads or writes: the public
    coordinates [x] and [y], the result of [getTilePassability()], the result
    of [permitsVision()], and the public [floodFillColor]. *)
Record Tile : Type := mkTile {
  tile_x : Z;
  tile_y : Z;
  tilePassability : TileClearType;
  permitsVision : bool;
  floodFillColor : Z
}.

#[global] Instance Tile_eq_dec : EqDecision Tile.
Proof. solve_decision. Defined.

Definition setFloodFillColor (t : Tile) (c : Z) : Tile :=
  mkTile (tile_x t) (tile_y t) (tilePassability t) (permitsVision t) c.

(** ** Creatures, rooms and seats *)

(** [Room::RoomType], as far as [GameMap] names its values. *)
Inductive RoomType : Type :=
  | dungeonTemple
  | treasury
  | otherRoom.

#[global] Instance RoomType_eq_dec : EqDecision RoomType.
Proof. solve_decision. Defined.

(** What [GameMap] reads of a [Room]: [getName()], [getType()], [getColor()],
    [numCoveredTiles()] and, for a treasury, [getTotalGold()]. *)
Record Room : Type := mkRoom {
  roomName : string;
  roomType : RoomType;
  roomColor : Z;
  roomCoveredTiles : nat;
  roomTotalGold : Z
}.

(** What [GameMap] reads of a [Creature]: [getName()], [getColor()],
    [getHP()], [getDefinition()->isWorker()], and the seat of
    [getControllingPlayer()], a pointer into the seats of the map ([None]
    when there is no controlling player). *)
Record Creature : Type := mkCreature {
  creatureName : string;
  creatureColor : Z;
  creatureHP : Q;
  creatureIsWorker : bool;
  creatureSeat : option nat
}.

(** What [GameMap] reads or writes of a [Seat]. *)
Record Seat : Type := mkSeat {
  mColor : Z;
  mGold : Z;
  mNumCreaturesControlled : Z
}.

(** The state of [GameMap] that the modelled functions use.  A [Seat*] is a
    key of [seats]. *)
Record GameMap : Type := mkGameMap {
  tiles : gmap (Z * Z) Tile;
  mMapSizeX : Z;
  mMapSizeY : Z;
  floodFillEnabled : bool;
  mUniqueNumberFloodFilling : Z;
  numCallsTo_path : Z;
  creatures : list Creature;
  rooms : list Room;
  seats : gmap nat Seat;
  filledSeats : list nat;
  entitiesToDelete : list string;
  mapLightsToDelete : list string
}.

Definition setTiles (gm : GameMap) (ts : gmap (Z * Z) Tile) : GameMap :=
  mkGameMap ts (mMapSizeX gm) (mMapSizeY gm) (floodFillEnabled gm)
            (mUniqueNumberFloodFilling gm) (numCallsTo_path gm)
            (creatures gm) (rooms gm) (seats gm) (filledSeats gm)
            (entitiesToDelete gm) (mapLightsToDelete gm).

Definition setFloodFillEnabled (gm : GameMap) (b : bool) : GameMap :=
  mkGameMap (tiles gm) (mMapSizeX gm) (mMapSizeY gm) b
            (mUniqueNumberFloodFilling gm) (numCallsTo_path gm)
            (creatures gm) (rooms gm) (seats gm) (filledSeats gm)
            (entitiesToDelete gm) (mapLightsToDelete gm).

Definition setUniqueNumberFloodFilling (gm : GameMap) (n : Z) : GameMap :=
  mkGameMap (tiles gm) (mMapSizeX gm) (mMapSizeY gm) (floodFillEnabled gm)
            n (numCallsTo_path gm)
            (creatures gm) (rooms gm) (seats gm) (filledSeats gm)
            (entitiesToDelete gm) (mapLightsToDelete gm).

Definition setNumCallsTo_path (gm : GameMap) (n : Z) : GameMap :=
  mkGameMap (tiles gm) (mMapSizeX gm) (mMapSizeY gm) (floodFillEnabled gm)
            (mUniqueNumberFloodFilling gm) n
            (creatures gm) (rooms gm) (seats gm) (filledSeats gm)
            (entitiesToDelete gm) (mapLightsToDelete gm).

Definition setRooms (gm : GameMap) (rs : list Room) : GameMap :=
  mkGameMap (tiles gm) (mMapSizeX gm) (mMapSizeY gm) (floodFillEnabled gm)
            (mUniqueNumberFloodFilling gm) (numCallsTo_path gm)
            (creatures gm) rs (seats gm) (filledSeats gm)
            (entitiesToDelete gm) (mapLightsToDelete gm).

Definition setSeats (gm : GameMap) (ss : gmap nat Seat) : GameMap :=
  mkGameMap (tiles gm) (mMapSizeX gm) (mMapSizeY gm) (floodFillEnabled gm)
            (mUniqueNumberFloodFilling gm) (numCallsTo_path gm)
            (creatures gm) (rooms gm) ss (filledSeats gm)
            (entitiesToDelete gm) (mapLightsToDelete gm).

Definition setDeletionQueues (gm : GameMap) (es ls : list string) : GameMap :=
  mkGameMap (tiles gm) (mMapSizeX gm) (mMapSizeY gm) (floodFillEnabled gm)
            (mUniqueNumberFloodFilling gm) (numCallsTo_path gm)
            (creatures gm) (rooms gm) (seats gm) (filledSeats gm) es ls.

(** Modelled from the spec: [GameMap::getTile] is inherited from the tile
    container, which is not part of the sources at hand.  The grid owns one
    tile per coordinate pair and the lookup of a pair without a tile gives
    [NULL], here [None]. *)
Definition getTile (gm : GameMap) (x y : Z) : option Tile :=
  tiles gm !! (x, y).

(** The four orthogonal neighbours of a coordinate pair. *)
Definition adjacentCoords (x y : Z) : list (Z * Z) :=
  [(x - 1, y); (x + 1, y); (x, y - 1); (x, y + 1)].

(** Modelled from the spec: [Tile::getAllNeighbors] is not part of the
    sources at hand.  Paths are made of orthogonal steps only (no
    diagonals), so the neighbour pointers of a tile are the lookups of the
    four orthogonally adjacent coordinate pairs; an absent neighbour is a
    [NULL] entry, which [GameMap::path] skips. *)
Definition getAllNeighbors (gm : GameMap) (t : Tile) : list (option Tile) :=
  map (fun c => getTile gm (fst c) (snd c)) (adjacentCoords (tile_x t) (tile_y t)).

(** Modelled from the spec: [GameMap::neighborTiles(x, y)] is not part of the
    sources at hand; it gives the existing tiles next to [(x, y)].  The
    result is a vector of pointers: each one is the coordinate pair of an
    existing tile. *)
Definition neighborTiles (gm : GameMap) (x y : Z) : list (Z * Z) :=
  filter (fun c => is_Some (tiles gm !! c)) (adjacentCoords x y).

(** ** A* search: [AstarEntry] and [GameMap::path] *)

(** [AstarEntry]: [tile] and [parent] are pointers, [NULL] is [None]; a
    parent pointer is the index of the node in the store of allocated
    nodes. *)
Record AstarEntry : Type := mkAstarEntry {
  tile : option Tile;
  parent : option nat;
  g : Z;
  h : Z
}.

(** [AstarEntry()]. *)
Definition AstarEntry_default : AstarEntry := mkAstarEntry None None 0 0.

Definition setHeuristic (e : AstarEntry) (x1 y1 x2 y2 : Z) : AstarEntry :=
  mkAstarEntry (tile e) (parent e) (g e) (Z.abs (x2 - x1) + Z.abs (y2 - y1)).

(** [AstarEntry(tile, x1, y1, x2, y2)]. *)
Definition AstarEntry_at (t : Tile) (x1 y1 x2 y2 : Z) : AstarEntry :=
  setHeuristic (mkAstarEntry (Some t) None 0 0) x1 y1 x2 y2.

Definition fCost (e : AstarEntry) : Z := g e + h e.

Definition setTile (e : AstarEntry) (t : option Tile) : AstarEntry :=
  mkAstarEntry t (parent e) (g e) (h e).

Definition setParent (e : AstarEntry) (p : option nat) : AstarEntry :=
  mkAstarEntry (tile e) p (g e) (h e).

Definition setG (e : AstarEntry) (newG : Z) : AstarEntry :=
  mkAstarEntry (tile e) (parent e) newG (h e).

(** The state of one search: the store of the nodes allocated with [new],
    the open and the closed list (lists of pointers into the store), and the
    scratch node [neighbor]. *)
Record AstarSearch : Type := mkAstarSearch {
  entries : list AstarEntry;
  openList : list nat;
  closedList : list nat;
  neighbor : AstarEntry
}.

(** Dereference of a node pointer. *)
Definition entryAt (es : list AstarEntry) (p : nat) : AstarEntry :=
  default AstarEntry_default (es !! p).

Section Path.

(** [Tile::isDiggable(color)] is not part of the sources at hand. *)
Variable isDiggable : Tile -> Z -> bool.

(** The [switch (passability)] of [GameMap::path]: the value of
    [processNeighbor] after it.  The [impassableTile] case leaves the flag
    as it was set, [true]. *)
Definition processNeighbor (passability : TileClearType) (color : Z) (t : Tile) : bool :=
  match passability with
  | walkableTile =>
      bool_decide (tilePassability t = walkableTile)
  | flyableTile =>
      bool_decide (tilePassability t = walkableTile)
      || bool_decide (tilePassability t = flyableTile)
  | diggableTile =>
      bool_decide (tilePassability t = walkableTile) || isDiggable t color
  | impassableTile => true
  end.

(** The scan for the lowest [fCost]: the position, in the open list, of
    the first node whose cost is strictly below that of every node before
    it.  [best] is the position held by [smallestAstar], [pos] the position
    of [itr]. *)
Fixpoint smallestAstar (es : list AstarEntry) (l : list nat)
         (pos best : nat) (bestCost : Z) : nat :=
  match l with
  | [] => best
  | p :: l' =>
      if fCost (entryAt es p) <? bestCost
      then smallestAstar es l' (S pos) pos (fCost (entryAt es p))
      else smallestAstar es l' (S pos) best bestCost
  end.

Definition smallestAstarPos (es : list AstarEntry) (l : list nat) : nat :=
  match l with
  | [] => 0%nat
  | p :: _ => smallestAstar es l 0 0 (fCost (entryAt es p))
  end.

(** The search of a list of node pointers for a node on a given tile. *)
Definition findTile (es : list AstarEntry) (l : list nat) (t : Tile) : option nat :=
  find (fun p => bool_decide (tile (entryAt es p) = Some t)) l.

(** The body of the loop over the neighbours of the current node [cur]. *)
Definition visitNeighbor (passability : TileClearType) (color : Z) (x1 y1 : Z)
           (cur : nat) (st : AstarSearch) (n : option Tile) : AstarSearch :=
  let nb := setTile (neighbor st) n in
  let st := mkAstarSearch (entries st) (openList st) (closedList st) nb in
  match n with
  | None => st
  | Some t =>
      if negb (processNeighbor passability color t) then st
      else match findTile (entries st) (closedList st) t with
      | Some _ => st
      | None =>
          match findTile (entries st) (openList st) t with
          | None =>
              let nb := setG nb (g (entryAt (entries st) cur) + 1) in
              let es := alter (fun e => setHeuristic e x1 y1 (tile_x t) (tile_y t))
                              cur (entries st) in
              let nb := setParent nb (Some cur) in
              mkAstarSearch (es ++ [nb]) (openList st ++ [length es])
                            (closedList st) nb
          | Some p =>
              if g (entryAt (entries st) cur) + 1 <? g (entryAt (entries st) p)
              then
                let es := alter (fun e => setParent
                                   (setG e (g (entryAt (entries st) cur) + 1))
                                   (Some cur))
                                p (entries st) in
                mkAstarSearch es (openList st) (closedList st) nb
              else st
          end
      end
  end.

(** The loop over [neighbors]. *)
Definition visitNeighbors (gm : GameMap) (passability : TileClearType) (color : Z)
           (x1 y1 : Z) (cur : nat) (st : AstarSearch) : AstarSearch :=
  match tile (entryAt (entries st) cur) with
  | Some t =>
      fold_left (visitNeighbor passability color x1 y1 cur) (getAllNeighbors gm t) st
  | None => st
  end.

(** One round of the [while (true)] loop.  [Some pathFound] is a [break],
    [None] goes round again. *)
Definition searchStep (gm : GameMap) (passability : TileClearType) (color : Z)
           (x1 y1 : Z) (destination : Tile) (st : AstarSearch)
  : option bool * AstarSearch :=
  match openList st with
  | [] => (Some false, st)
  | _ :: _ =>
      let pos := smallestAstarPos (entries st) (openList st) in
      let cur := default 0%nat (openList st !! pos) in
      let st := mkAstarSearch (entries st) (delete pos (openList st))
                              (closedList st ++ [cur]) (neighbor st) in
      if bool_decide (tile (entryAt (entries st) cur) = Some destination)
      then (Some true, st)
      else (None, visitNeighbors gm passability color x1 y1 cur st)
  end.

(** The [while (true)] loop: the result is [pathFound] and the final
    search state. *)
Fixpoint searchLoop (fuel : nat) (gm : GameMap) (passability : TileClearType)
         (color : Z) (x1 y1 : Z) (destination : Tile) (st : AstarSearch)
  : option (bool * AstarSearch) :=
  match fuel with
  | O => None
  | S fuel' =>
      match searchStep gm passability color x1 y1 destination st with
      | (Some pathFound, st') => Some (pathFound, st')
      | (None, st') =>
          searchLoop fuel' gm passability color x1 y1 destination st'
      end
  end.

(** The [do ... while (currentEntry != NULL)] loop that follows the parent
    chain; [acc] is [returnList]. *)
Fixpoint followParents (fuel : nat) (es : list AstarEntry) (cur : nat)
         (acc : list Tile) : option (list Tile) :=
  match fuel with
  | O => None
  | S fuel' =>
      match tile (entryAt es cur) with
      | Some t =>
          match parent (entryAt es cur) with
          | Some p => followParents fuel' es p (t :: acc)
          | None => Some (t :: acc)
          end
      | None => followParents fuel' es cur acc
      end
  end.

(** [GameMap::walkablePathExists]. *)
Definition walkablePathExists (gm : GameMap) (x1 y1 x2 y2 : Z) : bool :=
  match getTile gm x1 y1 with
  | Some tempTile1 =>
      match getTile gm x2 y2 with
      | Some tempTile2 =>
          bool_decide (floodFillColor tempTile1 = floodFillColor tempTile2)
      | None => false
      end
  | None => false
  end.

(** The first search state of [GameMap::path]. *)
Definition initialSearch (start : Tile) (x1 y1 x2 y2 : Z) : AstarSearch :=
  mkAstarSearch [AstarEntry_at start x1 y1 x2 y2] [0%nat] [] AstarEntry_default.

(** [GameMap::path]: the returned list and the game map after the call. *)
Definition path (fuel : nat) (gm : GameMap) (x1 y1 x2 y2 : Z)
           (passability : TileClearType) (color : Z)
  : option (list Tile * GameMap) :=
  let gm := setNumCallsTo_path gm ((numCallsTo_path gm + 1) mod 2 ^ 32) in
  match getTile gm x1 y1 with
  | None => Some ([], gm)
  | Some start =>
      if floodFillEnabled gm
         && bool_decide (passability = walkableTile)
         && negb (walkablePathExists gm x1 y1 x2 y2)
      then Some ([], gm)
      else
        match getTile gm x2 y2 with
        | None => Some ([], gm)
        | Some destination =>
            match searchLoop fuel gm passability color x1 y1 destination
                             (initialSearch start x1 y1 x2 y2) with
            | None => None
            | Some (false, _) => Some ([], gm)
            | Some (true, st) =>
                match findTile (entries st) (closedList st) destination with
                | None => None
                | Some d =>
                    match followParents fuel (entries st) d [] with
                    | None => None
                    | Some returnList => Some (returnList, gm)
                    end
                end
            end
        end
  end.

(** [GameMap::pathExists]. *)
Definition pathExists (fuel : nat) (gm : GameMap) (x1 y1 x2 y2 : Z)
           (passability : TileClearType) (color : Z) : option (bool * GameMap) :=
  if bool_decide (passability = walkableTile)
  then Some (walkablePathExists gm x1 y1 x2 y2, gm)
  else match path fuel gm x1 y1 x2 y2 passability color with
       | None => None
       | Some (l, gm') => Some (bool_decide (2 <= length l)%nat, gm')
       end.

End Path.

(** ** Example maps *)

(** A map of [sx] by [sy] tiles built from a function of the coordinates. *)
Definition rectCoords (sx sy : nat) : list (Z * Z) :=
  flat_map (fun j => map (fun i => (Z.of_nat i, Z.of_nat j)) (seq 0 sx)) (seq 0 sy).

Definition rectMap (sx sy : nat) (mk : Z -> Z -> Tile) : GameMap :=
  mkGameMap (list_to_map (map (fun c => (c, mk (fst c) (snd c))) (rectCoords sx sy)))
            (Z.of_nat sx) (Z.of_nat sy) false 0 0 [] [] ∅ [] [] [].

(** All tiles walkable dirt, flood fill colors unassigned. *)
Definition openTile (x y : Z) : Tile := mkTile x y walkableTile true (-1).

Definition corridor3 : GameMap := rectMap 3 1 openTile.

Definition neverDiggable (t : Tile) (color : Z) : bool := false.


(** ** Predicates used in the statements about [GameMap::path] *)

(** Every tile sits at the coordinates it records: [createNewMap] builds the
    tile for [(ii, jj)] with [new Tile(this, ii, jj)]. *)
Definition wellPlaced (ts : gmap (Z * Z) Tile) : Prop :=
  map_Forall (fun k t => (tile_x t, tile_y t) = k) ts.

Definition tilesWellPlaced (gm : GameMap) : Prop := wellPlaced (tiles gm).

(** [b] is one of the neighbour pointers of [a]. *)
Definition isNeighborOf (gm : GameMap) (a b : Tile) : Prop :=
  Some b ∈ getAllNeighbors gm a.

(** Every two consecutive tiles of a list satisfy [R]. *)
Fixpoint consecutive (R : Tile -> Tile -> Prop) (l : list Tile) : Prop :=
  match l with
  | a :: l' =>
      match l' with
      | b :: _ => R a b /\ consecutive R l'
      | [] => True
      end
  | [] => True
  end.

Definition manhattan (t : Tile) (x2 y2 : Z) : Z :=
  Z.abs (x2 - tile_x t) + Z.abs (y2 - tile_y t).

(** The shape of the node store during a search from the tile [start]: node
    0 is the start node and has no parent; every other node has a closed
    parent, sits on a neighbour of the tile of its parent and costs one more
    than its parent. *)
Record searchInv (gm : GameMap) (start : Tile) (st : AstarSearch) : Prop := {
  inv_bound : forall p, p ∈ openList st ++ closedList st ->
                        (p < length (entries st))%nat;
  inv_nodup : NoDup (openList st ++ closedList st);
  inv_root : exists e0, entries st !! 0%nat = Some e0 /\ tile e0 = Some start
                        /\ parent e0 = None /\ g e0 = 0;
  inv_child : forall p e, entries st !! p = Some e -> p <> 0%nat ->
      exists q eq t tq, parent e = Some q /\ q ∈ closedList st
                        /\ entries st !! q = Some eq
                        /\ tile e = Some t /\ tile eq = Some tq
                        /\ isNeighborOf gm tq t /\ g e = g eq + 1;
  inv_start : 0%nat ∈ closedList st
              \/ (openList st = [0%nat] /\ closedList st = [])
}.


(** The bounds that make the search stop: the tiles of the nodes on the two
    lists are tiles of the grid, no two nodes are on the same tile, and the
    cost of a node is at most the number of closed nodes (below it for a
    closed node). *)
Record searchBound (gm : GameMap) (st : AstarSearch) : Prop := {
  sb_g_open : forall p, p ∈ openList st ->
      0 <= g (entryAt (entries st) p) <= Z.of_nat (length (closedList st));
  sb_g_closed : forall p, p ∈ closedList st ->
      0 <= g (entryAt (entries st) p) < Z.of_nat (length (closedList st));
  sb_nodup : NoDup ((fun p => tile (entryAt (entries st) p))
                      <$> (openList st ++ closedList st));
  sb_grid : forall p, p ∈ openList st ++ closedList st ->
      exists t c, tile (entryAt (entries st) p) = Some t /\ tiles gm !! c = Some t
}.

(** The heuristic of the scratch node, and of every open node but the start
    node, is the 0 of the default constructor. *)
Definition heuristicsUnset (st : AstarSearch) : Prop :=
  h (neighbor st) = 0
  /\ forall p, p ∈ openList st -> p <> 0%nat -> h (entryAt (entries st) p) = 0.

(** ** [GameMap::lineOfSight] *)

(** The [for (int x = x0; x != x1; x += xstep)] loop.  [xstep] has the sign
    of [x1 - x0], so the loop runs [|x1 - x0|] times: [n] counts the rounds
    that are left.  [None] is the early return after [path.clear()]; the
    tiles pushed by the rounds are given in order. *)
Fixpoint lineOfSightLoop (gm : GameMap) (steep : bool) (xstep ystep : Z)
         (TwoDy TwoDyTwoDx : Z) (n : nat) (x y E : Z) : option (list Tile) :=
  match n with
  | O => Some []
  | S n' =>
      let xDraw := if steep then y else x in
      let yDraw := if steep then x else y in
      match getTile gm xDraw yDraw with
      | None => None
      | Some currentTile =>
          if 0 <? E then
            match getTile gm (xDraw + 1) y with
            | None => None
            | Some currentTile' =>
                match lineOfSightLoop gm steep xstep ystep TwoDy TwoDyTwoDx n'
                                      (x + xstep) (y + ystep) (E + TwoDyTwoDx) with
                | None => None
                | Some rest => Some (currentTile :: currentTile' :: rest)
                end
            end
          else
            match lineOfSightLoop gm steep xstep ystep TwoDy TwoDyTwoDx n'
                                  (x + xstep) y (E + TwoDy) with
            | None => None
            | Some rest => Some (currentTile :: rest)
            end
      end
  end.

Definition lineOfSight (gm : GameMap) (x0 y0 x1 y1 : Z) : list Tile :=
  let Dx := x1 - x0 in
  let Dy := y1 - y0 in
  let steep := Z.abs Dy >=? Z.abs Dx in
  let '(x0, y0, x1, y1) := if steep then (y0, x0, y1, x1) else (x0, y0, x1, y1) in
  let Dx := x1 - x0 in
  let Dy := y1 - y0 in
  let xstep := if Dx <? 0 then -1 else 1 in
  let Dx := if Dx <? 0 then - Dx else Dx in
  let ystep := if Dy <? 0 then -1 else 1 in
  let Dy := if Dy <? 0 then - Dy else Dy in
  let TwoDy := 2 * Dy in
  let TwoDyTwoDx := TwoDy - 2 * Dx in
  let E := TwoDy - Dx in
  default [] (lineOfSightLoop gm steep xstep ystep TwoDy TwoDyTwoDx
                              (Z.to_nat Dx) x0 y0 E).

(** Every coordinate pair of the rectangle spanned by two corners has a
    tile. *)
Definition openBetween (gm : GameMap) (x0 y0 x1 y1 : Z) : Prop :=
  forall x y, Z.min x0 x1 <= x <= Z.max x0 x1 ->
              Z.min y0 y1 <= y <= Z.max y0 y1 ->
              is_Some (getTile gm x y).

(** ** [GameMap::pathIsClear] and [GameMap::cutCorners] *)

(** How a call that may end the process comes back: with a value, with
    [exit(1)], or not within the fuel. *)
Inductive Run (A : Type) : Type :=
  | Returned (a : A)
  | Exited
  | OutOfFuel.

Arguments Returned {A} a.
Arguments Exited {A}.
Arguments OutOfFuel {A}.

(** The loop of [pathIsClear] from a position at which [isClear] is still
    [true]; [None] is the [exit(1)] of the [default] case. *)
Fixpoint pathIsClearLoop (passability : TileClearType) (l : list Tile) : option bool :=
  match l with
  | [] => Some true
  | t :: l' =>
      match passability with
      | walkableTile =>
          if bool_decide (tilePassability t = walkableTile)
          then pathIsClearLoop passability l' else Some false
      | flyableTile =>
          if bool_decide (tilePassability t = walkableTile)
             || bool_decide (tilePassability t = flyableTile)
          then pathIsClearLoop passability l' else Some false
      | impassableTile => Some false
      | diggableTile => None
      end
  end.

Definition pathIsClear (l : list Tile) (passability : TileClearType) : option bool :=
  match l with
  | [] => Some false
  | _ :: _ => pathIsClearLoop passability l
  end.

(** The inner loop of [cutCorners]: how many times [t2] is advanced over the
    tiles [l] that follow [t1]. *)
Fixpoint advanceLookahead (gm : GameMap) (passability : TileClearType)
         (t1 : Tile) (l : list Tile) : option nat :=
  match l with
  | [] => Some 0%nat
  | t2 :: l' =>
      match pathIsClear (lineOfSight gm (tile_x t1) (tile_y t1) (tile_x t2) (tile_y t2))
                        passability with
      | None => None
      | Some true =>
          match advanceLookahead gm passability t1 l' with
          | None => None
          | Some k => Some (S k)
          end
      | Some false => Some 0%nat
      end
  end.

(** [path.erase(first, last)] on positions. *)
Definition eraseRange (l : list Tile) (first last : nat) : list Tile :=
  take first l ++ drop last l.

(** The outer loop of [cutCorners]; an iterator is its position in the list,
    [path.end()] is the length of the list. *)
Fixpoint cutCornersLoop (fuel : nat) (gm : GameMap) (passability : TileClearType)
         (path : list Tile) (t1 : nat) : Run (list Tile) :=
  match fuel with
  | O => OutOfFuel
  | S fuel' =>
      match path !! t1 with
      | None => Returned path
      | Some tile1 =>
          match advanceLookahead gm passability tile1 (drop (S t1) path) with
          | None => Exited
          | Some k =>
              let t2 := (S t1 + k)%nat in
              let t3 := S t1 in
              if bool_decide (t3 <> t2) then
                let t4 := (t2 - 1)%nat in
                if bool_decide (t3 <> t4) then
                  cutCornersLoop fuel' gm passability (eraseRange path t3 t4)
                                 (t2 - (t4 - t3))%nat
                else cutCornersLoop fuel' gm passability path t2
              else cutCornersLoop fuel' gm passability path t2
          end
      end
  end.

(** [GameMap::cutCorners]: the path after the call.  Every round of the outer
    loop moves [t1] nearer to the end of the list, so one round per tile and
    one more is all the loop can use. *)
Definition cutCorners (gm : GameMap) (path : list Tile) (passability : TileClearType)
  : Run (list Tile) :=
  if bool_decide (length path <= 3)%nat then Returned path
  else cutCornersLoop (S (length path)) gm passability path 0.

(** ** [GameMap::visibleTiles] *)

(** [(int)q] for a [double] standing for the rational [q]: truncation
    towards zero. *)
Definition truncate (q : Q) : Z := Z.quot (Qnum q) (Z.pos (Qden q)).

Section Visibility.

(** The precomputed table [TileCoordinateMap] and the angle class
    [RadialVector2] are not part of the sources at hand.  The table has a
    squared radius, an offset and a central angle per index; [Angle] stands
    for the angles, and [isObscured dx dy theta] for the test
    [tempAngle.directionIsBetween(smallAngle, largeAngle)] on the angle
    [theta], where the two bounds are [1.5 / sqrt(dx*dx + dy*dy)] to each
    side of the direction of [(dx, dy)]. *)
Variable Angle : Type.
Variable getRadiusSquared : nat -> Z.
Variable getCoordinate : nat -> Z * Z.
Variable getCentralTheta : nat -> Angle.
Variable isObscured : Z -> Z -> Angle -> bool.

(** [sightRadius * sightRadius] is a product of two [double]s: the machine
    rounds the exact product to a [double] before the cast to [int] sees it.
    [roundDouble] is that rounding, on the rationals that [double]s stand
    for.  A product beyond the range of [int] has no defined cast and is
    outside the model. *)
Variable roundDouble : Q -> Q.

(** The first [while (true)] loop: the tiles pushed on [tileQueue] from
    [tileCounter] on. *)
Fixpoint fillTileQueue (fuel : nat) (gm : GameMap) (startX startY : Z)
         (sightRadiusSquared : Z) (tileCounter : nat)
  : option (list (Tile * Angle)) :=
  match fuel with
  | O => None
  | S fuel' =>
      let rSquared := getRadiusSquared tileCounter in
      if sightRadiusSquared <? rSquared then Some []
      else
        let coord := getCoordinate tileCounter in
        let tempTheta := getCentralTheta tileCounter in
        match fillTileQueue fuel' gm startX startY sightRadiusSquared
                            (S tileCounter) with
        | None => None
        | Some rest =>
            match getTile gm (startX + fst coord) (startY + snd coord) with
            | Some tempTile => Some ((tempTile, tempTheta) :: rest)
            | None => Some rest
            end
        end
  end.

(** The second loop: the tiles pushed on [tempVector] while [tileQueue] is
    emptied. *)
Fixpoint scanTileQueue (fuel : nat) (startTile : Tile)
         (tileQueue : list (Tile * Angle)) : option (list Tile) :=
  match fuel with
  | O => None
  | S fuel' =>
      match tileQueue with
      | [] => Some []
      | (t, _) :: tileQueue' =>
          if permitsVision t then
            match scanTileQueue fuel' startTile tileQueue' with
            | None => None
            | Some rest => Some (t :: rest)
            end
          else
            let dx := tile_x t - tile_x startTile in
            let dy := tile_y t - tile_y startTile in
            match scanTileQueue fuel' startTile
                    (List.filter (fun e => negb (isObscured dx dy (snd e))) tileQueue') with
            | None => None
            | Some rest => Some (t :: rest)
            end
      end
  end.

Definition visibleTiles (fuel : nat) (gm : GameMap) (startTile : Tile)
           (sightRadius : Q) : option (list Tile) :=
  if negb (permitsVision startTile) then Some []
  else
    let startX := tile_x startTile in
    let startY := tile_y startTile in
    let sightRadiusSquared := truncate (roundDouble (sightRadius * sightRadius)) in
    match fillTileQueue fuel gm startX startY sightRadiusSquared 0 with
    | None => None
    | Some tileQueue => scanTileQueue fuel startTile tileQueue
    end.

End Visibility.

(** The tiles of a straight run: [n] tiles picked by [f] at the coordinates
    [z], [z + s], [z + 2 s], ... *)
Definition tileRun (f : Z -> Tile) (z s : Z) (n : nat) : list Tile :=
  map (fun i => f (z + Z.of_nat i * s)) (seq 0 n).

(** The tile at a coordinate pair that has one. *)
Definition tileAt (gm : GameMap) (x y : Z) : Tile :=
  default (mkTile x y impassableTile false (-1)) (getTile gm x y).

(** The places of a row or of a column from [(x0, y0)] towards [(x1, y1)],
    the first end included and the second not: one place for each [i] below
    the distance of the ends, [i] steps from the first end, with what the
    grid holds there. *)
Definition runUpTo (gm : GameMap) (x0 y0 x1 y1 : Z) : list (option Tile) :=
  map (fun i : nat => getTile gm (x0 + Z.of_nat i * Z.sgn (x1 - x0))
                                 (y0 + Z.of_nat i * Z.sgn (y1 - y0)))
      (seq 0 (Z.to_nat (Z.max (Z.abs (x1 - x0)) (Z.abs (y1 - y0))))).

(** A small table for examples: the entries run along the row of the origin,
    entry [n] at distance [n]; every later tile is hidden by an opaque one. *)
Definition exampleRadiusSquared (n : nat) : Z := Z.of_nat n * Z.of_nat n.
Definition exampleCoordinate (n : nat) : Z * Z := (Z.of_nat n, 0).
Definition exampleCentralTheta (n : nat) : unit := tt.
Definition exampleObscured (dx dy : Z) (theta : unit) : bool := true.

(** A rounding for examples whose products are small integers, which are
    [double]s themselves: nothing is rounded off. *)
Definition exactDouble (q : Q) : Q := q.

(** A rounding for examples that does round off, on the coarsest grid: to
    the nearest integer, a half upwards. *)
Definition roundToInteger (q : Q) : Q := inject_Z (Qfloor (q + (1 # 2))%Q).

(** What the rounding of a product is known to do in the default mode of
    the machine: the result depends on the value of the product only, and no
    value that the rounding can give lies nearer to the exact product. *)
Definition roundsToNearest (roundDouble : Q -> Q) : Prop :=
  (forall q q' : Q, (q == q')%Q -> (roundDouble q == roundDouble q')%Q)
  /\ (forall q q' : Q,
        (Qabs (roundDouble q - q) <= Qabs (roundDouble q' - q))%Q).

(** ** Treasuries: [GameMap::withdrawFromTreasuries] *)

Section Treasuries.

(** [RoomTreasury::withdrawGold(gold)] is not part of the sources at hand:
    it gives the amount taken and the treasury after the withdrawal. *)
Variable withdrawGold : Room -> Z -> Z * Room.

(** The loop over [treasuriesOwned].  The vector holds pointers to the
    rooms of the map with type [treasury] and the color of the seat, in the
    order of [rooms]; the loop is written as a pass over [rooms] that
    touches those rooms only, and stops touching them once
    [goldStillNeeded] is no longer positive. *)
Fixpoint withdrawLoop (color : Z) (rs : list Room) (goldStillNeeded : Z) : list Room :=
  match rs with
  | [] => []
  | r :: rs' =>
      if bool_decide (roomType r = treasury) && bool_decide (roomColor r = color)
         && (0 <? goldStillNeeded)
      then
        let '(taken, r') := withdrawGold r goldStillNeeded in
        r' :: withdrawLoop color rs' (goldStillNeeded - taken)
      else r :: withdrawLoop color rs' goldStillNeeded
  end.

(** [GameMap::withdrawFromTreasuries(gold, seat)]: the result and the map
    after the call. *)
Definition withdrawFromTreasuries (gm : GameMap) (gold : Z) (seat : Seat)
  : bool * GameMap :=
  if mGold seat <? gold then (false, gm)
  else (true, setRooms gm (withdrawLoop (mColor seat) (rooms gm) gold)).

End Treasuries.

(** [GameMap::getRoomsByType]. *)
Definition getRoomsByType (gm : GameMap) (type : RoomType) : list Room :=
  List.filter (fun r => bool_decide (roomType r = type)) (rooms gm).

(** ** The turn: [doTurn], [doMiscUpkeep], [processDeletionQueues] *)

(** [++m[key]] on a [std::map<int, int>]. *)
Definition incrementCount (m : gmap Z Z) (key : Z) : gmap Z Z :=
  <[key := default 0 (m !! key) + 1]> m.

(** [m[key]] read on a [std::map<int, int>]: a missing key reads as 0. *)
Definition countOf (m : gmap Z Z) (key : Z) : Z := default 0 (m !! key).

(** The first loops of the kobold section of [doMiscUpkeep]. *)
Definition koboldColorCounts (cs : list Creature) : gmap Z Z :=
  fold_left (fun m c => if creatureIsWorker c then incrementCount m (creatureColor c) else m)
            cs ∅.

Definition dungeonTempleColorCounts (dungeonTemples : list Room) : gmap Z Z :=
  fold_left (fun m r => incrementCount m (roomColor r)) dungeonTemples ∅.

(** The loop over [dungeonTempleColorCounts]: one entry of
    [koboldsNeededPerColor] per color that owns a dungeon temple. *)
Definition koboldsNeededPerColor (kobolds temples : gmap Z Z) : gmap Z Z :=
  map_imap (fun color numDungeonTemples =>
              let numKobolds := countOf kobolds color in
              let numKoboldsNeeded := Z.max (4 * numDungeonTemples - numKobolds) 0 in
              Some (Z.min numKoboldsNeeded numDungeonTemples))
           temples.

(** The loop back over the dungeon temples: the temples on which
    [produceKobold()] is called, in the order of the calls. *)
Fixpoint templesProducing (needed : gmap Z Z) (dungeonTemples : list Room) : list Room :=
  match dungeonTemples with
  | [] => []
  | temple :: rest =>
      let color := roomColor temple in
      if 0 <? countOf needed color
      then temple :: templesProducing (<[color := countOf needed color - 1]> needed) rest
      else templesProducing needed rest
  end.

(** The kobold section of [doMiscUpkeep] (from "Count how many of each color
    kobold there are" to the end of the loop over the temples). *)
Definition koboldSpawns (gm : GameMap) : list Room :=
  let dungeonTemples := getRoomsByType gm dungeonTemple in
  templesProducing
    (koboldsNeededPerColor (koboldColorCounts (creatures gm))
                           (dungeonTempleColorCounts dungeonTemples))
    dungeonTemples.

Definition setNumCreaturesControlled (s : Seat) (n : Z) : Seat :=
  mkSeat (mColor s) (mGold s) n.

(** The loop of [doTurn] over the creatures, on the store of seats. *)
Fixpoint countControlledCreatures (cs : list Creature) (ss : gmap nat Seat) : gmap nat Seat :=
  match cs with
  | [] => ss
  | tempCreature :: cs' =>
      if Qlt_le_dec 0 (creatureHP tempCreature) then
        match creatureSeat tempCreature with
        | Some tempSeat =>
            countControlledCreatures cs'
              (alter (fun s => setNumCreaturesControlled s (mNumCreaturesControlled s + 1))
                     tempSeat ss)
        | None => countControlledCreatures cs' ss
        end
      else countControlledCreatures cs' ss
  end.

(** [GameMap::queueEntityForDeletion]: the entity goes to the back of the
    queue.  An entity in the queue is its name. *)
Definition queueEntityForDeletion (gm : GameMap) (ge : string) : GameMap :=
  setDeletionQueues gm (entitiesToDelete gm ++ [ge]) (mapLightsToDelete gm).

(** The first loop of [GameMap::processDeletionQueues]: while the queue of
    entities is not empty, its first entity is taken off the queue and
    deleted.  [destroy] is what [delete entity] runs, the destructor of the
    entity; it may queue further entities, so the loop takes fuel. *)
Fixpoint deleteEntities (destroy : string -> GameMap -> GameMap)
         (fuel : nat) (gm : GameMap) : option GameMap :=
  match fuel with
  | O => None
  | S fuel' =>
      match entitiesToDelete gm with
      | [] => Some gm
      | entity :: rest =>
          deleteEntities destroy fuel'
            (destroy entity (setDeletionQueues gm rest (mapLightsToDelete gm)))
      end
  end.

(** [GameMap::processDeletionQueues].  The map keeps nothing of a map light
    but its place in the second queue, which the second loop empties. *)
Definition processDeletionQueues (destroy : string -> GameMap -> GameMap)
           (fuel : nat) (gm : GameMap) : option GameMap :=
  match deleteEntities destroy fuel gm with
  | Some gm => Some (setDeletionQueues gm (entitiesToDelete gm) [])
  | None => None
  end.

Section Turn.

(** Not part of the sources at hand, and taken as they come: the turn of
    one creature ([Creature::doTurn]), the check of the goals of one seat
    ([Seat::checkAllCompletedGoals], [Seat::checkAllGoals],
    [Seat::numFailedGoals], together with [addWinningSeat]), the production
    of a kobold by a temple ([RoomDungeonTemple::produceKobold]), and the
    rest of [doMiscUpkeep] after the kobold section (the upkeep of the
    active objects and of the rooms, the mana and the gold of the seats, the
    count of the claimed tiles). *)
Variable Creature_doTurn : Creature -> GameMap -> GameMap.
Variable checkSeatGoals : nat -> GameMap -> GameMap.
Variable produceKobold : Room -> GameMap -> GameMap.
Variable upkeepRest : GameMap -> GameMap.

(** [GameMap::doCreatureTurns]: the number of creatures is read once, the
    creature is read from the vector at each round. *)
Definition doCreatureTurns (gm : GameMap) : GameMap :=
  fold_left (fun gm i =>
               match creatures gm !! i with
               | Some c => Creature_doTurn c gm
               | None => gm
               end)
            (seq 0 (length (creatures gm))) gm.

(** [filledSeats[i]->mNumCreaturesControlled = 0]. *)
Definition resetCreaturesControlled (seat : nat) (gm : GameMap) : GameMap :=
  setSeats gm (alter (fun s => setNumCreaturesControlled s 0) seat (seats gm)).

(** [GameMap::doMiscUpkeep], up to the end of the kobold section, then the
    rest. *)
Definition doMiscUpkeep (gm : GameMap) : GameMap :=
  let gm := fold_left (fun gm seat => resetCreaturesControlled seat (checkSeatGoals seat gm))
                      (filledSeats gm) gm in
  let gm := fold_left (fun gm temple => produceKobold temple gm)
                      (koboldSpawns gm) gm in
  upkeepRest gm.

(** The loop of [doTurn] after the upkeep. *)
Definition sweepCreatures (gm : GameMap) : GameMap :=
  setSeats gm (countControlledCreatures (creatures gm) (seats gm)).

(** [GameMap::doTurn]. *)
Definition doTurn (gm : GameMap) : GameMap :=
  sweepCreatures (doMiscUpkeep (doCreatureTurns gm)).

End Turn.

Definition setCreatures (gm : GameMap) (cs : list Creature) : GameMap :=
  mkGameMap (tiles gm) (mMapSizeX gm) (mMapSizeY gm) (floodFillEnabled gm)
            (mUniqueNumberFloodFilling gm) (numCallsTo_path gm)
            cs (rooms gm) (seats gm) (filledSeats gm)
            (entitiesToDelete gm) (mapLightsToDelete gm).

(** Modelled from the spec: [Creature::deleteYourself] is declared in
    Creature.h and its body is not part of the sources at hand.  A creature
    is "queued for deferred deletion": it goes to the deletion queue of the
    map, through [queueEntityForDeletion]. *)
Definition Creature_deleteYourself (c : Creature) (gm : GameMap) : GameMap :=
  queueEntityForDeletion gm (creatureName c).

(** Modelled from the spec: [Creature::doTurn] is declared in Creature.h and
    its body is not part of the sources at hand.  A creature is "queued for
    deferred deletion on death": at its turn a creature whose hit points are
    not above 0 queues itself and does nothing else.  Creature.h also
    declares a [deathCounter]; the specification knows of no delay, and none
    is modelled.  The turn of a living creature, its "AI step", is taken as
    it comes. *)
Definition Creature_doTurn (aiStep : Creature -> GameMap -> GameMap)
           (c : Creature) (gm : GameMap) : GameMap :=
  if Qlt_le_dec 0 (creatureHP c) then aiStep c gm
  else Creature_deleteYourself c gm.

(** Modelled from the spec: the destructor that [delete entity] runs in
    [processDeletionQueues] is not part of the sources at hand.  The
    "removal/deletion of dead creatures is deferred to the deletion queue",
    and the flush "releases" what is queued: an entity that is destroyed
    leaves the live enumeration of the creatures.  Nothing else of the map
    changes. *)
Definition releaseEntity (entity : string) (gm : GameMap) : GameMap :=
  setCreatures gm
    (List.filter (fun c => negb (bool_decide (creatureName c = entity)))
                 (creatures gm)).

(** What the turn asks of the code outside the sources that runs between its
    start and the flush, for the dead to be dealt with: a creature that is
    dead before is in the same place of the vector after, under the same
    name, and dead; and what is queued for deletion before is queued
    after. *)
Definition deadKept (gm gm' : GameMap) : Prop :=
  (forall (i : nat) (c : Creature),
      creatures gm !! i = Some c -> (creatureHP c <= 0)%Q ->
      exists c', creatures gm' !! i = Some c'
                 /\ creatureName c' = creatureName c
                 /\ (creatureHP c' <= 0)%Q)
  /\ (forall e : string, e ∈ entitiesToDelete gm -> e ∈ entitiesToDelete gm').

Definition keepsTheDead (f : GameMap -> GameMap) : Prop :=
  forall gm, deadKept gm (f gm).

(** A map with one seat, taken by a player, and one creature of that player
    whose hit points are 0. *)
Definition deadCreature : Creature := mkCreature "Kobold1" 1 0 true (Some 0%nat).

Definition oneDeadCreatureMap : GameMap :=
  mkGameMap ∅ 0 0 false 0 0 [deadCreature] [] {[ 0%nat := mkSeat 1 0 0 ]} [0%nat] [] [].

(** The same seat with a living creature in front of the dead one, and a
    room already in the deletion queue. *)
Definition livingCreature : Creature := mkCreature "Kobold2" 1 10 true (Some 0%nat).

Definition twoCreaturesMap : GameMap :=
  mkGameMap ∅ 0 0 false 0 0 [livingCreature; deadCreature] []
            {[ 0%nat := mkSeat 1 0 0 ]} [0%nat] ["Room1"%string] [].

(** Absent code that leaves the map as it is. *)
Definition idleCreature (c : Creature) (gm : GameMap) : GameMap := gm.
Definition idleSeat (seat : nat) (gm : GameMap) : GameMap := gm.
Definition idleTemple (r : Room) (gm : GameMap) : GameMap := gm.
Definition idleUpkeep (gm : GameMap) : GameMap := gm.

(** One dungeon temple of color 1 and no creature. *)
Definition oneTempleMap : GameMap :=
  mkGameMap ∅ 0 0 false 0 0 [] [mkRoom "Temple1" dungeonTemple 1 9 0] ∅ [] [] [].

(** The number of elements of a list with a given color. *)
Definition countColor {A : Type} (colorOf : A -> Z) (color : Z) (l : list A) : Z :=
  Z.of_nat (length (List.filter (fun a => bool_decide (colorOf a = color)) l)).

(** The number of living creatures of a list that belong to a seat. *)
Definition livingCreaturesOf (seat : nat) (cs : list Creature) : Z :=
  Z.of_nat (length (List.filter
                      (fun c => (if Qlt_le_dec 0 (creatureHP c) then true else false)
                                && bool_decide (creatureSeat c = Some seat)) cs)).

(** A treasury that hands out what is asked for, up to what it holds. *)
Definition plainWithdrawGold (r : Room) (gold : Z) : Z * Room :=
  let taken := Z.min gold (roomTotalGold r) in
  (taken, mkRoom (roomName r) (roomType r) (roomColor r) (roomCoveredTiles r)
                 (roomTotalGold r - taken)).

Definition oneTreasuryMap : GameMap :=
  mkGameMap ∅ 0 0 false 0 0 [] [mkRoom "Treasury1" treasury 1 4 100]
            {[ 0%nat := mkSeat 1 100 0 ]} [0%nat] [] [].

(** ** Flood fill: [GameMap::doFloodFill] and [GameMap::enableFloodFill] *)

(** Modelled from the spec: [GameMap::nextUniqueNumberFloodFilling] is not
    part of the sources at hand; it allocates a fresh color.  The counter
    [mUniqueNumberFloodFilling], set to 0 by [resetUniqueNumbers], is moved
    on by one and its new value is the color. *)
Definition nextUniqueNumberFloodFilling (gm : GameMap) : Z * GameMap :=
  let n := mUniqueNumberFloodFilling gm + 1 in
  (n, setUniqueNumberFloodFilling gm n).

(** The loop of [doFloodFill] over [neighbors].  A neighbour is a pointer to
    a tile of the grid: its color is read from the grid as it is when the
    loop reaches it.  [recurse] is the recursive call. *)
Fixpoint floodNeighbors (recurse : GameMap -> Z -> Z -> option (nat * GameMap))
         (color : Z) (neighbors : list (Z * Z)) (tilesFlooded : nat) (gm : GameMap)
  : option (nat * GameMap) :=
  match neighbors with
  | [] => Some (tilesFlooded, gm)
  | n :: neighbors' =>
      match tiles gm !! n with
      | Some t =>
          if bool_decide (floodFillColor t <> color) then
            match recurse gm (tile_x t) (tile_y t) with
            | Some (k, gm') =>
                floodNeighbors recurse color neighbors' (tilesFlooded + k)%nat gm'
            | None => None
            end
          else floodNeighbors recurse color neighbors' tilesFlooded gm
      | None => floodNeighbors recurse color neighbors' tilesFlooded gm
      end
  end.

(** [GameMap::doFloodFill]: the number of tiles flooded and the map after
    the call.  The fuel bounds the depth of the recursion. *)
Fixpoint doFloodFill (fuel : nat) (gm : GameMap) (startX startY : Z)
         (passability : TileClearType) (color : Z) : option (nat * GameMap) :=
  match fuel with
  | O => None
  | S fuel' =>
      if negb (floodFillEnabled gm) then Some (0%nat, gm)
      else
        let '(color, gm) :=
          if color <? 0 then nextUniqueNumberFloodFilling gm else (color, gm) in
        let colored :=
          match getTile gm startX startY with
          | Some tempTile =>
              if bool_decide (tilePassability tempTile = walkableTile)
              then Some (setTiles gm (<[(startX, startY) :=
                                         setFloodFillColor tempTile color]> (tiles gm)))
              else None
          | None => Some gm
          end in
        match colored with
        | None => Some (0%nat, gm)
        | Some gm =>
            floodNeighbors
              (fun gm x y => doFloodFill fuel' gm x y passability color)
              color (neighborTiles gm startX startY) 1%nat gm
        end
  end.

(** The coordinate pairs of the map, row by row: [jj] outside, [ii]
    inside. *)
Definition mapCoords (gm : GameMap) : list (Z * Z) :=
  rectCoords (Z.to_nat (mMapSizeX gm)) (Z.to_nat (mMapSizeY gm)).

(** The second pair of loops of [enableFloodFill].  The call
    [doFloodFill(ii, jj)] leaves the last two parameters to their defaults,
    which are declared outside the sources at hand: the walkable class, and a
    negative color, for which [doFloodFill] allocates a fresh one.  The
    source reads the color through [getTile(ii, jj)] without a test: a
    coordinate pair of the map without a tile has no defined behaviour there,
    and is passed over here. *)
Fixpoint floodAll (fuel : nat) (coords : list (Z * Z)) (gm : GameMap) : option GameMap :=
  match coords with
  | [] => Some gm
  | (ii, jj) :: coords' =>
      match getTile gm ii jj with
      | Some t =>
          if bool_decide (floodFillColor t = -1) then
            match doFloodFill fuel gm ii jj walkableTile (-1) with
            | Some (_, gm') => floodAll fuel coords' gm'
            | None => None
            end
          else floodAll fuel coords' gm
      | None => floodAll fuel coords' gm
      end
  end.

(** [GameMap::enableFloodFill]: the first pair of loops sets the color of
    every tile of the map to [-1] (again through [getTile(ii, jj)] without a
    test), then the flag is set and the second pair of loops floods. *)
Definition enableFloodFill (fuel : nat) (gm : GameMap) : option GameMap :=
  let gm := setTiles gm (fold_left (fun ts c => alter (fun t => setFloodFillColor t (-1)) c ts)
                                   (mapCoords gm) (tiles gm)) in
  let gm := setFloodFillEnabled gm true in
  floodAll fuel (mapCoords gm) gm.

(** The grid is the rectangle of the size of the map, and every tile records
    its own coordinates. *)
Definition gridComplete (gm : GameMap) : Prop :=
  forall x y, is_Some (getTile gm x y)
              <-> (0 <= x < mMapSizeX gm /\ 0 <= y < mMapSizeY gm).

(** A coordinate pair with a walkable tile. *)
Definition walkableAt (ts : gmap (Z * Z) Tile) (c : Z * Z) : Prop :=
  exists t, ts !! c = Some t /\ tilePassability t = walkableTile.

(** [b] can be reached from [a] by orthogonal steps over the coordinate
    pairs that satisfy [W], the ends included. *)
Inductive reachableOver (W : Z * Z -> Prop) : Z * Z -> Z * Z -> Prop :=
  | reach_here (a : Z * Z) :
      W a -> reachableOver W a a
  | reach_step (a b c : Z * Z) :
      reachableOver W a b ->
      c ∈ adjacentCoords (fst b) (snd b) ->
      W c ->
      reachableOver W a c.

(** Reachability over the walkable tiles of a grid. *)
Definition walkableReachable (ts : gmap (Z * Z) Tile) : Z * Z -> Z * Z -> Prop :=
  reachableOver (walkableAt ts).

(** Every tile of a grid records its own coordinates, and the walkable tiles
    are those at the coordinate pairs that satisfy [W]. *)
Definition terrain (W : Z * Z -> Prop) (ts : gmap (Z * Z) Tile) : Prop :=
  forall c t, ts !! c = Some t ->
    (tile_x t, tile_y t) = c /\ (tilePassability t = walkableTile <-> W c).

(** The walkable tiles of a grid whose color is not [col]. *)
Definition uncolored (col : Z) (ts : gmap (Z * Z) Tile) : gset (Z * Z) :=
  dom (filter (fun kt : (Z * Z) * Tile =>
                 tilePassability (snd kt) = walkableTile
                 /\ floodFillColor (snd kt) <> col) ts).

(** A color class other than [-1] and [col] is closed: the walkable
    neighbours of its walkable tiles are in it. *)
Definition othersClosed (col : Z) (ts : gmap (Z * Z) Tile) : Prop :=
  forall c t c' t',
    ts !! c = Some t -> tilePassability t = walkableTile ->
    floodFillColor t <> -1 -> floodFillColor t <> col ->
    c' ∈ adjacentCoords (fst c) (snd c) ->
    ts !! c' = Some t' -> tilePassability t' = walkableTile ->
    floodFillColor t' = floodFillColor t.

(** Every tile of [ts'] is the tile of [ts] at the same place, or that tile
    was walkable and without a color and now has the color [col]. *)
Definition recolored (col : Z) (ts ts' : gmap (Z * Z) Tile) : Prop :=
  forall c,
    ts' !! c = ts !! c
    \/ exists t, ts !! c = Some t /\ tilePassability t = walkableTile
                 /\ floodFillColor t = -1
                 /\ ts' !! c = Some (setFloodFillColor t col).

(** What a flood with the color [col] from the coordinate pair [s] does to a
    grid: it recolors tiles without a color; the tiles that changed can be
    reached from [s]; and the walkable neighbours of the tiles that changed
    have the color [col]. *)
Record floodedFrom (W : Z * Z -> Prop) (col : Z) (s : Z * Z)
       (ts ts' : gmap (Z * Z) Tile) : Prop := {
  ff_frame : recolored col ts ts';
  ff_reach : forall c, ts' !! c <> ts !! c -> reachableOver W s c;
  ff_closed : forall c c' t',
      ts' !! c <> ts !! c ->
      c' ∈ adjacentCoords (fst c) (snd c) ->
      ts' !! c' = Some t' -> tilePassability t' = walkableTile ->
      floodFillColor t' = col
}.

(** A corridor of three tiles with a wall in the middle, and a pair of rock
    tiles. *)
Definition rockTile (x y : Z) : Tile := mkTile x y impassableTile false (-1).

Definition walledCorridor : GameMap :=
  rectMap 3 1 (fun x y => if bool_decide (x = 1) then rockTile x y else openTile x y).

Definition twoRocks : GameMap := rectMap 2 1 rockTile.

(** What a call of [doFloodFill] with a color that is not negative does,
    given the fuel [fuel], when it starts on a tile of the grid that is not
    walkable or has no color yet. *)
Definition floodFillSpec (W : Z * Z -> Prop) (fuel : nat) : Prop :=
  forall (gm : GameMap) (x y : Z) (passability : TileClearType) (col : Z),
    floodFillEnabled gm = true ->
    0 <= col ->
    terrain W (tiles gm) ->
    is_Some (tiles gm !! (x, y)) ->
    (forall t, tiles gm !! (x, y) = Some t ->
               tilePassability t = walkableTile -> floodFillColor t = -1) ->
    othersClosed col (tiles gm) ->
    (size (uncolored col (tiles gm)) < fuel)%nat ->
    exists k ts',
      doFloodFill fuel gm x y passability col = Some (k, setTiles gm ts')
      /\ floodedFrom W col (x, y) (tiles gm) ts'
      /\ (W (x, y) -> exists t', ts' !! (x, y) = Some t' /\ floodFillColor t' = col).

(** Two grids with the same tiles at the same places, up to the flood fill
    colors. *)
Definition upToColor (ts ts' : gmap (Z * Z) Tile) : Prop :=
  forall c,
    match ts !! c, ts' !! c with
    | Some t, Some t' => t' = setFloodFillColor t (floodFillColor t')
    | None, None => True
    | _, _ => False
    end.

(** Every color class is closed under walkable neighbours. *)
Definition allClosed (ts : gmap (Z * Z) Tile) : Prop :=
  forall c t c' t',
    ts !! c = Some t -> tilePassability t = walkableTile ->
    floodFillColor t <> -1 ->
    c' ∈ adjacentCoords (fst c) (snd c) ->
    ts !! c' = Some t' -> tilePassability t' = walkableTile ->
    floodFillColor t' = floodFillColor t.

(** The state of the map between two rounds of the second pair of loops of
    [enableFloodFill], [ts0] being the grid before the call. *)
Record sweepInv (ts0 : gmap (Z * Z) Tile) (gm : GameMap) : Prop := {
  sw_enabled : floodFillEnabled gm = true;
  sw_tiles : upToColor ts0 (tiles gm);
  sw_counter : 0 <= mUniqueNumberFloodFilling gm;
  sw_colors : forall c t, tiles gm !! c = Some t ->
      floodFillColor t = -1
      \/ (tilePassability t = walkableTile
          /\ 0 <= floodFillColor t <= mUniqueNumberFloodFilling gm);
  sw_closed : allClosed (tiles gm);
  sw_connected : forall c t c' t',
      tiles gm !! c = Some t -> tiles gm !! c' = Some t' ->
      floodFillColor t <> -1 -> floodFillColor t' = floodFillColor t ->
      walkableReachable ts0 c c'
}.

(** ** Further predicates on the search *)

(** Every node but the start node sits on a tile that the [switch] of
    [GameMap::path] has let through. *)
Definition searchAdmissible (isDiggable : Tile -> Z -> bool)
           (passability : TileClearType) (color : Z) (st : AstarSearch) : Prop :=
  forall p e t, entries st !! p = Some e -> p <> 0%nat -> tile e = Some t ->
                processNeighbor isDiggable passability color t = true.

(** [b] can be reached from [a] by steps to neighbour pointers that the
    [switch] of [GameMap::path] lets through; [a] itself is not tested. *)
Inductive stepReachable (isDiggable : Tile -> Z -> bool) (gm : GameMap)
          (passability : TileClearType) (color : Z) (a : Tile) : Tile -> Prop :=
  | steps_here : stepReachable isDiggable gm passability color a a
  | steps_more (b c : Tile) :
      stepReachable isDiggable gm passability color a b ->
      Some c ∈ getAllNeighbors gm b ->
      processNeighbor isDiggable passability color c = true ->
      stepReachable isDiggable gm passability color a c.

(** Some node on the open or the closed list sits on the tile [t]. *)
Definition hasNode (st : AstarSearch) (t : Tile) : Prop :=
  exists q, q ∈ openList st ++ closedList st
            /\ tile (entryAt (entries st) q) = Some t.

(** The closed nodes are expanded: every neighbour of the tile of a closed
    node that the [switch] lets through has a node on one of the two lists;
    and no closed node sits on the destination. *)
Record searchFrontier (isDiggable : Tile -> Z -> bool) (gm : GameMap)
       (passability : TileClearType) (color : Z) (destination : Tile)
       (st : AstarSearch) : Prop := {
  sf_expanded : forall p tp t,
      p ∈ closedList st -> tile (entryAt (entries st) p) = Some tp ->
      Some t ∈ getAllNeighbors gm tp ->
      processNeighbor isDiggable passability color t = true ->
      hasNode st t;
  sf_not_there : forall p, p ∈ closedList st ->
      tile (entryAt (entries st) p) <> Some destination
}.

(** ** Rooms by type and color, and the gold of a color *)

(** [GameMap::getRoomsByTypeAndColor]. *)
Definition getRoomsByTypeAndColor (gm : GameMap) (type : RoomType) (color : Z)
  : list Room :=
  List.filter (fun r => bool_decide (roomType r = type)
                        && bool_decide (roomColor r = color)) (rooms gm).

(** [GameMap::numRoomsByTypeAndColor]: the [unsigned int] count moves on
    modulo 2^32. *)
Definition numRoomsByTypeAndColor (gm : GameMap) (type : RoomType) (color : Z) : Z :=
  fold_left (fun count r =>
               if bool_decide (roomType r = type) && bool_decide (roomColor r = color)
               then (count + 1) mod 2 ^ 32 else count)
            (rooms gm) 0.

(** [GameMap::getTotalGoldForColor]: the sum is an [int]. *)
Definition getTotalGoldForColor (gm : GameMap) (color : Z) : Z :=
  fold_left (fun tempInt r => tempInt + roomTotalGold r)
            (getRoomsByTypeAndColor gm treasury color) 0.

(** ** Vectors of entity pointers *)

Section EntityVectors.

(** The pointers to game entities; [==] on pointers is decidable. *)
Context {Entity : Type} `{EqDecision Entity}.

(** The loop shared by [removeCreature], [removeAnimatedObject],
    [removeActiveObject], [removeRoom], [removeTrap] and the like:
    [for (i = 0; i < v.size(); ++i) if (a == v[i]) { v.erase(v.begin() + i); break; }]. *)
Fixpoint eraseFirst (a : Entity) (v : list Entity) : list Entity :=
  match v with
  | [] => []
  | b :: v' => if decide (a = b) then v' else b :: eraseFirst a v'
  end.

(** [GameMap::addAnimatedObject] and [GameMap::removeAnimatedObject], on the
    vector [animatedObjects]. *)
Definition addAnimatedObject (animatedObjects : list Entity) (a : Entity)
  : list Entity :=
  animatedObjects ++ [a].

Definition removeAnimatedObject (animatedObjects : list Entity) (a : Entity)
  : list Entity :=
  eraseFirst a animatedObjects.

(** [GameEntity::isActive()] is not part of the sources at hand. *)
Variable isActive : Entity -> bool.

(** [GameMap::addActiveObject] and [GameMap::removeActiveObject], on the
    vector [activeObjects]. *)
Definition addActiveObject (activeObjects : list Entity) (a : Entity) : list Entity :=
  if isActive a then activeObjects ++ [a] else activeObjects.

Definition removeActiveObject (activeObjects : list Entity) (a : Entity)
  : list Entity :=
  if isActive a then eraseFirst a activeObjects else activeObjects.

(** [GameMap::addRoom] and [GameMap::removeRoom], on the vectors [rooms] and
    [activeObjects] (the first and the second component).  The calls
    [r->removeAllRoomObject()] of [removeRoom] touch neither vector. *)
Definition addRoom (st : list Entity * list Entity) (r : Entity)
  : list Entity * list Entity :=
  (fst st ++ [r], addActiveObject (snd st) r).

Definition removeRoom (st : list Entity * list Entity) (r : Entity)
  : list Entity * list Entity :=
  (eraseFirst r (fst st), removeActiveObject (snd st) r).

(** The upkeep round of the active objects in [doMiscUpkeep]:
    [while (activeObjectCount < activeObjects.size())].  [doUpkeep] is not
    part of the sources at hand: it is run on the rest of the state, of type
    [World], and says whether the object stays.  The [unsigned int] index
    moves on modulo 2^32; an index below the size is within the vector. *)
Fixpoint activeObjectsUpkeep {World : Type} (doUpkeep : Entity -> World -> bool * World)
         (fuel : nat) (activeObjects : list Entity) (activeObjectCount : Z)
         (w : World) : option (list Entity * World) :=
  match fuel with
  | O => None
  | S fuel' =>
      if activeObjectCount <? Z.of_nat (length activeObjects) then
        match activeObjects !! Z.to_nat activeObjectCount with
        | Some ge =>
            let '(stays, w') := doUpkeep ge w in
            if negb stays
            then activeObjectsUpkeep doUpkeep fuel'
                   (delete (Z.to_nat activeObjectCount) activeObjects)
                   activeObjectCount w'
            else activeObjectsUpkeep doUpkeep fuel' activeObjects
                   ((activeObjectCount + 1) mod 2 ^ 32) w'
        | None => None
        end
      else Some (activeObjects, w)
  end.

(** One upkeep per object, in the order of the vector; the objects that stay
    and the state after the last upkeep. *)
Fixpoint upkeepEach {World : Type} (doUpkeep : Entity -> World -> bool * World)
         (objects : list Entity) (w : World) : list Entity * World :=
  match objects with
  | [] => ([], w)
  | ge :: objects' =>
      let '(stays, w') := doUpkeep ge w in
      let '(kept, w'') := upkeepEach doUpkeep objects' w' in
      (if stays then ge :: kept else kept, w'')
  end.

(** [Room::numCoveredTiles()] is read through the pointer. *)
Variable numCoveredTiles : Entity -> Z.

(** The loop of [doMiscUpkeep] that removes the empty rooms:
    [for (unsigned int i = 0; i < numRooms(); ++i)], with the [--i] after a
    removal.  [i] is an [unsigned int]: at 0 the decrement wraps to
    [2^32 - 1] and the increment of the loop brings it back to 0.
    [numRooms()] gives the size as an [unsigned int], and [getRoom(i)] takes
    an [int]: an index from [2^31] on is not an index of the vector, and the
    loop is left without a result, as when the fuel is used up. *)
Fixpoint removeEmptyRooms (fuel : nat) (i : Z) (st : list Entity * list Entity)
  : option (list Entity * list Entity) :=
  match fuel with
  | O => None
  | S fuel' =>
      if i <? Z.of_nat (length (fst st)) mod 2 ^ 32 then
        match (if i <? 2 ^ 31 then fst st !! Z.to_nat i else None) with
        | Some tempRoom =>
            if numCoveredTiles tempRoom =? 0 then
              let st := removeRoom st tempRoom in
              let i := (i - 1) mod 2 ^ 32 in
              removeEmptyRooms fuel' ((i + 1) mod 2 ^ 32) st
            else removeEmptyRooms fuel' ((i + 1) mod 2 ^ 32) st
        | None => None
        end
      else Some st
  end.

End EntityVectors.

(** ** The pools of seats and the winners *)

(** [Seat::getColor()] through a seat pointer. *)
Definition seatColor (ss : gmap nat Seat) (s : nat) : option Z :=
  mColor <$> ss !! s.

(** The search of a vector of seat pointers for the first seat of a color:
    the position and the seat. *)
Fixpoint findSeat (ss : gmap nat Seat) (color : Z) (v : list nat) : option nat :=
  match v with
  | [] => None
  | s :: v' =>
      if bool_decide (seatColor ss s = Some color) then Some s
      else findSeat ss color v'
  end.

(** The erasure of the first seat of a color from a vector of seat
    pointers. *)
Fixpoint eraseSeat (ss : gmap nat Seat) (color : Z) (v : list nat) : list nat :=
  match v with
  | [] => []
  | s :: v' =>
      if bool_decide (seatColor ss s = Some color) then v'
      else s :: eraseSeat ss color v'
  end.

(** [GameMap::popEmptySeat(color)]: the seat returned ([NULL] is [None]) and
    the vectors [emptySeats] and [filledSeats] after the call. *)
Definition popEmptySeat (ss : gmap nat Seat) (color : Z)
           (emptySeats filledSeats : list nat)
  : option nat * (list nat * list nat) :=
  match findSeat ss color emptySeats with
  | Some seat => (Some seat, (eraseSeat ss color emptySeats, filledSeats ++ [seat]))
  | None => (None, (emptySeats, filledSeats))
  end.

(** [GameMap::popFilledSeat()]. *)
Definition popFilledSeat (emptySeats filledSeats : list nat)
  : option nat * (list nat * list nat) :=
  match filledSeats with
  | s :: filledSeats' => (Some s, (emptySeats ++ [s], filledSeats'))
  | [] => (None, (emptySeats, filledSeats))
  end.

(** [GameMap::getSeatByColor(color)]: the filled seats first, then the empty
    ones. *)
Definition getSeatByColor (ss : gmap nat Seat) (color : Z)
           (emptySeats filledSeats : list nat) : option nat :=
  match findSeat ss color filledSeats with
  | Some s => Some s
  | None => findSeat ss color emptySeats
  end.

(** [GameMap::seatIsAWinner(s)]. *)
Fixpoint seatIsAWinner (winningSeats : list nat) (s : nat) : bool :=
  match winningSeats with
  | [] => false
  | w :: winningSeats' => if bool_decide (w = s) then true else seatIsAWinner winningSeats' s
  end.

(** [GameMap::addWinningSeat(s)]. *)
Definition addWinningSeat (winningSeats : list nat) (s : nat) : list nat :=
  if seatIsAWinner winningSeats s then winningSeats else winningSeats ++ [s].

(** ** [GameMap::getVisibleForce] *)

Section VisibleForce.

(** The classes [Tile], [Creature] and [Room] are not part of the sources at
    hand.  Of a tile the function reads the creatures in the cell
    ([numCreaturesInCell()], [getCreature(i)], which may be [NULL]) and the
    covering room ([getCoveringRoom()], which may be [NULL]); of a creature
    and of a room it reads the color.  The entities returned are pointers:
    to a creature or to a room. *)
Context {CreaturePtr RoomPtr : Type} `{EqDecision RoomPtr}.
Variable creaturesInCell : Tile -> list (option CreaturePtr).
Variable getCoveringRoom : Tile -> option RoomPtr.
Variable creatureColorOf : CreaturePtr -> Z.
Variable roomColorOf : RoomPtr -> Z.

(** The loop over the creatures of one tile. *)
Definition visibleCreatures (color : Z) (invert : bool)
           (returnList : list (CreaturePtr + RoomPtr)) (t : Tile)
  : list (CreaturePtr + RoomPtr) :=
  fold_left (fun returnList tempCreature =>
               match tempCreature with
               | Some c =>
                   if (invert && negb (creatureColorOf c =? color))
                      || (negb invert && (creatureColorOf c =? color))
                   then returnList ++ [inl c]
                   else returnList
               | None => returnList
               end)
            (creaturesInCell t) returnList.

(** The search of [returnList] for the room. *)
Definition roomFound (returnList : list (CreaturePtr + RoomPtr)) (tempRoom : RoomPtr)
  : bool :=
  existsb (fun e => match e with
                    | inr r => bool_decide (r = tempRoom)
                    | inl _ => false
                    end) returnList.

(** The body of the loop over the visible tiles. *)
Definition visibleForceOfTile (color : Z) (invert : bool)
           (returnList : list (CreaturePtr + RoomPtr)) (t : Tile)
  : list (CreaturePtr + RoomPtr) :=
  let returnList := visibleCreatures color invert returnList t in
  match getCoveringRoom t with
  | Some tempRoom =>
      if (invert && negb (roomColorOf tempRoom =? color))
         || (negb invert && negb (roomColorOf tempRoom =? color))
      then
        if roomFound returnList tempRoom then returnList
        else returnList ++ [inr tempRoom]
      else returnList
  | None => returnList
  end.

Definition getVisibleForce (visibleTiles : list Tile) (color : Z) (invert : bool)
  : list (CreaturePtr + RoomPtr) :=
  fold_left (visibleForceOfTile color invert) visibleTiles [].

(** The rooms of a list of entities. *)
Definition roomsOf (l : list (CreaturePtr + RoomPtr)) : list RoomPtr :=
  omap (fun e => match e with inr r => Some r | inl _ => None end) l.

(** The creatures of a list of entities. *)
Definition creaturesOf (l : list (CreaturePtr + RoomPtr)) : list CreaturePtr :=
  omap (fun e => match e with inl c => Some c | inr _ => None end) l.

End VisibleForce.

(** * The stack of modes (source/ModeManager.cpp) *)

Section ModeManager.

(** [ModeManager::ModeType] is declared outside the sources at hand; [MENU]
    is the value that the constructor pushes. *)
Variable ModeType : Type.
Variable MENU : ModeType.

(** The state of a [ModeManager]: [modesStack], the top first, and the
    modes that were given the focus, in the order of the calls of
    [giveFocus()]. *)
Record ModeManager : Type := mkModeManager {
  modesStack : list ModeType;
  focusGiven : list ModeType
}.

(** [ModeManager::ModeManager]. *)
Definition ModeManager_new : ModeManager := mkModeManager [MENU] [MENU].

(** [ModeManager::getCurrentMode]: [top()] of an empty stack is not
    defined, here [None]. *)
Definition getCurrentMode (m : ModeManager) : option ModeType :=
  head (modesStack m).

(** [ModeManager::progressMode(mm)]: the mode returned and the state after
    the call. *)
Definition progressMode (m : ModeManager) (mm : ModeType)
  : option ModeType * ModeManager :=
  (Some mm, mkModeManager (mm :: modesStack m) (focusGiven m ++ [mm])).

(** [ModeManager::regressMode()]. *)
Definition regressMode (m : ModeManager) : option ModeType * ModeManager :=
  if bool_decide (1 < length (modesStack m))%nat then
    match tail (modesStack m) with
    | top :: _ =>
        (Some top, mkModeManager (tail (modesStack m)) (focusGiven m ++ [top]))
    | [] => (None, mkModeManager [] (focusGiven m))
    end
  else (head (modesStack m), m).

(** A call of [progressMode] or of [regressMode]. *)
Inductive ModeCall : Type :=
  | Progress (mm : ModeType)
  | Regress.

Definition runModeCall (m : ModeManager) (c : ModeCall) : ModeManager :=
  match c with
  | Progress mm => snd (progressMode m mm)
  | Regress => snd (regressMode m)
  end.

End ModeManager.

(** ** Small instances for examples *)

(** Objects are numbers; the world counts the upkeeps; an object stays when
    its number is even. *)
Definition exampleUpkeep (ge : nat) (w : nat) : bool * nat := (Nat.even ge, S w).

(** Rooms are numbers; room [n] covers [n mod 2] tiles; every room is
    active. *)
Definition exampleCoveredTiles (r : nat) : Z := Z.of_nat (r mod 2).
Definition exampleActive (r : nat) : bool := true.

(** A treasury whose [withdrawGold] hands out between nothing and the amount
    asked for, books it off its gold and stays the treasury it was. *)
Definition honestTreasury (withdrawGold : Room -> Z -> Z * Room) (r : Room) : Prop :=
  forall gold, 0 < gold ->
    0 <= fst (withdrawGold r gold) <= gold
    /\ roomType (snd (withdrawGold r gold)) = roomType r
    /\ roomColor (snd (withdrawGold r gold)) = roomColor r
    /\ roomTotalGold (snd (withdrawGold r gold))
       = roomTotalGold r - fst (withdrawGold r gold).

(** ** Predicates for the length of the path found *)

(** Some node on the open or the closed list sits on the tile [t] and costs
    at most [b]. *)
Definition hasNodeWithin (st : AstarSearch) (t : Tile) (b : Z) : Prop :=
  exists q, q ∈ openList st ++ closedList st
            /\ tile (entryAt (entries st) q) = Some t
            /\ g (entryAt (entries st) q) <= b.

(** The search goes layer by layer: no closed node costs more than an open
    one, and every neighbour that the [switch] lets through of the tile of a
    closed node, the destination apart, has a node that costs at most one
    more. *)
Record searchLayers (isDiggable : Tile -> Z -> bool) (gm : GameMap)
       (passability : TileClearType) (color : Z) (destination : Tile)
       (st : AstarSearch) : Prop := {
  sl_order : forall p q, p ∈ closedList st -> q ∈ openList st ->
      g (entryAt (entries st) p) <= g (entryAt (entries st) q);
  sl_near : forall p tp t,
      p ∈ closedList st -> tile (entryAt (entries st) p) = Some tp ->
      tp <> destination ->
      Some t ∈ getAllNeighbors gm tp ->
      processNeighbor isDiggable passability color t = true ->
      hasNodeWithin st t (g (entryAt (entries st) p) + 1)
}.

(** Three seats of the colors 1, 2 and 1. *)
Definition exampleSeats : gmap nat Seat :=
  {[ 0%nat := mkSeat 1 0 0; 1%nat := mkSeat 2 0 0; 2%nat := mkSeat 1 0 0 ]}.
(* ================================================================== *)
(** * Properties *)
(* ================================================================== *)

(** ** [GameMap::path] *)

Lemma entryAt_lookup (es : list AstarEntry) (p : nat) (e : AstarEntry) :
  es !! p = Some e -> entryAt es p = e.
Proof. unfold entryAt. by intros ->. Qed.

Section PathProperties.

Variable isDiggable : Tile -> Z -> bool.
Variable gm : GameMap.
Variable start : Tile.

Lemma visitNeighbor_inv passability color x1 y1 cur tcur st n :
  searchInv gm start st ->
  0%nat ∈ closedList st ->
  cur ∈ closedList st ->
  tile (entryAt (entries st) cur) = Some tcur ->
  n ∈ getAllNeighbors gm tcur ->
  let st' := visitNeighbor isDiggable passability color x1 y1 cur st n in
  searchInv gm start st' /\ closedList st' = closedList st
  /\ tile (entryAt (entries st') cur) = Some tcur.
Proof.
  intros Hinv H0 Hcur Htcur Hn. simpl.
  destruct Hinv as [Hb Hnd Hroot Hchild Hstart].
  assert (Hcurlt : (cur < length (entries st))%nat).
  { apply Hb. apply elem_of_app. by right. }
  destruct (lookup_lt_is_Some_2 _ _ Hcurlt) as [ecur Hecur].
  rewrite (entryAt_lookup _ _ _ Hecur) in Htcur.
  unfold visitNeighbor. destruct n as [t|]; simpl.
  2:{ split; [by constructor|]. split; [done|]. by rewrite (entryAt_lookup _ _ _ Hecur). }
  destruct (negb _); simpl.
  { split; [by constructor|]. split; [done|]. by rewrite (entryAt_lookup _ _ _ Hecur). }
  destruct (findTile (entries st) (closedList st) t) as [pc|] eqn:Hfc; simpl.
  { split; [by constructor|]. split; [done|]. by rewrite (entryAt_lookup _ _ _ Hecur). }
  destruct (findTile (entries st) (openList st) t) as [po|] eqn:Hfo; simpl.
  - (* the neighbour is on the open list *)
    apply find_some in Hfo as [Hpo Htpo].
    apply list_elem_of_In in Hpo. apply bool_decide_eq_true in Htpo.
    assert (Hpo_nclosed : po ∉ closedList st).
    { intros Hc. apply NoDup_app in Hnd as (_ & Hdis & _). by apply (Hdis po). }
    assert (Hpo0 : po <> 0%nat) by (intros ->; done).
    assert (Hpocur : po <> cur) by (intros ->; done).
    assert (Hpolt : (po < length (entries st))%nat).
    { apply Hb. apply elem_of_app. by left. }
    destruct (lookup_lt_is_Some_2 _ _ Hpolt) as [epo Hepo].
    rewrite (entryAt_lookup _ _ _ Hepo) in Htpo.
    rewrite (entryAt_lookup _ _ _ Hecur), (entryAt_lookup _ _ _ Hepo).
    destruct (g ecur + 1 <? g epo) eqn:Hlt; simpl.
    2:{ split; [by constructor|]. split; [done|]. by rewrite (entryAt_lookup _ _ _ Hecur). }
    split; [|split; [done|]].
    + constructor; simpl.
      * intros p Hp. rewrite length_alter. by apply Hb.
      * done.
      * destruct Hroot as (e0 & He0 & ?). exists e0. split; [|done].
        rewrite list_lookup_alter_ne; done.
      * intros p e Hp Hp0.
        destruct (decide (p = po)) as [->|Hne].
        -- rewrite list_lookup_alter_eq, Hepo in Hp. simpl in Hp.
           injection Hp as <-. simpl.
           exists cur, ecur, t, tcur. rewrite list_lookup_alter_ne by done.
           repeat split; try done.
        -- rewrite list_lookup_alter_ne in Hp by done.
           destruct (Hchild p e Hp Hp0) as (q & eq & t' & tq & Hq1 & Hq2 & Hq3 & Hq4).
           exists q, eq, t', tq. split; [done|]. split; [done|].
           split; [|done]. rewrite list_lookup_alter_ne; [done|].
           intros ->. done.
      * by left.
    + unfold entryAt. rewrite list_lookup_alter_ne by done. by rewrite Hecur.
  - (* the neighbour is new: a node is allocated and pushed *)
    rewrite (entryAt_lookup _ _ _ Hecur).
    split; [|split; [done|]].
    + constructor; simpl.
      * intros p Hp. rewrite length_app, length_alter. simpl.
        rewrite <- app_assoc in Hp. apply elem_of_app in Hp as [Hp|Hp].
        -- assert (p < length (entries st))%nat; [|lia].
           apply Hb, elem_of_app. by left.
        -- apply elem_of_cons in Hp as [->|Hp]; [rewrite length_alter; lia|].
           assert (p < length (entries st))%nat; [|lia].
           apply Hb, elem_of_app. by right.
      * rewrite length_alter.
        assert (Hfresh : length (entries st) ∉ openList st ++ closedList st).
        { intros Hin. apply Hb in Hin. lia. }
        rewrite <- app_assoc. simpl.
        apply NoDup_app in Hnd as (Hn1 & Hn2 & Hn3).
        apply NoDup_app. split; [done|]. split.
        -- intros p Hp1 Hp2. apply elem_of_cons in Hp2 as [->|Hp2].
           ++ apply Hfresh, elem_of_app. by left.
           ++ by apply (Hn2 p).
        -- apply NoDup_cons. split; [|done].
           intros Hin. apply Hfresh, elem_of_app. by right.
      * destruct Hroot as (e0 & He0 & Ht0 & Hp0 & Hg0).
        destruct (decide (cur = 0%nat)) as [->|Hne].
        -- eexists. rewrite lookup_app_l by (rewrite length_alter; lia).
           rewrite list_lookup_alter_eq, He0. simpl. split; [done|]. done.
        -- exists e0. rewrite lookup_app_l by (rewrite length_alter; lia).
           rewrite list_lookup_alter_ne by done. done.
      * intros p e Hp Hp0.
        assert (Hcur' : (alter (fun e => setHeuristic e x1 y1 (tile_x t) (tile_y t))
                               cur (entries st) ++
                         [setParent (setG (setTile (neighbor st) (Some t)) (g ecur + 1))
                                    (Some cur)]) !! cur
                        = Some (setHeuristic ecur x1 y1 (tile_x t) (tile_y t))).
        { rewrite lookup_app_l by (rewrite length_alter; lia).
          by rewrite list_lookup_alter_eq, Hecur. }
        destruct (decide (p < length (entries st))%nat) as [Hlt|Hge].
        -- rewrite lookup_app_l in Hp by (rewrite length_alter; lia).
           assert (exists e', entries st !! p = Some e' /\ tile e' = tile e
                              /\ parent e' = parent e /\ g e' = g e)
             as (e' & He' & Hte & Hpe & Hge).
           { destruct (decide (p = cur)) as [->|Hne].
             - rewrite list_lookup_alter_eq, Hecur in Hp. simpl in Hp.
               injection Hp as <-. by exists ecur.
             - rewrite list_lookup_alter_ne in Hp by done. by exists e. }
           destruct (Hchild p e' He' Hp0)
             as (q & eq & t' & tq & Hq1 & Hq2 & Hq3 & Hq4 & Hq5 & Hq6 & Hq7).
           assert (Hqlt : (q < length (entries st))%nat) by (by eapply lookup_lt_Some).
           destruct (decide (q = cur)) as [->|Hne].
           ++ exists cur, (setHeuristic ecur x1 y1 (tile_x t) (tile_y t)), t', tq.
              rewrite Hecur in Hq3. injection Hq3 as <-.
              rewrite Hcur'. simpl. rewrite <- Hte, <- Hpe, <- Hge. done.
           ++ exists q, eq, t', tq.
              rewrite lookup_app_l by (rewrite length_alter; lia).
              rewrite list_lookup_alter_ne by done.
              rewrite <- Hte, <- Hpe, <- Hge. done.
        -- assert (p = length (entries st)) as ->.
           { apply lookup_lt_Some in Hp. rewrite length_app, length_alter in Hp.
             simpl in Hp. lia. }
           rewrite lookup_app_r in Hp by (rewrite length_alter; lia).
           rewrite length_alter, Nat.sub_diag in Hp. simpl in Hp.
           injection Hp as <-. simpl.
           exists cur, (setHeuristic ecur x1 y1 (tile_x t) (tile_y t)), t, tcur.
           rewrite Hcur'. simpl. done.
      * by left.
    + unfold entryAt. rewrite lookup_app_l by (rewrite length_alter; lia).
      rewrite list_lookup_alter_eq, Hecur. simpl. done.
Qed.

Lemma visitNeighbors_fold_inv passability color x1 y1 cur tcur l st :
  searchInv gm start st ->
  0%nat ∈ closedList st ->
  cur ∈ closedList st ->
  tile (entryAt (entries st) cur) = Some tcur ->
  (forall n, n ∈ l -> n ∈ getAllNeighbors gm tcur) ->
  let st' := fold_left (visitNeighbor isDiggable passability color x1 y1 cur) l st in
  searchInv gm start st' /\ closedList st' = closedList st.
Proof.
  revert st. induction l as [|n l IH]; intros st Hinv H0 Hcur Htcur Hl; simpl.
  - done.
  - destruct (visitNeighbor_inv passability color x1 y1 cur tcur st n)
      as (Hinv' & Hcl & Ht'); try done.
    { apply Hl. by left. }
    simpl in *.
    destruct (IH (visitNeighbor isDiggable passability color x1 y1 cur st n))
      as (Hinv'' & Hcl''); try done.
    + by rewrite Hcl.
    + by rewrite Hcl.
    + intros n' Hn'. apply Hl. by right.
    + split; [done|]. by rewrite Hcl'', Hcl.
Qed.

Lemma visitNeighbors_inv passability color x1 y1 cur st :
  searchInv gm start st ->
  0%nat ∈ closedList st ->
  cur ∈ closedList st ->
  let st' := visitNeighbors isDiggable gm passability color x1 y1 cur st in
  searchInv gm start st' /\ closedList st' = closedList st.
Proof.
  intros Hinv H0 Hcur. unfold visitNeighbors.
  destruct (tile (entryAt (entries st) cur)) as [tcur|] eqn:Htcur; [|done].
  by apply visitNeighbors_fold_inv with (tcur := tcur).
Qed.

Lemma smallestAstar_range es l pos best bestCost :
  let r := smallestAstar es l pos best bestCost in
  r = best \/ (pos <= r < pos + length l)%nat.
Proof.
  revert pos best bestCost. induction l as [|p l IH]; intros pos best bestCost; simpl.
  - by left.
  - destruct (fCost (entryAt es p) <? bestCost).
    + destruct (IH (S pos) pos (fCost (entryAt es p))) as [->|?]; right; lia.
    + destruct (IH (S pos) best bestCost) as [->|?]; [by left|right; lia].
Qed.

Lemma smallestAstarPos_lt es l :
  l <> [] -> (smallestAstarPos es l < length l)%nat.
Proof.
  destruct l as [|p l]; [done|]. intros _. unfold smallestAstarPos.
  destruct (smallestAstar_range es (p :: l) 0 0 (fCost (entryAt es p))) as [->|?];
    simpl in *; lia.
Qed.

Lemma moveToClosed_inv st pos cur :
  searchInv gm start st ->
  openList st !! pos = Some cur ->
  let st1 := mkAstarSearch (entries st) (delete pos (openList st))
                           (closedList st ++ [cur]) (neighbor st) in
  searchInv gm start st1 /\ 0%nat ∈ closedList st1 /\ cur ∈ closedList st1
  /\ openList st ++ closedList st ≡ₚ openList st1 ++ closedList st1.
Proof.
  intros Hinv Hcur st1.
  assert (Hperm : openList st ++ closedList st
                  ≡ₚ openList st1 ++ closedList st1).
  { simpl. rewrite (delete_Permutation _ _ _ Hcur) at 1.
    rewrite (Permutation_app_comm (closedList st) [cur]). simpl.
    apply Permutation_middle. }
  destruct Hinv as [Hb Hnd Hroot Hchild Hstart].
  assert (H0 : 0%nat ∈ closedList st1).
  { simpl. destruct Hstart as [?|[Ho Hc]].
    - apply elem_of_app. by left.
    - rewrite Ho in Hcur. destruct pos; [|done]. injection Hcur as <-.
      apply elem_of_app. right. by left. }
  split; [|split; [done|split; [|done]]].
  - constructor; simpl.
    + intros p Hp. apply Hb. rewrite Hperm. done.
    + simpl in Hperm. by rewrite <- Hperm.
    + done.
    + intros p e Hp Hp0.
      destruct (Hchild p e Hp Hp0) as (q & eq & t & tq & ? & ? & ?).
      exists q, eq, t, tq. split; [done|]. split; [|done].
      apply elem_of_app. by left.
    + by left.
  - simpl. apply elem_of_app. right. by left.
Qed.

Lemma searchStep_inv passability color x1 y1 destination st r st' :
  searchInv gm start st ->
  searchStep isDiggable gm passability color x1 y1 destination st = (r, st') ->
  searchInv gm start st'
  /\ (r <> Some false -> 0%nat ∈ closedList st').
Proof.
  intros Hinv. unfold searchStep.
  destruct (openList st) as [|p0 ol] eqn:Hol.
  { intros [= <- <-]. done. }
  rewrite <- Hol.
  set (pos := smallestAstarPos (entries st) (openList st)).
  assert (Hpos : (pos < length (openList st))%nat).
  { apply smallestAstarPos_lt. by rewrite Hol. }
  destruct (lookup_lt_is_Some_2 _ _ Hpos) as [cur Hcur]. rewrite Hcur. simpl.
  destruct (moveToClosed_inv st pos cur Hinv Hcur) as (Hinv1 & H01 & Hcur1 & _).
  set (st1 := mkAstarSearch (entries st) (delete pos (openList st))
                            (closedList st ++ [cur]) (neighbor st)) in *.
  destruct (bool_decide _).
  - intros [= <- <-]. done.
  - intros [= <- <-].
    destruct (visitNeighbors_inv passability color x1 y1 cur st1) as [Hi Hc]; try done.
    simpl in Hi, Hc. split; [done|]. intros _. fold st1. rewrite Hc. done.
Qed.

Lemma searchLoop_inv fuel passability color x1 y1 destination st b st' :
  searchInv gm start st ->
  searchLoop isDiggable fuel gm passability color x1 y1 destination st
    = Some (b, st') ->
  searchInv gm start st' /\ (b = true -> 0%nat ∈ closedList st').
Proof.
  revert st. induction fuel as [|fuel IH]; intros st Hinv; simpl; [done|].
  destruct (searchStep isDiggable gm passability color x1 y1 destination st)
    as [r st1] eqn:Hstep.
  destruct (searchStep_inv _ _ _ _ _ _ _ _ Hinv Hstep) as [Hinv1 H01].
  destruct r as [pathFound|].
  - intros [= <- <-]. split; [done|]. intros ->. by apply H01.
  - by apply IH.
Qed.

Lemma initialSearch_inv x1 y1 x2 y2 :
  searchInv gm start (initialSearch start x1 y1 x2 y2).
Proof.
  constructor; simpl.
  - intros p Hp. apply list_elem_of_singleton in Hp as ->. lia.
  - apply NoDup_singleton.
  - eexists. split; [done|]. done.
  - intros [|p] e Hp Hp0; [done|]. done.
  - by right.
Qed.

Lemma consecutive_snoc (R : Tile -> Tile -> Prop) l a b :
  consecutive R l -> last l = Some a -> R a b -> consecutive R (l ++ [b]).
Proof.
  induction l as [|c l IH]; [done|]. intros Hc Hl HR.
  destruct l as [|d l].
  - simpl in *. injection Hl as ->. done.
  - destruct Hc as [Hcd Hc]. split; [done|]. apply IH; done.
Qed.

Lemma followParents_chain fuel st cur acc l :
  searchInv gm start st ->
  (cur < length (entries st))%nat ->
  followParents fuel (entries st) cur acc = Some l ->
  exists l' tcur, l = l' ++ acc /\ head l' = Some start /\ last l' = Some tcur
                  /\ tile (entryAt (entries st) cur) = Some tcur
                  /\ consecutive (isNeighborOf gm) l'.
Proof.
  intros Hinv. revert cur acc.
  induction fuel as [|fuel IH]; intros cur acc Hlt; simpl; [done|].
  destruct (lookup_lt_is_Some_2 _ _ Hlt) as [e He].
  rewrite (entryAt_lookup _ _ _ He).
  destruct (decide (cur = 0%nat)) as [->|Hne].
  - destruct (inv_root _ _ _ Hinv) as (e0 & He0 & Ht0 & Hp0 & _).
    rewrite He in He0. injection He0 as <-. rewrite Ht0, Hp0.
    intros [= <-]. exists [start], start. done.
  - destruct (inv_child _ _ _ Hinv cur e He Hne)
      as (q & eq & t & tq & Hp & Hq & Heq & Ht & Htq & Hnb & _).
    rewrite Ht, Hp. intros Hf.
    apply IH in Hf; [|by eapply lookup_lt_Some].
    destruct Hf as (l' & tq' & -> & Hhd & Hlast & Htq' & Hcons).
    rewrite (entryAt_lookup _ _ _ Heq), Htq in Htq'. injection Htq' as <-.
    exists (l' ++ [t]), t. split; [by rewrite <- app_assoc|].
    split; [by destruct l'|]. split; [by rewrite last_snoc|]. split; [done|].
    by apply consecutive_snoc with (a := tq).
Qed.

End PathProperties.

Lemma isNeighborOf_sym (gm : GameMap) (a b : Tile) :
  tilesWellPlaced gm ->
  getTile gm (tile_x a) (tile_y a) = Some a ->
  isNeighborOf gm a b ->
  getTile gm (tile_x b) (tile_y b) = Some b /\ isNeighborOf gm b a.
Proof.
  intros Hwf Ha Hab. unfold isNeighborOf, getAllNeighbors in *.
  apply list_elem_of_In, in_map_iff in Hab as ([cx cy] & Hc & Hin).
  simpl in Hc. unfold getTile in Hc.
  pose proof (Hwf _ _ Hc) as Hb. simpl in Hb. injection Hb as Hbx Hby.
  split; [unfold getTile; by rewrite Hbx, Hby|].
  apply list_elem_of_In, in_map_iff.
  exists (tile_x a, tile_y a). split; [done|].
  unfold adjacentCoords in *. simpl in *.
  destruct Hin as [[= <- <-]|[[= <- <-]|[[= <- <-]|[[= <- <-]|[]]]]]; subst.
  - right; left. f_equal; lia.
  - left. f_equal; lia.
  - right; right; right; left. f_equal; lia.
  - right; right; left. f_equal; lia.
Qed.

Lemma consecutive_sym (gm : GameMap) (l : list Tile) (a : Tile) :
  tilesWellPlaced gm ->
  head l = Some a ->
  getTile gm (tile_x a) (tile_y a) = Some a ->
  consecutive (isNeighborOf gm) l ->
  consecutive (fun u v => isNeighborOf gm u v /\ isNeighborOf gm v u) l.
Proof.
  intros Hwf. revert a. induction l as [|c l IH]; [done|].
  intros a [= ->] Ha Hc. destruct l as [|d l]; [done|].
  destruct Hc as [Hcd Hc].
  destruct (isNeighborOf_sym gm a d Hwf Ha Hcd) as [Hd Hda].
  split; [done|]. by apply (IH d).
Qed.

(** C8. [path] returns the empty list when the tile at [(x1, y1)] or the tile
    at [(x2, y2)] does not exist, whatever the fuel; the map after the call is
    the map before it with the call counter moved on by one: the grid is as
    it was. *)
Theorem path_missing_endpoint (isDiggable : Tile -> Z -> bool)
        (fuel : nat) (gm : GameMap) (x1 y1 x2 y2 : Z)
        (passability : TileClearType) (color : Z) :
  getTile gm x1 y1 = None \/ getTile gm x2 y2 = None ->
  path isDiggable fuel gm x1 y1 x2 y2 passability color
  = Some ([], setNumCallsTo_path gm ((numCallsTo_path gm + 1) mod 2 ^ 32))
  /\ tiles (setNumCallsTo_path gm ((numCallsTo_path gm + 1) mod 2 ^ 32)) = tiles gm.
Proof.
  intros Hmiss. split; [|done]. unfold path.
  change (getTile (setNumCallsTo_path gm ((numCallsTo_path gm + 1) mod 2 ^ 32)))
    with (getTile gm).
  destruct (getTile gm x1 y1) as [s|] eqn:H1; [|done].
  destruct Hmiss as [?|H2]; [done|].
  rewrite H2. by destruct (_ && _).
Qed.

Lemma path_missing_endpoint_witness :
  path neverDiggable 0 corridor3 0 0 5 0 walkableTile 0
  = Some ([], setNumCallsTo_path corridor3 ((numCallsTo_path corridor3 + 1) mod 2 ^ 32))
  /\ tiles (setNumCallsTo_path corridor3 ((numCallsTo_path corridor3 + 1) mod 2 ^ 32))
     = tiles corridor3.
Proof.
  apply (path_missing_endpoint neverDiggable 0 corridor3 0 0 5 0 walkableTile 0).
  right. vm_compute. reflexivity.
Defined.

(** C9. A non-empty list returned by [path] starts with the tile at
    [(x1, y1)], ends with the tile at [(x2, y2)], and each of its tiles is
    among the neighbour pointers of the tile before it; when every tile of
    the grid sits at its own coordinates the neighbour relation holds in both
    directions. *)
Theorem path_endpoints_and_steps (isDiggable : Tile -> Z -> bool)
        (fuel : nat) (gm : GameMap) (x1 y1 x2 y2 : Z)
        (passability : TileClearType) (color : Z)
        (l : list Tile) (gm' : GameMap) :
  path isDiggable fuel gm x1 y1 x2 y2 passability color = Some (l, gm') ->
  l <> [] ->
  head l = getTile gm x1 y1
  /\ last l = getTile gm x2 y2
  /\ consecutive (isNeighborOf gm) l
  /\ (tilesWellPlaced gm ->
      consecutive (fun a b => isNeighborOf gm a b /\ isNeighborOf gm b a) l).
Proof.
  unfold path.
  set (gm1 := setNumCallsTo_path gm ((numCallsTo_path gm + 1) mod 2 ^ 32)).
  change (getTile gm1) with (getTile gm).
  destruct (getTile gm x1 y1) as [start|] eqn:H1; [|by intros [= <- <-]].
  destruct (_ && _); [by intros [= <- <-]|].
  destruct (getTile gm x2 y2) as [destination|] eqn:H2; [|by intros [= <- <-]].
  destruct (searchLoop _ _ _ _ _ _ _ _ _) as [[[|] st]|] eqn:Hloop;
    [|by intros [= <- <-]|done].
  destruct (searchLoop_inv isDiggable gm1 start _ _ _ _ _ _ _ _ _
              (initialSearch_inv gm1 start x1 y1 x2 y2) Hloop) as [Hinv _].
  destruct (findTile (entries st) (closedList st) destination) as [d|] eqn:Hd; [|done].
  destruct (followParents fuel (entries st) d []) as [r|] eqn:Hf; [|done].
  intros [= <- <-] _.
  apply find_some in Hd as [Hdin Hdt].
  apply list_elem_of_In in Hdin. apply bool_decide_eq_true in Hdt.
  apply (followParents_chain gm1 start) in Hf; [|done|].
  2:{ apply (inv_bound _ _ _ Hinv). apply elem_of_app. by right. }
  destruct Hf as (l' & td & -> & Hhd & Hlast & Htd & Hcons).
  rewrite app_nil_r. rewrite Hdt in Htd. injection Htd as <-.
  split; [done|]. split; [done|]. split; [done|].
  intros Hwf. apply (consecutive_sym gm l' start); try done.
  pose proof (Hwf _ _ H1) as Hs. simpl in Hs. injection Hs as -> ->. done.
Qed.

Lemma path_endpoints_and_steps_witness :
  let l := [openTile 0 0; openTile 1 0; openTile 2 0] in
  head l = getTile corridor3 0 0
  /\ last l = getTile corridor3 2 0
  /\ consecutive (isNeighborOf corridor3) l
  /\ (tilesWellPlaced corridor3 ->
      consecutive (fun a b => isNeighborOf corridor3 a b /\ isNeighborOf corridor3 b a) l).
Proof.
  apply (path_endpoints_and_steps neverDiggable 10 corridor3 0 0 2 0 walkableTile 0
           [openTile 0 0; openTile 1 0; openTile 2 0]
           (setNumCallsTo_path corridor3 1)).
  - vm_compute. reflexivity.
  - discriminate.
Defined.

(** C3, evaluated on the corridor of three walkable tiles, for the call
    [path(0, 0, 2, 0, walkableTile, 0)].  After the first round of the search
    the open list holds one node, for the tile at [(1, 0)]; its cost [g] is
    one more than the cost of its parent, but its heuristic [h] is 0, and
    the Manhattan distance from its tile to the goal is 1.  The round has
    instead overwritten the heuristic of the start node, which is closed. *)
Theorem path_open_node_heuristic_not_manhattan :
  let st0 := initialSearch (openTile 0 0) 0 0 2 0 in
  let st1 := snd (searchStep neverDiggable corridor3 walkableTile 0 0 0
                             (openTile 2 0) st0) in
  h (entryAt (entries st0) 0) = manhattan (openTile 0 0) 2 0
  /\ openList st1 = [1%nat]
  /\ tile (entryAt (entries st1) 1) = Some (openTile 1 0)
  /\ parent (entryAt (entries st1) 1) = Some 0%nat
  /\ g (entryAt (entries st1) 1) = g (entryAt (entries st1) 0) + 1
  /\ h (entryAt (entries st1) 1) = 0
  /\ manhattan (openTile 1 0) 2 0 = 1
  /\ h (entryAt (entries st1) 0) = 1.
Proof. vm_compute. repeat split; reflexivity. Qed.

(** *** The search stops *)

Lemma tile_entryAt_alter (f : AstarEntry -> AstarEntry) (q p : nat)
      (es : list AstarEntry) :
  (forall e, tile (f e) = tile e) ->
  tile (entryAt (alter f q es) p) = tile (entryAt es p).
Proof.
  intros Hf. unfold entryAt. rewrite list_lookup_alter.
  destruct (decide (q = p)) as [->|]; [|done].
  destruct (es !! p); simpl; [apply Hf|done].
Qed.

Lemma g_entryAt_alter (f : AstarEntry -> AstarEntry) (q p : nat)
      (es : list AstarEntry) :
  (forall e, g (f e) = g e) ->
  g (entryAt (alter f q es) p) = g (entryAt es p).
Proof.
  intros Hf. unfold entryAt. rewrite list_lookup_alter.
  destruct (decide (q = p)) as [->|]; [|done].
  destruct (es !! p); simpl; [apply Hf|done].
Qed.

Lemma entryAt_app_l (es l : list AstarEntry) (p : nat) :
  (p < length es)%nat -> entryAt (es ++ l) p = entryAt es p.
Proof. intros Hp. unfold entryAt. by rewrite lookup_app_l. Qed.

Lemma entryAt_app_new (es : list AstarEntry) (e : AstarEntry) :
  entryAt (es ++ [e]) (length es) = e.
Proof. unfold entryAt. by rewrite list_lookup_middle. Qed.

Lemma findTile_None (es : list AstarEntry) (l : list nat) (t : Tile) :
  findTile es l t = None ->
  Some t ∉ (fun p => tile (entryAt es p)) <$> l.
Proof.
  intros Hf Hin. apply list_elem_of_fmap in Hin as (p & Hp & Hin).
  apply list_elem_of_In in Hin.
  pose proof (find_none _ _ Hf p Hin) as Hb. simpl in Hb.
  apply bool_decide_eq_false in Hb. by apply Hb.
Qed.

Section PathTermination.

Variable isDiggable : Tile -> Z -> bool.
Variable gm : GameMap.
Variable start : Tile.

Lemma visitNeighbor_bound passability color x1 y1 cur tcur st n :
  searchInv gm start st ->
  searchBound gm st ->
  cur ∈ closedList st ->
  tile (entryAt (entries st) cur) = Some tcur ->
  n ∈ getAllNeighbors gm tcur ->
  searchBound gm (visitNeighbor isDiggable passability color x1 y1 cur st n).
Proof.
  intros Hinv [Hgo Hgc Hnd Hgrid] Hcur Htcur Hn.
  pose proof (inv_bound _ _ _ Hinv) as Hb.
  assert (Hcurlt : (cur < length (entries st))%nat).
  { apply Hb. apply elem_of_app. by right. }
  unfold visitNeighbor. destruct n as [t|]; simpl; [|by constructor].
  destruct (negb _); simpl; [by constructor|].
  destruct (findTile (entries st) (closedList st) t) as [pc|] eqn:Hfc; simpl;
    [by constructor|].
  destruct (findTile (entries st) (openList st) t) as [po|] eqn:Hfo; simpl.
  - (* the neighbour is on the open list *)
    destruct (g (entryAt (entries st) cur) + 1 <? g (entryAt (entries st) po)) eqn:Hlt;
      simpl; [|by constructor].
    apply find_some in Hfo as [Hpo _]. apply list_elem_of_In in Hpo.
    assert (Hpo_nclosed : po ∉ closedList st).
    { intros Hc. pose proof (inv_nodup _ _ _ Hinv) as Hnd'.
      apply NoDup_app in Hnd' as (_ & Hdis & _). by apply (Hdis po). }
    assert (Hpolt : (po < length (entries st))%nat).
    { apply Hb. apply elem_of_app. by left. }
    assert (Htile : forall p,
              tile (entryAt (alter (fun e => setParent
                       (setG e (g (entryAt (entries st) cur) + 1)) (Some cur))
                       po (entries st)) p)
              = tile (entryAt (entries st) p)).
    { intros p. by apply tile_entryAt_alter. }
    assert (Hg : forall p, p <> po ->
              g (entryAt (alter (fun e => setParent
                       (setG e (g (entryAt (entries st) cur) + 1)) (Some cur))
                       po (entries st)) p)
              = g (entryAt (entries st) p)).
    { intros p Hne. unfold entryAt. by rewrite list_lookup_alter_ne. }
    assert (Hgpo : g (entryAt (alter (fun e => setParent
                       (setG e (g (entryAt (entries st) cur) + 1)) (Some cur))
                       po (entries st)) po)
                   = g (entryAt (entries st) cur) + 1).
    { unfold entryAt at 1. rewrite list_lookup_alter_eq.
      destruct (lookup_lt_is_Some_2 _ _ Hpolt) as [e ->]. done. }
    constructor; simpl.
    + intros p Hp. destruct (decide (p = po)) as [->|Hne].
      * rewrite Hgpo. specialize (Hgc cur Hcur). lia.
      * rewrite Hg by done. by apply Hgo.
    + intros p Hp. rewrite Hg; [by apply Hgc|]. by intros ->.
    + erewrite list_fmap_ext; [exact Hnd|]. intros i p _. apply Htile.
    + intros p Hp. rewrite Htile. by apply Hgrid.
  - (* the neighbour is new *)
    set (es1 := alter (fun e => setHeuristic e x1 y1 (tile_x t) (tile_y t))
                      cur (entries st)).
    set (nb := setParent (setG (setTile (neighbor st) (Some t))
                               (g (entryAt (entries st) cur) + 1)) (Some cur)).
    assert (Hlen : length es1 = length (entries st)) by apply length_alter.
    assert (Hold : forall p, (p < length (entries st))%nat ->
              tile (entryAt (es1 ++ [nb]) p) = tile (entryAt (entries st) p)
              /\ g (entryAt (es1 ++ [nb]) p) = g (entryAt (entries st) p)).
    { intros p Hp. rewrite entryAt_app_l by lia. unfold es1.
      rewrite tile_entryAt_alter, g_entryAt_alter; done. }
    assert (Hnew : entryAt (es1 ++ [nb]) (length es1) = nb) by apply entryAt_app_new.
    constructor; simpl; fold es1 nb.
    + intros p Hp. apply elem_of_app in Hp as [Hp|Hp].
      * rewrite (proj2 (Hold p (Hb p ltac:(apply elem_of_app; by left)))).
        by apply Hgo.
      * apply list_elem_of_singleton in Hp as ->. rewrite Hnew. simpl.
        specialize (Hgc cur Hcur). lia.
    + intros p Hp.
      rewrite (proj2 (Hold p (Hb p ltac:(apply elem_of_app; by right)))).
      by apply Hgc.
    + rewrite <- app_assoc, !fmap_app. simpl. rewrite Hnew. simpl.
      rewrite fmap_app in Hnd.
      assert (Ho : (fun p => tile (entryAt (es1 ++ [nb]) p)) <$> openList st
                   = (fun p => tile (entryAt (entries st) p)) <$> openList st).
      { apply list_fmap_ext. intros i p Hp. apply Hold, Hb, elem_of_app. left.
        by eapply list_elem_of_lookup_2. }
      assert (Hc : (fun p => tile (entryAt (es1 ++ [nb]) p)) <$> closedList st
                   = (fun p => tile (entryAt (entries st) p)) <$> closedList st).
      { apply list_fmap_ext. intros i p Hp. apply Hold, Hb, elem_of_app. right.
        by eapply list_elem_of_lookup_2. }
      rewrite Ho, Hc.
      apply NoDup_app in Hnd as (Hn1 & Hn2 & Hn3).
      apply NoDup_app. split; [done|]. split.
      * intros x Hx1 Hx2. apply elem_of_cons in Hx2 as [->|Hx2].
        -- by apply (findTile_None _ _ _ Hfo).
        -- by apply (Hn2 x).
      * apply NoDup_cons. split; [|done]. by apply findTile_None.
    + intros p Hp. rewrite <- app_assoc in Hp. apply elem_of_app in Hp as [Hp|Hp].
      * rewrite (proj1 (Hold p (Hb p ltac:(apply elem_of_app; by left)))).
        apply Hgrid, elem_of_app. by left.
      * apply elem_of_cons in Hp as [->|Hp].
        -- rewrite Hnew. simpl. unfold getAllNeighbors in Hn.
           apply list_elem_of_In, in_map_iff in Hn as (c & Hc & _).
           exists t, c. split; [done|]. by destruct c.
        -- rewrite (proj1 (Hold p (Hb p ltac:(apply elem_of_app; by right)))).
           apply Hgrid, elem_of_app. by right.
Qed.

Lemma visitNeighbors_fold_bound passability color x1 y1 cur tcur l st :
  searchInv gm start st ->
  searchBound gm st ->
  0%nat ∈ closedList st ->
  cur ∈ closedList st ->
  tile (entryAt (entries st) cur) = Some tcur ->
  (forall n, n ∈ l -> n ∈ getAllNeighbors gm tcur) ->
  searchBound gm (fold_left (visitNeighbor isDiggable passability color x1 y1 cur) l st).
Proof.
  revert st. induction l as [|n l IH]; intros st Hinv Hbd H0 Hcur Htcur Hl; simpl; [done|].
  assert (Hn : n ∈ getAllNeighbors gm tcur) by (apply Hl; apply elem_of_cons; by left).
  destruct (visitNeighbor_inv isDiggable gm start passability color x1 y1 cur tcur st n)
    as (Hinv' & Hcl & Ht'); try done.
  simpl in *. apply IH; try done.
  - by apply visitNeighbor_bound with (tcur := tcur).
  - by rewrite Hcl.
  - by rewrite Hcl.
  - intros n' Hn'. apply Hl. apply elem_of_cons. by right.
Qed.

Lemma searchStep_bound passability color x1 y1 destination st r st' :
  searchInv gm start st ->
  searchBound gm st ->
  searchStep isDiggable gm passability color x1 y1 destination st = (r, st') ->
  searchBound gm st'
  /\ (r = None -> length (closedList st') = S (length (closedList st)))
  /\ (r = Some true ->
      exists p, p ∈ closedList st'
                /\ tile (entryAt (entries st') p) = Some destination).
Proof.
  intros Hinv Hbd. unfold searchStep.
  destruct (openList st) as [|p0 ol] eqn:Hol.
  { intros [= <- <-]. done. }
  rewrite <- Hol.
  set (pos := smallestAstarPos (entries st) (openList st)).
  assert (Hpos : (pos < length (openList st))%nat).
  { apply smallestAstarPos_lt. by rewrite Hol. }
  destruct (lookup_lt_is_Some_2 _ _ Hpos) as [cur Hcur]. rewrite Hcur. simpl.
  destruct (moveToClosed_inv gm start st pos cur Hinv Hcur)
    as (Hinv1 & H01 & Hcur1 & Hperm).
  set (st1 := mkAstarSearch (entries st) (delete pos (openList st))
                            (closedList st ++ [cur]) (neighbor st)) in *.
  assert (Hcur_open : cur ∈ openList st) by (by eapply list_elem_of_lookup_2).
  assert (Hdel : forall p, p ∈ delete pos (openList st) -> p ∈ openList st).
  { intros p Hp. rewrite (delete_Permutation _ _ _ Hcur). apply elem_of_cons. by right. }
  assert (Hbd1 : searchBound gm st1).
  { destruct Hbd as [Hgo Hgc Hnd Hgrid]. constructor; simpl.
    - intros p Hp. rewrite length_app. simpl. specialize (Hgo p (Hdel p Hp)). lia.
    - intros p Hp. rewrite length_app. simpl. apply elem_of_app in Hp as [Hp|Hp].
      + specialize (Hgc p Hp). lia.
      + apply list_elem_of_singleton in Hp as ->. specialize (Hgo cur Hcur_open). lia.
    - simpl in Hperm. by rewrite <- Hperm.
    - intros p Hp. apply Hgrid. by rewrite Hperm. }
  case_bool_decide as Hdest.
  - intros [= <- <-]. split; [done|]. split; [done|]. intros _. by exists cur.
  - intros [= <- <-]. split; [|split; [|done]].
    + unfold visitNeighbors.
      destruct (tile (entryAt (entries st1) cur)) as [tcur|] eqn:Htcur; [|done].
      by apply visitNeighbors_fold_bound with (tcur := tcur).
    + intros _.
      destruct (visitNeighbors_inv isDiggable gm start passability color x1 y1 cur st1)
        as [_ Hc]; try done.
      simpl in Hc. rewrite Hc. simpl. rewrite length_app. simpl. lia.
Qed.

Lemma searchBound_length st :
  searchBound gm st -> (length (closedList st) <= size (tiles gm))%nat.
Proof.
  intros [_ _ Hnd Hgrid].
  assert (Hsub : ((fun p => tile (entryAt (entries st) p))
                    <$> (openList st ++ closedList st))
                 ⊆+ ((fun kt => Some (snd kt)) <$> map_to_list (tiles gm))).
  { apply NoDup_submseteq; [done|]. intros x Hx.
    apply list_elem_of_fmap in Hx as (p & -> & Hp).
    destruct (Hgrid p Hp) as (t & c & -> & Hc).
    apply list_elem_of_fmap. exists (c, t). split; [done|]. by apply elem_of_map_to_list. }
  apply submseteq_length in Hsub.
  rewrite !length_fmap, length_app, length_map_to_list in Hsub. lia.
Qed.

Lemma searchLoop_total fuel passability color x1 y1 destination st :
  searchInv gm start st ->
  searchBound gm st ->
  (size (tiles gm) < fuel + length (closedList st))%nat ->
  exists b st',
    searchLoop isDiggable fuel gm passability color x1 y1 destination st = Some (b, st')
    /\ searchInv gm start st' /\ searchBound gm st'
    /\ (b = true ->
        exists p, p ∈ closedList st'
                  /\ tile (entryAt (entries st') p) = Some destination).
Proof.
  revert st. induction fuel as [|fuel IH]; intros st Hinv Hbd Hfuel.
  { pose proof (searchBound_length st Hbd). lia. }
  cbn [searchLoop].
  destruct (searchStep isDiggable gm passability color x1 y1 destination st)
    as [r st1] eqn:Hstep.
  destruct (searchStep_inv isDiggable gm start _ _ _ _ _ _ _ _ Hinv Hstep) as [Hinv1 _].
  destruct (searchStep_bound _ _ _ _ _ _ _ _ Hinv Hbd Hstep) as (Hbd1 & Hlen & Hfound).
  destruct r as [b|].
  - exists b, st1. split; [done|]. split; [done|]. split; [done|].
    intros ->. by apply Hfound.
  - apply IH; try done. rewrite Hlen by done. lia.
Qed.

Lemma followParents_total fuel st cur acc :
  searchInv gm start st ->
  searchBound gm st ->
  cur ∈ closedList st ->
  g (entryAt (entries st) cur) < Z.of_nat fuel ->
  is_Some (followParents fuel (entries st) cur acc).
Proof.
  intros Hinv Hbd. revert cur acc.
  induction fuel as [|fuel IH]; intros cur acc Hcur Hg.
  { pose proof (sb_g_closed _ _ Hbd cur Hcur). lia. }
  cbn [followParents].
  assert (Hlt : (cur < length (entries st))%nat).
  { apply (inv_bound _ _ _ Hinv). apply elem_of_app. by right. }
  destruct (lookup_lt_is_Some_2 _ _ Hlt) as [e He].
  rewrite (entryAt_lookup _ _ _ He) in *.
  destruct (decide (cur = 0%nat)) as [->|Hne].
  - destruct (inv_root _ _ _ Hinv) as (e0 & He0 & Ht0 & Hp0 & _).
    rewrite He in He0. injection He0 as <-. rewrite Ht0, Hp0. done.
  - destruct (inv_child _ _ _ Hinv cur e He Hne)
      as (q & eq & t & tq & Hp & Hq & Heq & Ht & Htq & _ & Hgq).
    rewrite Ht, Hp. apply IH; [done|].
    rewrite (entryAt_lookup _ _ _ Heq). lia.
Qed.

(** *** The heuristic of the open nodes *)

Lemma visitNeighbor_heuristics passability color x1 y1 cur st n :
  searchInv gm start st ->
  cur ∈ closedList st ->
  heuristicsUnset st ->
  heuristicsUnset (visitNeighbor isDiggable passability color x1 y1 cur st n).
Proof.
  intros Hinv Hcur [Hnb Hopen].
  assert (Hne : forall p, p ∈ openList st -> p <> cur).
  { intros p Hp ->. pose proof (inv_nodup _ _ _ Hinv) as Hnd.
    apply NoDup_app in Hnd as (_ & Hdis & _). by apply (Hdis cur). }
  assert (Hlt : forall p, p ∈ openList st -> (p < length (entries st))%nat).
  { intros p Hp. apply (inv_bound _ _ _ Hinv), elem_of_app. by left. }
  unfold visitNeighbor. destruct n as [t|]; simpl; [|done].
  destruct (negb _); simpl; [done|].
  destruct (findTile (entries st) (closedList st) t); simpl; [done|].
  destruct (findTile (entries st) (openList st) t) as [po|]; simpl.
  - destruct (_ <? _); simpl; [|done]. split; [done|].
    intros p Hp Hp0. cbn [entries openList] in *. rewrite <- (Hopen p Hp Hp0).
    unfold entryAt. rewrite list_lookup_alter.
    destruct (decide (po = p)) as [->|]; [|done]. by destruct (entries st !! p).
  - split; [done|]. intros p Hp Hp0. cbn [entries openList] in *.
    apply elem_of_app in Hp as [Hp|Hp].
    + rewrite entryAt_app_l by (rewrite length_alter; by apply Hlt).
      rewrite <- (Hopen p Hp Hp0). unfold entryAt.
      rewrite list_lookup_alter_ne; [done|]. intros <-. by apply (Hne cur).
    + apply list_elem_of_singleton in Hp as ->. by rewrite entryAt_app_new.
Qed.

Lemma searchStep_heuristics passability color x1 y1 destination st r st' :
  searchInv gm start st ->
  heuristicsUnset st ->
  searchStep isDiggable gm passability color x1 y1 destination st = (r, st') ->
  heuristicsUnset st'.
Proof.
  intros Hinv Hh. unfold searchStep.
  destruct (openList st) as [|p0 ol] eqn:Hol.
  { by intros [= <- <-]. }
  rewrite <- Hol.
  set (pos := smallestAstarPos (entries st) (openList st)).
  assert (Hpos : (pos < length (openList st))%nat).
  { apply smallestAstarPos_lt. by rewrite Hol. }
  destruct (lookup_lt_is_Some_2 _ _ Hpos) as [cur Hcur]. rewrite Hcur. simpl.
  destruct (moveToClosed_inv gm start st pos cur Hinv Hcur)
    as (Hinv1 & H01 & Hcur1 & Hperm).
  set (st1 := mkAstarSearch (entries st) (delete pos (openList st))
                            (closedList st ++ [cur]) (neighbor st)) in *.
  assert (Hh1 : heuristicsUnset st1).
  { destruct Hh as [Hnb Hopen]. split; [done|]. intros p Hp Hp0. apply Hopen; [|done].
    simpl in Hp. rewrite (delete_Permutation _ _ _ Hcur). apply elem_of_cons. by right. }
  destruct (bool_decide _); intros [= <- <-]; [done|].
  unfold visitNeighbors.
  destruct (tile (entryAt (entries st1) cur)) as [tcur|] eqn:Htcur; [|done].
  assert (Hfold : forall l st2,
            searchInv gm start st2 -> 0%nat ∈ closedList st2 -> cur ∈ closedList st2 ->
            tile (entryAt (entries st2) cur) = Some tcur ->
            (forall n, n ∈ l -> n ∈ getAllNeighbors gm tcur) ->
            heuristicsUnset st2 ->
            heuristicsUnset
              (fold_left (visitNeighbor isDiggable passability color x1 y1 cur) l st2)).
  { induction l as [|n l IH]; intros st2 Hi2 H02 Hc2 Ht2 Hl Hh2; simpl; [done|].
    destruct (visitNeighbor_inv isDiggable gm start passability color x1 y1 cur tcur st2 n)
      as (Hi3 & Hcl & Ht3); try done.
    { apply Hl, elem_of_cons. by left. }
    simpl in *. apply IH; try done; try (by rewrite Hcl).
    - intros n' Hn'. apply Hl, elem_of_cons. by right.
    - by apply visitNeighbor_heuristics. }
  by apply Hfold.
Qed.

Lemma initialSearch_heuristics x1 y1 x2 y2 :
  heuristicsUnset (initialSearch start x1 y1 x2 y2).
Proof.
  split; [done|]. intros p Hp Hp0. simpl in Hp.
  by apply list_elem_of_singleton in Hp.
Qed.

(** Whatever the call, every node that is on the open list when the search
    loop ends, the start node apart, has the heuristic 0. *)
Lemma searchLoop_heuristics fuel passability color x1 y1 destination st b st' :
  searchInv gm start st ->
  heuristicsUnset st ->
  searchLoop isDiggable fuel gm passability color x1 y1 destination st = Some (b, st') ->
  heuristicsUnset st'.
Proof.
  revert st. induction fuel as [|fuel IH]; intros st Hinv Hh; simpl; [done|].
  destruct (searchStep isDiggable gm passability color x1 y1 destination st)
    as [r st1] eqn:Hstep.
  pose proof (searchStep_heuristics _ _ _ _ _ _ _ _ Hinv Hh Hstep) as Hh1.
  destruct (searchStep_inv isDiggable gm start _ _ _ _ _ _ _ _ Hinv Hstep) as [Hinv1 _].
  destruct r as [pathFound|].
  - by intros [= <- <-].
  - by apply IH.
Qed.

End PathTermination.

(** X1. With fuel above the number of tiles of the grid, [path] returns. *)
Lemma path_returns (isDiggable : Tile -> Z -> bool)
      (fuel : nat) (gm : GameMap) (x1 y1 x2 y2 : Z)
      (passability : TileClearType) (color : Z) :
  (size (tiles gm) < fuel)%nat ->
  is_Some (path isDiggable fuel gm x1 y1 x2 y2 passability color).
Proof.
  intros Hfuel. unfold path.
  set (gm1 := setNumCallsTo_path gm ((numCallsTo_path gm + 1) mod 2 ^ 32)).
  destruct (getTile gm1 x1 y1) as [start|] eqn:H1; [|done].
  destruct (_ && _); [done|].
  destruct (getTile gm1 x2 y2) as [destination|] eqn:H2; [|done].
  assert (Hbd0 : searchBound gm1 (initialSearch start x1 y1 x2 y2)).
  { constructor; simpl.
    - intros p Hp. apply list_elem_of_singleton in Hp as ->. done.
    - intros p Hp. by apply elem_of_nil in Hp.
    - apply NoDup_singleton.
    - intros p Hp. apply list_elem_of_singleton in Hp as ->.
      exists start, (x1, y1). done. }
  destruct (searchLoop_total isDiggable gm1 start fuel passability color x1 y1 destination
              (initialSearch start x1 y1 x2 y2))
    as (b & st & -> & Hinv & Hbd & Hfound).
  { apply initialSearch_inv. }
  { done. }
  { simpl. lia. }
  destruct b; [|done].
  destruct (Hfound eq_refl) as (p & Hp & Htp).
  destruct (findTile (entries st) (closedList st) destination) as [d|] eqn:Hd.
  - apply find_some in Hd as [Hdin _]. apply list_elem_of_In in Hdin.
    destruct (followParents_total gm1 start fuel st d [] Hinv Hbd Hdin) as [l ->]; [|done].
    pose proof (sb_g_closed _ _ Hbd d Hdin).
    pose proof (searchBound_length gm1 st Hbd). simpl in *. lia.
  - exfalso. apply (findTile_None _ _ _ Hd).
    apply list_elem_of_fmap. by exists p.
Qed.

(** ** [GameMap::cutCorners] *)

Lemma pathIsClearLoop_exit (passability : TileClearType) (l : list Tile) :
  pathIsClearLoop passability l = None -> passability = diggableTile.
Proof.
  induction l as [|t l IH]; simpl; [done|].
  destruct passability; try done.
  - by destruct (bool_decide _).
  - by destruct (_ || _).
Qed.

Lemma pathIsClear_exit (l : list Tile) (passability : TileClearType) :
  pathIsClear l passability = None -> passability = diggableTile.
Proof. destruct l; [done|]. apply pathIsClearLoop_exit. Qed.

Lemma advanceLookahead_exit gm passability t1 l :
  advanceLookahead gm passability t1 l = None -> passability = diggableTile.
Proof.
  induction l as [|t2 l IH]; simpl; [done|].
  destruct (pathIsClear _ _) as [[|]|] eqn:Hclear.
  - destruct (advanceLookahead gm passability t1 l); [done|]. intros _. by apply IH.
  - done.
  - intros _. by apply pathIsClear_exit in Hclear.
Qed.

Lemma advanceLookahead_le gm passability t1 l k :
  advanceLookahead gm passability t1 l = Some k -> (k <= length l)%nat.
Proof.
  revert k. induction l as [|t2 l IH]; intros k; simpl.
  - intros [= <-]. lia.
  - destruct (pathIsClear _ _) as [[|]|]; [|intros [= <-]; lia|done].
    destruct (advanceLookahead gm passability t1 l) as [k'|]; [|done].
    intros [= <-]. specialize (IH k' eq_refl). lia.
Qed.

Lemma last_drop_lt (l : list Tile) (n : nat) :
  (n < length l)%nat -> last (drop n l) = last l.
Proof.
  intros Hn. rewrite !last_lookup, lookup_drop, length_drop. f_equal. lia.
Qed.

Lemma eraseRange_spec (l : list Tile) (first last_ : nat) :
  (1 <= first)%nat -> (first <= last_)%nat -> (last_ < length l)%nat ->
  length (eraseRange l first last_) = (length l - (last_ - first))%nat
  /\ head (eraseRange l first last_) = head l
  /\ last (eraseRange l first last_) = last l.
Proof.
  intros H1 H2 H3. unfold eraseRange. split; [|split].
  - rewrite length_app, length_take, length_drop. lia.
  - rewrite !head_lookup, lookup_app_l by (rewrite length_take; lia).
    apply lookup_take_lt. lia.
  - rewrite last_app, last_drop_lt by done.
    destruct (last l) eqn:Hl; [done|]. apply last_None in Hl. subst. simpl in *. lia.
Qed.

Lemma cutCornersLoop_spec fuel gm passability path t1 :
  (t1 <= length path)%nat ->
  (length path < fuel + t1)%nat ->
  match cutCornersLoop fuel gm passability path t1 with
  | Returned r =>
      (length r <= length path)%nat /\ head r = head path /\ last r = last path
  | Exited => passability = diggableTile
  | OutOfFuel => False
  end.
Proof.
  revert path t1.
  induction fuel as [|fuel IH]; intros path t1 Hle Hfuel; cbn [cutCornersLoop].
  { lia. }
  destruct (path !! t1) as [tile1|] eqn:Ht1; [|done].
  apply lookup_lt_Some in Ht1.
  destruct (advanceLookahead gm passability tile1 (drop (S t1) path)) as [k|] eqn:Hk.
  2:{ by apply advanceLookahead_exit in Hk. }
  apply advanceLookahead_le in Hk. rewrite length_drop in Hk.
  destruct (bool_decide (S t1 <> S t1 + k)%nat) eqn:H32.
  - destruct (bool_decide (S t1 <> S t1 + k - 1)%nat) eqn:H34.
    + apply bool_decide_eq_true in H32, H34.
      destruct (eraseRange_spec path (S t1) (S t1 + k - 1)) as (Hlen & Hhd & Hlast);
        [lia..|].
      specialize (IH (eraseRange path (S t1) (S t1 + k - 1))
                     (S t1 + k - (S t1 + k - 1 - S t1))%nat).
      destruct (cutCornersLoop fuel gm passability _ _); [|apply IH; lia..].
      destruct IH as (? & ? & ?); [lia..|].
      rewrite <- Hhd, <- Hlast. split; [lia|done].
    + apply IH; lia.
  - apply IH; lia.
Qed.

(** C6. [cutCorners] comes back for every path and every passability class
    but [diggableTile], for which [pathIsClear] ends the process when the path
    has more than three tiles.  When it comes back the path has no more tiles
    than before and the same first and last tile; a path of at most three
    tiles is returned as it is, for every class. *)
Theorem cutCorners_never_longer (gm : GameMap) (path : list Tile)
        (passability : TileClearType) :
  match cutCorners gm path passability with
  | Returned r =>
      (length r <= length path)%nat
      /\ head r = head path
      /\ last r = last path
      /\ ((length path <= 3)%nat -> r = path)
  | Exited => passability = diggableTile /\ (3 < length path)%nat
  | OutOfFuel => False
  end.
Proof.
  unfold cutCorners. destruct (bool_decide (length path <= 3)%nat) eqn:Hlen.
  - done.
  - apply bool_decide_eq_false in Hlen.
    pose proof (cutCornersLoop_spec (S (length path)) gm passability path 0) as H.
    destruct (cutCornersLoop _ _ _ _ _).
    + destruct H as (? & ? & ?); [lia..|]. repeat split; done.
    + split; [apply H|]; lia.
    + apply H; lia.
Qed.

(** ** [GameMap::lineOfSight] *)

Lemma tileRun_cons (f : Z -> Tile) (z s : Z) (n : nat) :
  tileRun f z s (S n) = f z :: tileRun f (z + s) s n.
Proof.
  unfold tileRun. simpl. f_equal; [f_equal; lia|].
  rewrite <- seq_shift, map_map. apply map_ext. intros i. f_equal. lia.
Qed.

Lemma tileRun_snoc (f : Z -> Tile) (z s : Z) (n : nat) :
  tileRun f z s (S n) = tileRun f z s n ++ [f (z + Z.of_nat n * s)].
Proof. unfold tileRun. by rewrite seq_S, map_app. Qed.

Lemma tileRun_rev (f : Z -> Tile) (z s : Z) (n : nat) :
  rev (tileRun f z s (S n)) = tileRun f (z + Z.of_nat n * s) (- s) (S n).
Proof.
  revert z. induction n as [|n IH]; intros z.
  - unfold tileRun. simpl. do 2 f_equal. lia.
  - rewrite tileRun_cons.
    change (rev (f z :: tileRun f (z + s) s (S n)))
      with (rev (tileRun f (z + s) s (S n)) ++ [f z]).
    rewrite IH.
    rewrite (tileRun_snoc f (z + Z.of_nat (S n) * s) (- s) (S n)).
    f_equal; [f_equal; lia|]. do 2 f_equal. lia.
Qed.

(** A run along which the error term never becomes positive: no second tile
    is pushed and [y] stays as it is. *)
Lemma lineOfSightLoop_flat (gm : GameMap) (steep : bool) (xstep ystep TwoDyTwoDx : Z)
      (n : nat) (x y E : Z) :
  E <= 0 ->
  (forall i, (i < n)%nat ->
     is_Some (getTile gm (if steep then y else x + Z.of_nat i * xstep)
                         (if steep then x + Z.of_nat i * xstep else y))) ->
  lineOfSightLoop gm steep xstep ystep 0 TwoDyTwoDx n x y E
  = Some (tileRun (fun z => if steep then tileAt gm y z else tileAt gm z y) x xstep n).
Proof.
  revert x. induction n as [|n IH]; intros x HE Hopen; [done|].
  rewrite tileRun_cons. cbn [lineOfSightLoop].
  pose proof (Hopen 0%nat ltac:(lia)) as H0.
  replace (x + Z.of_nat 0 * xstep) with x in H0 by lia.
  assert (Hget : getTile gm (if steep then y else x) (if steep then x else y)
                 = Some (if steep then tileAt gm y x else tileAt gm x y)).
  { unfold tileAt. destruct steep; destruct H0 as [t ->]; done. }
  clear H0.
  rewrite Hget.
  replace (0 <? E) with false by (symmetry; apply Z.ltb_ge; lia).
  rewrite Z.add_0_r, IH; [done|done|].
  intros i Hi. specialize (Hopen (S i) ltac:(lia)).
  replace (x + xstep + Z.of_nat i * xstep) with (x + Z.of_nat (S i) * xstep) by lia.
  done.
Qed.

(** Along a row, [lineOfSight] gives the tiles from the first end up to, and
    without, the second. *)
Lemma lineOfSight_row gm x0 x1 y :
  x0 <> x1 ->
  openBetween gm x0 y x1 y ->
  lineOfSight gm x0 y x1 y
  = tileRun (fun z => tileAt gm z y) x0 (Z.sgn (x1 - x0)) (Z.to_nat (Z.abs (x1 - x0))).
Proof.
  intros Hne Hopen. unfold lineOfSight.
  replace (y - y) with 0 by lia.
  replace (Z.abs 0 >=? Z.abs (x1 - x0)) with false
    by (symmetry; rewrite Z.geb_leb; apply Z.leb_gt; simpl; lia).
  cbv beta iota zeta. replace (y - y) with 0 by lia.
  replace (0 <? 0) with false by done.
  replace (2 * 0) with 0 by lia.
  rewrite lineOfSightLoop_flat.
  - cbn [default].
    destruct (Z.ltb_spec (x1 - x0) 0).
    + replace (Z.sgn (x1 - x0)) with (-1) by lia.
      by replace (Z.abs (x1 - x0)) with (- (x1 - x0)) by lia.
    + replace (Z.sgn (x1 - x0)) with 1 by lia.
      by replace (Z.abs (x1 - x0)) with (x1 - x0) by lia.
  - destruct (Z.ltb_spec (x1 - x0) 0); lia.
  - intros i Hi. apply Hopen; destruct (Z.ltb_spec (x1 - x0) 0); lia.
Qed.

(** Along a column, and from a tile to itself, likewise. *)
Lemma lineOfSight_column gm x y0 y1 :
  openBetween gm x y0 x y1 ->
  lineOfSight gm x y0 x y1
  = tileRun (fun z => tileAt gm x z) y0 (Z.sgn (y1 - y0)) (Z.to_nat (Z.abs (y1 - y0))).
Proof.
  intros Hopen. unfold lineOfSight.
  replace (x - x) with 0 by lia.
  replace (Z.abs (y1 - y0) >=? Z.abs 0) with true
    by (symmetry; rewrite Z.geb_leb; apply Z.leb_le; simpl; lia).
  cbv beta iota zeta. replace (x - x) with 0 by lia.
  replace (0 <? 0) with false by done.
  replace (2 * 0) with 0 by lia.
  rewrite lineOfSightLoop_flat.
  - cbn [default].
    destruct (Z.ltb_spec (y1 - y0) 0).
    + replace (Z.sgn (y1 - y0)) with (-1) by lia.
      by replace (Z.abs (y1 - y0)) with (- (y1 - y0)) by lia.
    + destruct (decide (y1 = y0)) as [->|Hne].
      * by replace (y0 - y0) with 0 by lia.
      * replace (Z.sgn (y1 - y0)) with 1 by lia.
        by replace (Z.abs (y1 - y0)) with (y1 - y0) by lia.
  - destruct (Z.ltb_spec (y1 - y0) 0); lia.
  - intros i Hi. apply Hopen; destruct (Z.ltb_spec (y1 - y0) 0); lia.
Qed.

Lemma tileRun_reverse (f : Z -> Tile) (z0 z1 s : Z) (n : nat) :
  z1 = z0 + Z.of_nat n * s ->
  tileRun f z0 s n ++ [f z1] = rev (tileRun f z1 (- s) n ++ [f z0]).
Proof.
  intros ->.
  rewrite <- tileRun_snoc.
  replace (f z0) with (f (z0 + Z.of_nat n * s + Z.of_nat n * - s)) by (f_equal; lia).
  rewrite <- tileRun_snoc, tileRun_rev, Z.opp_involutive.
  f_equal. lia.
Qed.

Lemma tileRun_reverse_ends (f : Z -> Tile) (z0 z1 : Z) :
  tileRun f z0 (Z.sgn (z1 - z0)) (Z.to_nat (Z.abs (z1 - z0))) ++ [f z1]
  = rev (tileRun f z1 (Z.sgn (z0 - z1)) (Z.to_nat (Z.abs (z0 - z1))) ++ [f z0]).
Proof.
  replace (Z.to_nat (Z.abs (z0 - z1))) with (Z.to_nat (Z.abs (z1 - z0))) by lia.
  replace (Z.sgn (z0 - z1)) with (- Z.sgn (z1 - z0)) by lia.
  apply tileRun_reverse. lia.
Qed.

(** On a row or a column with every tile between the ends, the trace is
    the run of tiles from the first end up to, and without, the second. *)
Lemma lineOfSight_axis_run (gm : GameMap) (x0 y0 x1 y1 : Z) :
  x0 = x1 \/ y0 = y1 ->
  openBetween gm x0 y0 x1 y1 ->
  map Some (lineOfSight gm x0 y0 x1 y1) = runUpTo gm x0 y0 x1 y1.
Proof.
  intros Haxis Hopen. unfold runUpTo.
  assert (Hat : forall x y, Z.min x0 x1 <= x <= Z.max x0 x1 ->
                            Z.min y0 y1 <= y <= Z.max y0 y1 ->
                            Some (tileAt gm x y) = getTile gm x y).
  { intros x y Hx Hy. unfold tileAt.
    by destruct (Hopen x y Hx Hy) as [t ->]. }
  destruct (decide (x0 = x1)) as [<-|Hne].
  - rewrite lineOfSight_column by done. unfold tileRun. rewrite map_map.
    replace (x0 - x0) with 0 by lia.
    replace (Z.max (Z.abs 0) (Z.abs (y1 - y0))) with (Z.abs (y1 - y0)) by lia.
    apply map_ext_in. intros i Hi. apply in_seq in Hi.
    replace (x0 + Z.of_nat i * Z.sgn 0) with x0 by (simpl; lia).
    apply Hat; [lia|]. destruct (Z.ltb_spec (y1 - y0) 0); lia.
  - destruct Haxis as [?|<-]; [done|].
    rewrite lineOfSight_row by done. unfold tileRun. rewrite map_map.
    replace (y0 - y0) with 0 by lia.
    replace (Z.max (Z.abs (x1 - x0)) (Z.abs 0)) with (Z.abs (x1 - x0)) by lia.
    apply map_ext_in. intros i Hi. apply in_seq in Hi.
    replace (y0 + Z.of_nat i * Z.sgn 0) with y0 by (simpl; lia).
    apply Hat; [|lia]. destruct (Z.ltb_spec (x1 - x0) 0); lia.
Qed.

Lemma lineOfSight_axis_ends (gm : GameMap) (x0 y0 x1 y1 : Z) (a b : Tile) :
  x0 = x1 \/ y0 = y1 ->
  openBetween gm x0 y0 x1 y1 ->
  getTile gm x0 y0 = Some a ->
  getTile gm x1 y1 = Some b ->
  lineOfSight gm x0 y0 x1 y1 ++ [b]
  = rev (lineOfSight gm x1 y1 x0 y0 ++ [a]).
Proof.
  intros Haxis Hopen Ha Hb.
  assert (Hopen' : openBetween gm x1 y1 x0 y0).
  { intros x y Hx Hy. apply Hopen; lia. }
  assert (Hta : a = tileAt gm x0 y0) by (unfold tileAt; by rewrite Ha).
  assert (Htb : b = tileAt gm x1 y1) by (unfold tileAt; by rewrite Hb).
  destruct (decide (x0 = x1)) as [<-|Hne].
  - rewrite !lineOfSight_column by done. rewrite Hta, Htb.
    apply (tileRun_reverse_ends (fun z => tileAt gm x0 z)).
  - destruct Haxis as [?|<-]; [done|].
    rewrite !lineOfSight_row by done. rewrite Hta, Htb.
    apply (tileRun_reverse_ends (fun z => tileAt gm z y0)).
Qed.

(** C4, as the code has it.  For two ends [a] and [b] on one row or on one
    column of a grid with every tile between them, [lineOfSight] from [a] to
    [b] is the run of tiles from [a] up to, and without, [b], and from [b]
    to [a] the run from [b] up to, and without, [a]; so the sequence from
    [a] to [b] followed by the tile of [b] is the reverse of the sequence
    from [b] to [a] followed by the tile of [a]. *)
Theorem lineOfSight_reverse_on_axis (gm : GameMap) (x0 y0 x1 y1 : Z) (a b : Tile) :
  x0 = x1 \/ y0 = y1 ->
  openBetween gm x0 y0 x1 y1 ->
  getTile gm x0 y0 = Some a ->
  getTile gm x1 y1 = Some b ->
  map Some (lineOfSight gm x0 y0 x1 y1) = runUpTo gm x0 y0 x1 y1
  /\ map Some (lineOfSight gm x1 y1 x0 y0) = runUpTo gm x1 y1 x0 y0
  /\ lineOfSight gm x0 y0 x1 y1 ++ [b]
     = rev (lineOfSight gm x1 y1 x0 y0 ++ [a]).
Proof.
  intros Haxis Hopen Ha Hb.
  split; [by apply lineOfSight_axis_run|].
  split; [|by apply lineOfSight_axis_ends].
  apply lineOfSight_axis_run; [destruct Haxis; [left|right]; done|].
  intros x y Hx Hy. apply Hopen; lia.
Qed.

Lemma corridor3_open : openBetween corridor3 0 0 2 0.
Proof.
  intros x y Hx Hy.
  assert (y = 0) as -> by lia.
  assert (x = 0 \/ x = 1 \/ x = 2) as [-> | [-> | ->]] by lia; vm_compute; eauto.
Qed.

Lemma lineOfSight_reverse_on_axis_witness :
  map Some (lineOfSight corridor3 0 0 2 0) = runUpTo corridor3 0 0 2 0
  /\ map Some (lineOfSight corridor3 2 0 0 0) = runUpTo corridor3 2 0 0 0
  /\ lineOfSight corridor3 0 0 2 0 ++ [openTile 2 0]
     = rev (lineOfSight corridor3 2 0 0 0 ++ [openTile 0 0]).
Proof.
  apply (lineOfSight_reverse_on_axis corridor3 0 0 2 0 (openTile 0 0) (openTile 2 0)).
  - right. reflexivity.
  - exact corridor3_open.
  - vm_compute. reflexivity.
  - vm_compute. reflexivity.
Defined.

(** C4 as stated fails on the corridor of three tiles: every tile between
    [(0, 0)] and [(2, 0)] exists, the trace from [(0, 0)] is the tiles at
    [(0, 0)] and [(1, 0)], the trace back from [(2, 0)] is the tiles at
    [(2, 0)] and [(1, 0)], and neither is the reverse of the other. *)
Lemma lineOfSight_not_reverse :
  openBetween corridor3 0 0 2 0
  /\ lineOfSight corridor3 0 0 2 0 = [openTile 0 0; openTile 1 0]
  /\ lineOfSight corridor3 2 0 0 0 = [openTile 2 0; openTile 1 0]
  /\ lineOfSight corridor3 0 0 2 0 <> rev (lineOfSight corridor3 2 0 0 0).
Proof.
  split; [exact corridor3_open|].
  split; [vm_compute; reflexivity|].
  split; [vm_compute; reflexivity|].
  vm_compute. discriminate.
Qed.

(** ** [GameMap::visibleTiles] *)

(** The cast [(int)] keeps the order of the values it truncates, of either
    sign. *)
Lemma truncate_mono (q q' : Q) : (q <= q')%Q -> truncate q <= truncate q'.
Proof.
  destruct q as [n d], q' as [n' d']. unfold truncate, Qle. simpl. intros H.
  rewrite <- (Z.quot_mul_cancel_r n (Z.pos d) (Z.pos d')) by lia.
  rewrite <- (Z.quot_mul_cancel_r n' (Z.pos d') (Z.pos d)) by lia.
  rewrite (Z.mul_comm (Z.pos d') (Z.pos d)).
  apply Z.quot_le_mono; lia.
Qed.

Lemma square_mono (r r' : Q) : (0 <= r)%Q -> (r < r')%Q -> (r * r <= r' * r')%Q.
Proof. intros H0 Hlt. nra. Qed.

(** A rounding to the nearest value keeps the order: were the rounded values
    of [x < y] in the other order, [x] would lie at or above their midpoint
    and [y] at or below it. *)
Lemma roundsToNearest_mono (roundDouble : Q -> Q) (x y : Q) :
  roundsToNearest roundDouble ->
  (x <= y)%Q -> (roundDouble x <= roundDouble y)%Q.
Proof.
  intros [Hproper Hnear] Hxy.
  destruct (Qlt_le_dec x y) as [Hlt|Hge].
  2:{ assert (Heq : (x == y)%Q) by lra. rewrite (Hproper x y Heq). lra. }
  destruct (Qlt_le_dec (roundDouble y) (roundDouble x)) as [Hba|]; [exfalso|done].
  pose proof (Hnear x y) as H1. pose proof (Hnear y x) as H2.
  set (a := roundDouble x) in *. set (b := roundDouble y) in *.
  pose proof (Qle_Qabs (a - x)) as Hax.
  pose proof (Qle_Qabs (- (b - y))) as Hby. rewrite Qabs_opp in Hby.
  destruct (Qlt_le_dec x b) as [Hxb|Hbx].
  - rewrite (Qabs_pos (b - x)) in H1 by lra. lra.
  - rewrite (Qabs_neg (b - x)) in H1 by lra.
    destruct (Qlt_le_dec a y) as [Hay|Hya].
    + rewrite (Qabs_neg (a - y)) in H2 by lra. lra.
    + rewrite (Qabs_pos (a - y)) in H2 by lra. lra.
Qed.

(** The bound of the first loop grows with a radius that is not negative. *)
Lemma roundedSquare_mono (roundDouble : Q -> Q) (r r' : Q) :
  roundsToNearest roundDouble ->
  (0 <= r)%Q -> (r < r')%Q ->
  truncate (roundDouble (r * r)%Q) <= truncate (roundDouble (r' * r')%Q).
Proof.
  intros Hrd H0 Hlt. apply truncate_mono, roundsToNearest_mono; [done|].
  by apply square_mono.
Qed.

Lemma exactDouble_nearest : roundsToNearest exactDouble.
Proof.
  split; [done|]. intros q q'. unfold exactDouble.
  assert (Hz : (q - q == 0)%Q) by lra. rewrite Hz. apply Qabs_nonneg.
Qed.

Lemma roundToInteger_nearest : roundsToNearest roundToInteger.
Proof.
  unfold roundToInteger. split.
  - intros q q' Heq.
    assert (Hf : Qfloor (q + (1 # 2))%Q = Qfloor (q' + (1 # 2))%Q).
    { apply Qfloor_comp. by rewrite Heq. }
    by rewrite Hf.
  - intros q q'.
    pose proof (Qfloor_le (q + (1 # 2))%Q) as Hle.
    pose proof (Qlt_floor (q + (1 # 2))%Q) as Hlt.
    rewrite inject_Z_plus in Hlt.
    set (m := Qfloor (q + (1 # 2))%Q) in *. set (m' := Qfloor (q' + (1 # 2))%Q).
    change (inject_Z 1) with 1%Q in Hlt.
    assert (Hnear : (Qabs (inject_Z m - q) <= 1 # 2)%Q).
    { apply Qabs_Qle_condition. split; lra. }
    destruct (Z.lt_trichotomy m' m) as [Hlow | [-> | Hhigh]]; [| lra |].
    + assert (Hm : (inject_Z m' + 1 <= inject_Z m)%Q).
      { change 1%Q with (inject_Z 1). rewrite <- inject_Z_plus.
        rewrite <- Zle_Qle. lia. }
      pose proof (Qle_Qabs (- (inject_Z m' - q))) as Habs.
      rewrite Qabs_opp in Habs. lra.
    + assert (Hm : (inject_Z m + 1 <= inject_Z m')%Q).
      { change 1%Q with (inject_Z 1). rewrite <- inject_Z_plus.
        rewrite <- Zle_Qle. lia. }
      pose proof (Qle_Qabs (inject_Z m' - q)) as Habs. lra.
Qed.

Section VisibilityProperties.

Variable Angle : Type.
Variable getRadiusSquared : nat -> Z.
Variable getCoordinate : nat -> Z * Z.
Variable getCentralTheta : nat -> Angle.
Variable isObscured : Z -> Z -> Angle -> bool.
Variable roundDouble : Q -> Q.

Local Abbreviation fillTileQueue := (fillTileQueue Angle getRadiusSquared getCoordinate getCentralTheta).
Local Abbreviation scanTileQueue := (scanTileQueue Angle isObscured).

(** The queue of a smaller squared radius is the front of the queue of a
    larger one. *)
Lemma fillTileQueue_prefix fuel gm startX startY r2 r2' tileCounter q' :
  r2 <= r2' ->
  fillTileQueue fuel gm startX startY r2' tileCounter = Some q' ->
  exists q s, fillTileQueue fuel gm startX startY r2 tileCounter = Some q
              /\ q' = q ++ s.
Proof.
  intros Hr. revert tileCounter q'.
  induction fuel as [|fuel IH]; intros tileCounter q'; simpl; [done|].
  destruct (Z.ltb_spec r2' (getRadiusSquared tileCounter)) as [Hlt'|Hge'].
  { intros [= <-]. exists [], [].
    destruct (Z.ltb_spec r2 (getRadiusSquared tileCounter)); [done|lia]. }
  destruct (fillTileQueue fuel gm startX startY r2' (S tileCounter))
    as [rest'|] eqn:Hrest'; [|done].
  destruct (IH _ _ Hrest') as (rest & s & Hrest & ->).
  intros Hq'.
  destruct (Z.ltb_spec r2 (getRadiusSquared tileCounter)) as [Hlt|Hge].
  { exists [], q'. done. }
  rewrite Hrest.
  destruct (getTile gm _ _) as [tempTile|]; injection Hq' as <-.
  - by exists ((tempTile, getCentralTheta tileCounter) :: rest), s.
  - by exists rest, s.
Qed.

(** The queue is complete once the fuel reaches an index whose squared
    radius is beyond the bound. *)
Lemma fillTileQueue_total n fuel gm startX startY r2 tileCounter :
  r2 < getRadiusSquared (tileCounter + n)%nat ->
  (n < fuel)%nat ->
  exists q, fillTileQueue fuel gm startX startY r2 tileCounter = Some q
            /\ (length q <= n)%nat.
Proof.
  revert fuel tileCounter.
  induction n as [|n IH]; intros fuel tileCounter Hr Hfuel;
    (destruct fuel as [|fuel]; [lia|]); simpl.
  - rewrite Nat.add_0_r in Hr.
    destruct (Z.ltb_spec r2 (getRadiusSquared tileCounter)); [|lia].
    by exists [].
  - destruct (Z.ltb_spec r2 (getRadiusSquared tileCounter)).
    { exists []. split; [done|simpl; lia]. }
    destruct (IH fuel (S tileCounter)) as (q & -> & Hlen).
    { by replace (S tileCounter + n)%nat with (tileCounter + S n)%nat by lia. }
    { lia. }
    destruct (getTile gm _ _); eexists; (split; [done|simpl; lia]).
Qed.

Lemma scanTileQueue_total fuel startTile q :
  (length q < fuel)%nat -> is_Some (scanTileQueue fuel startTile q).
Proof.
  revert q. induction fuel as [|fuel IH]; intros q Hlen; [lia|]. simpl.
  destruct q as [|[t a] q]; [done|]. simpl in Hlen.
  destruct (permitsVision t).
  - destruct (IH q) as [l ->]; [lia|done].
  - match goal with
    | |- context [scanTileQueue fuel startTile ?q'] =>
        destruct (IH q') as [l ->]; [|done]
    end.
    pose proof (filter_length_le
      (fun e : Tile * Angle =>
         negb (isObscured (tile_x t - tile_x startTile)
                          (tile_y t - tile_y startTile) e.2)) q).
    lia.
Qed.

(** What is seen through the front of a queue is the front of what is
    seen through the whole queue. *)
Lemma scanTileQueue_prefix fuel fuel' startTile q s l l' :
  scanTileQueue fuel startTile q = Some l ->
  scanTileQueue fuel' startTile (q ++ s) = Some l' ->
  exists rest, l' = l ++ rest.
Proof.
  revert fuel' q s l l'.
  induction fuel as [|fuel IH]; intros fuel' q s l l'; simpl; [done|].
  destruct q as [|[t a] q].
  { intros [= <-] _. by exists l'. }
  destruct fuel' as [|fuel']; simpl; [done|].
  destruct (permitsVision t).
  - destruct (scanTileQueue fuel startTile q) as [r|] eqn:Hr; [|done].
    destruct (scanTileQueue fuel' startTile (q ++ s)) as [r'|] eqn:Hr'; [|done].
    intros [= <-] [= <-].
    destruct (IH _ _ _ _ _ Hr Hr') as [rest ->]. by exists rest.
  - rewrite List.filter_app.
    match goal with
    | |- context [scanTileQueue fuel startTile ?q1] =>
        destruct (scanTileQueue fuel startTile q1) as [r|] eqn:Hr; [|done]
    end.
    match goal with
    | |- context [scanTileQueue fuel' startTile ?q2] =>
        destruct (scanTileQueue fuel' startTile q2) as [r'|] eqn:Hr'; [|done]
    end.
    intros [= <-] [= <-].
    destruct (IH _ _ _ _ _ Hr Hr') as [rest ->]. by exists rest.
Qed.

(** The sign of the radius is lost in the square. *)
Lemma visibleTiles_opp (fuel : nat) (gm : GameMap) (startTile : Tile) (r : Q) :
  visibleTiles Angle getRadiusSquared getCoordinate getCentralTheta isObscured
               roundDouble fuel gm startTile (- r)
  = visibleTiles Angle getRadiusSquared getCoordinate getCentralTheta isObscured
                 roundDouble fuel gm startTile r.
Proof.
  unfold visibleTiles.
  replace (- r * - r)%Q with (r * r)%Q; [done|].
  destruct r as [n d]. unfold Qmult, Qopp. simpl. f_equal. lia.
Qed.

(** C5. With a product that the machine rounds to the nearest [double], for
    radii [0 <= r < r'], and a fuel that reaches an entry of the table beyond
    the larger radius, both calls of [visibleTiles] return, and every tile
    returned for [r] is returned for [r'] (the smaller result is the front
    of the larger one). *)
Theorem visibleTiles_monotone (fuel n : nat) (gm : GameMap) (startTile : Tile)
        (r r' : Q) :
  roundsToNearest roundDouble ->
  (0 <= r)%Q -> (r < r')%Q ->
  (n < fuel)%nat ->
  truncate (roundDouble (r' * r')) < getRadiusSquared n ->
  exists l l',
    visibleTiles Angle getRadiusSquared getCoordinate getCentralTheta isObscured
                 roundDouble fuel gm startTile r = Some l
    /\ visibleTiles Angle getRadiusSquared getCoordinate getCentralTheta isObscured
                    roundDouble fuel gm startTile r' = Some l'
    /\ (exists rest, l' = l ++ rest)
    /\ (forall t, t ∈ l -> t ∈ l').
Proof.
  intros Hrd H0 Hlt Hfuel Hn. unfold visibleTiles.
  destruct (permitsVision startTile); simpl.
  2:{ exists [], []. split; [done|]. split; [done|]. split; [by exists []|done]. }
  pose proof (roundedSquare_mono roundDouble r r' Hrd H0 Hlt) as Hmono.
  destruct (fillTileQueue_total n fuel gm (tile_x startTile) (tile_y startTile)
              (truncate (roundDouble (r' * r'))) 0) as (q' & Hq' & Hlen'); [done|done|].
  destruct (fillTileQueue_prefix _ _ _ _ _ _ _ _ Hmono Hq') as (q & s & Hq & ->).
  rewrite Hq, Hq'. rewrite length_app in Hlen'.
  destruct (scanTileQueue_total fuel startTile q) as [l Hl]; [lia|].
  destruct (scanTileQueue_total fuel startTile (q ++ s)) as [l' Hl'];
    [rewrite length_app; lia|].
  destruct (scanTileQueue_prefix _ _ _ _ _ _ _ Hl Hl') as [rest ->].
  exists l, (l ++ rest). split; [done|]. split; [done|].
  split; [by exists rest|]. intros t Ht. apply elem_of_app. by left.
Qed.

End VisibilityProperties.

Lemma visibleTiles_monotone_witness :
  exists l l',
    visibleTiles unit exampleRadiusSquared exampleCoordinate exampleCentralTheta
                 exampleObscured roundToInteger 10 corridor3 (openTile 0 0) (3 # 2)
    = Some l
    /\ visibleTiles unit exampleRadiusSquared exampleCoordinate exampleCentralTheta
                    exampleObscured roundToInteger 10 corridor3 (openTile 0 0) 2
       = Some l'
    /\ (exists rest, l' = l ++ rest)
    /\ (forall t, t ∈ l -> t ∈ l').
Proof.
  apply (visibleTiles_monotone unit exampleRadiusSquared exampleCoordinate
           exampleCentralTheta exampleObscured roundToInteger 10 5 corridor3
           (openTile 0 0) (3 # 2) 2).
  - exact roundToInteger_nearest.
  - discriminate.
  - reflexivity.
  - lia.
  - vm_compute. reflexivity.
Defined.

(** C5 as stated, for every pair of radii with [r < r'], fails for a
    negative radius, whose sign is lost in the square: from the left end of
    the corridor the radius [-2] sees three tiles and the radius [1] only
    two. *)
Lemma visibleTiles_not_monotone :
  (-2 < 1)%Q
  /\ visibleTiles unit exampleRadiusSquared exampleCoordinate exampleCentralTheta
                  exampleObscured exactDouble 10 corridor3 (openTile 0 0) (-2)
     = Some [openTile 0 0; openTile 1 0; openTile 2 0]
  /\ visibleTiles unit exampleRadiusSquared exampleCoordinate exampleCentralTheta
                  exampleObscured exactDouble 10 corridor3 (openTile 0 0) 1
     = Some [openTile 0 0; openTile 1 0]
  /\ openTile 2 0 ∈ [openTile 0 0; openTile 1 0; openTile 2 0]
  /\ openTile 2 0 ∉ [openTile 0 0; openTile 1 0].
Proof.
  split; [reflexivity|].
  split; [vm_compute; reflexivity|].
  split; [vm_compute; reflexivity|].
  split; [set_solver|].
  intros H. apply list_elem_of_In in H. simpl in H.
  destruct H as [H | [H | []]]; discriminate H.
Qed.

(** ** [GameMap::withdrawFromTreasuries] *)

(** C10. When the gold of the seat is less than the amount asked for, the
    call gives [false] and the map, so every treasury, is as it was;
    otherwise it gives [true]. *)
Theorem withdrawFromTreasuries_checks_gold (withdrawGold : Room -> Z -> Z * Room)
        (gm : GameMap) (gold : Z) (seat : Seat) :
  (mGold seat < gold ->
   withdrawFromTreasuries withdrawGold gm gold seat = (false, gm))
  /\ (gold <= mGold seat ->
      fst (withdrawFromTreasuries withdrawGold gm gold seat) = true).
Proof.
  unfold withdrawFromTreasuries.
  destruct (Z.ltb_spec (mGold seat) gold); split; intros; try done; lia.
Qed.

Lemma withdrawFromTreasuries_checks_gold_witness :
  withdrawFromTreasuries plainWithdrawGold oneTreasuryMap 150 (mkSeat 1 100 0)
  = (false, oneTreasuryMap)
  /\ fst (withdrawFromTreasuries plainWithdrawGold oneTreasuryMap 60 (mkSeat 1 100 0))
     = true.
Proof.
  split.
  - apply (proj1 (withdrawFromTreasuries_checks_gold plainWithdrawGold oneTreasuryMap
                    150 (mkSeat 1 100 0))).
    simpl. lia.
  - apply (proj2 (withdrawFromTreasuries_checks_gold plainWithdrawGold oneTreasuryMap
                    60 (mkSeat 1 100 0))).
    simpl. lia.
Defined.

(** ** The kobold section of [GameMap::doMiscUpkeep] *)

Lemma countOf_incrementCount (m : gmap Z Z) (key c : Z) :
  countOf (incrementCount m key) c
  = countOf m c + (if bool_decide (key = c) then 1 else 0).
Proof.
  unfold countOf, incrementCount. case_bool_decide as Hk.
  - subst. by rewrite lookup_insert_eq.
  - rewrite lookup_insert_ne by done. lia.
Qed.

Lemma koboldColorCounts_count (cs : list Creature) (c : Z) :
  countOf (koboldColorCounts cs) c
  = countColor creatureColor c (List.filter creatureIsWorker cs).
Proof.
  unfold koboldColorCounts, countColor.
  assert (Hgen : forall m,
    countOf (fold_left (fun m cr => if creatureIsWorker cr
                                    then incrementCount m (creatureColor cr) else m) cs m) c
    = countOf m c
      + Z.of_nat (length (List.filter (fun a => bool_decide (creatureColor a = c))
                                      (List.filter creatureIsWorker cs)))).
  { induction cs as [|cr cs IH]; intros m; simpl; [lia|].
    rewrite IH. destruct (creatureIsWorker cr); simpl; [|done].
    rewrite countOf_incrementCount. case_bool_decide; simpl; lia. }
  rewrite Hgen. unfold countOf. rewrite lookup_empty. simpl. lia.
Qed.

Lemma dungeonTempleColorCounts_count (ts : list Room) (c : Z) :
  countOf (dungeonTempleColorCounts ts) c = countColor roomColor c ts.
Proof.
  unfold dungeonTempleColorCounts, countColor.
  assert (Hgen : forall m,
    countOf (fold_left (fun m r => incrementCount m (roomColor r)) ts m) c
    = countOf m c
      + Z.of_nat (length (List.filter (fun a => bool_decide (roomColor a = c)) ts))).
  { induction ts as [|r ts IH]; intros m; simpl; [lia|].
    rewrite IH, countOf_incrementCount. case_bool_decide; simpl; lia. }
  rewrite Hgen. unfold countOf. rewrite lookup_empty. simpl. lia.
Qed.

Lemma countColor_nonneg {A : Type} (colorOf : A -> Z) (c : Z) (l : list A) :
  0 <= countColor colorOf c l.
Proof. unfold countColor. lia. Qed.

Lemma koboldsNeededPerColor_count (kobolds temples : gmap Z Z) (c : Z) :
  0 <= countOf kobolds c ->
  countOf (koboldsNeededPerColor kobolds temples) c
  = Z.min (Z.max (4 * countOf temples c - countOf kobolds c) 0) (countOf temples c).
Proof.
  intros Hk. unfold koboldsNeededPerColor. unfold countOf at 1.
  rewrite map_lookup_imap. unfold countOf at 2 4.
  destruct (temples !! c) as [n|]; simpl; [done|]. lia.
Qed.

Lemma templesProducing_count (needed : gmap Z Z) (ts : list Room) (c : Z) :
  countColor roomColor c (templesProducing needed ts)
  = Z.min (Z.max (countOf needed c) 0) (countColor roomColor c ts).
Proof.
  revert needed. unfold countColor.
  induction ts as [|r ts IH]; intros needed; [simpl; lia|].
  cbn [templesProducing].
  destruct (Z.ltb_spec 0 (countOf needed (roomColor r))) as [Hpos|Hneg];
    cbn [List.filter]; case_bool_decide as Hc; cbn [length];
    rewrite ?Nat2Z.inj_succ, IH; unfold countOf in *.
  - subst c. rewrite lookup_insert_eq. simpl. lia.
  - rewrite lookup_insert_ne by done. lia.
  - subst c. lia.
  - lia.
Qed.

Lemma templesProducing_sublist (needed : gmap Z Z) (ts : list Room) :
  sublist (templesProducing needed ts) ts.
Proof.
  revert needed. induction ts as [|r ts IH]; intros needed; simpl; [done|].
  destruct (0 <? _); [by apply sublist_skip|by apply sublist_cons].
Qed.


(** ** [GameMap::doTurn] and [GameMap::processDeletionQueues] *)

Lemma countControlledCreatures_lookup (cs : list Creature) (ss : gmap nat Seat) (seat : nat) :
  countControlledCreatures cs ss !! seat
  = (fun s => setNumCreaturesControlled s
                (mNumCreaturesControlled s + livingCreaturesOf seat cs))
      <$> ss !! seat.
Proof.
  revert ss. unfold livingCreaturesOf.
  induction cs as [|c cs IH]; intros ss; cbn [countControlledCreatures List.filter].
  - destruct (ss !! seat) as [[]|]; simpl; [|done].
    unfold setNumCreaturesControlled. simpl. do 2 f_equal. lia.
  - destruct (Qlt_le_dec 0 (creatureHP c)); cbn [andb]; [|apply IH].
    destruct (creatureSeat c) as [tempSeat|]; [|case_bool_decide; [done|apply IH]].
    rewrite IH. case_bool_decide as Hs.
    + injection Hs as ->. rewrite lookup_alter_eq. cbn [length].
      destruct (ss !! seat) as [[]|]; simpl; [|done].
      unfold setNumCreaturesControlled. simpl. do 2 f_equal. lia.
    + rewrite lookup_alter_ne by congruence. done.
Qed.

(** A dead creature does not count: the loop of [doTurn] gives the same
    seats with the creature and without it. *)
Lemma countControlledCreatures_skips_dead (cs : list Creature) (ss : gmap nat Seat)
      (i : nat) (c : Creature) :
  cs !! i = Some c -> (creatureHP c <= 0)%Q ->
  countControlledCreatures cs ss = countControlledCreatures (delete i cs) ss.
Proof.
  revert ss i. induction cs as [|c0 cs IH]; intros ss i Hi Hdead; [done|].
  destruct i as [|i]; cbn [countControlledCreatures].
  - injection Hi as ->. cbn [delete list_delete].
    destruct (Qlt_le_dec 0 (creatureHP c)) as [Hlt|]; [|done].
    exfalso. by apply (Qlt_not_le _ _ Hlt).
  - cbn [delete list_delete countControlledCreatures]. simpl in Hi.
    destruct (Qlt_le_dec 0 (creatureHP c0)); [|by apply IH].
    destruct (creatureSeat c0); by apply IH.
Qed.

Lemma deadKept_refl (gm : GameMap) : deadKept gm gm.
Proof. split; [|done]. intros i c Hi Hdead. by exists c. Qed.

Lemma deadKept_trans (gm1 gm2 gm3 : GameMap) :
  deadKept gm1 gm2 -> deadKept gm2 gm3 -> deadKept gm1 gm3.
Proof.
  intros [Hc12 Hq12] [Hc23 Hq23]. split; [|by auto].
  intros i c Hi Hdead.
  destruct (Hc12 i c Hi Hdead) as (c2 & Hi2 & Hn2 & Hd2).
  destruct (Hc23 i c2 Hi2 Hd2) as (c3 & Hi3 & Hn3 & Hd3).
  exists c3. split; [done|]. split; [congruence|done].
Qed.

Lemma fold_left_deadKept {A : Type} (f : GameMap -> A -> GameMap) (l : list A)
      (gm : GameMap) :
  (forall a, keepsTheDead (fun gm => f gm a)) ->
  deadKept gm (fold_left f l gm).
Proof.
  intros Hf. revert gm. induction l as [|a l IH]; intros gm; simpl.
  - apply deadKept_refl.
  - eapply deadKept_trans; [apply (Hf a gm)|apply IH].
Qed.

Lemma setSeats_deadKept (gm : GameMap) (ss : gmap nat Seat) :
  deadKept gm (setSeats gm ss).
Proof. split; [|done]. intros i c Hi Hdead. by exists c. Qed.

Lemma queueEntityForDeletion_deadKept (gm : GameMap) (ge : string) :
  deadKept gm (queueEntityForDeletion gm ge).
Proof.
  split; [intros i c Hi Hdead; by exists c|].
  intros e He. cbn. apply elem_of_app. by left.
Qed.

Section DeadCreatures.

Variable aiStep : Creature -> GameMap -> GameMap.
Variable checkSeatGoals : nat -> GameMap -> GameMap.
Variable produceKobold : Room -> GameMap -> GameMap.
Variable upkeepRest : GameMap -> GameMap.

Hypothesis aiStep_keeps :
  forall c, (0 < creatureHP c)%Q -> keepsTheDead (aiStep c).
Hypothesis checkSeatGoals_keeps : forall seat, keepsTheDead (checkSeatGoals seat).
Hypothesis produceKobold_keeps : forall temple, keepsTheDead (produceKobold temple).
Hypothesis upkeepRest_keeps : keepsTheDead upkeepRest.

Lemma Creature_doTurn_deadKept (c : Creature) : keepsTheDead (Creature_doTurn aiStep c).
Proof.
  intros gm. unfold Creature_doTurn.
  destruct (Qlt_le_dec 0 (creatureHP c)); [by apply aiStep_keeps|].
  apply queueEntityForDeletion_deadKept.
Qed.

Lemma creatureRound_deadKept (i : nat) :
  keepsTheDead (fun gm => match creatures gm !! i with
                          | Some c => Creature_doTurn aiStep c gm
                          | None => gm
                          end).
Proof.
  intros gm. destruct (creatures gm !! i) as [c|].
  - apply Creature_doTurn_deadKept.
  - apply deadKept_refl.
Qed.

(** The creature turns queue every creature that is dead when they start. *)
Lemma doCreatureTurns_queues_dead (gm : GameMap) (i : nat) (c : Creature) :
  creatures gm !! i = Some c -> (creatureHP c <= 0)%Q ->
  deadKept gm (doCreatureTurns (Creature_doTurn aiStep) gm)
  /\ creatureName c ∈ entitiesToDelete (doCreatureTurns (Creature_doTurn aiStep) gm).
Proof.
  intros Hi Hdead. unfold doCreatureTurns.
  split; [apply fold_left_deadKept, creatureRound_deadKept|].
  pose proof (lookup_lt_Some _ _ _ Hi) as Hlt.
  replace (seq 0 (length (creatures gm)))
    with (seq 0 i ++ i :: seq (S i) (length (creatures gm) - S i)).
  2:{ change (i :: seq (S i) (length (creatures gm) - S i))
        with (seq i (S (length (creatures gm) - S i))).
      replace i with (0 + i)%nat at 2 by done.
      rewrite <- seq_app. f_equal. lia. }
  rewrite fold_left_app. cbn [fold_left].
  match goal with
  | |- context [fold_left ?f (seq 0 i) gm] => set (gmi := fold_left f (seq 0 i) gm)
  end.
  assert (Hk : deadKept gm gmi) by apply fold_left_deadKept, creatureRound_deadKept.
  destruct (proj1 Hk i c Hi Hdead) as (c' & -> & Hname & Hdead').
  match goal with
  | |- context [fold_left ?f ?l (Creature_doTurn aiStep c' gmi)] =>
      pose proof (fold_left_deadKept f l (Creature_doTurn aiStep c' gmi)
                    creatureRound_deadKept) as [_ Hq]
  end.
  apply Hq. unfold Creature_doTurn.
  destruct (Qlt_le_dec 0 (creatureHP c')) as [Hlt'|_].
  { exfalso. by apply (Qlt_not_le _ _ Hlt'). }
  cbn. apply elem_of_app. right. rewrite Hname. by left.
Qed.

Lemma doMiscUpkeep_deadKept (gm : GameMap) :
  deadKept gm (doMiscUpkeep checkSeatGoals produceKobold upkeepRest gm).
Proof.
  unfold doMiscUpkeep. cbv zeta.
  eapply deadKept_trans; [|apply upkeepRest_keeps].
  eapply deadKept_trans; [|apply fold_left_deadKept; intros temple gm0;
                             apply produceKobold_keeps].
  apply fold_left_deadKept. intros seat gm0.
  eapply deadKept_trans; [apply checkSeatGoals_keeps|].
  apply setSeats_deadKept.
Qed.

(** The flush with the modelled destructor returns once the fuel is above
    the length of the queue: the queue is empty after it, and the creatures
    left are those whose name was not queued. *)
Lemma deleteEntities_releases (fuel : nat) (gm : GameMap) :
  (length (entitiesToDelete gm) < fuel)%nat ->
  exists gm',
    deleteEntities releaseEntity fuel gm = Some gm'
    /\ entitiesToDelete gm' = []
    /\ mapLightsToDelete gm' = mapLightsToDelete gm
    /\ seats gm' = seats gm
    /\ creatures gm'
       = List.filter (fun x => negb (bool_decide (creatureName x ∈ entitiesToDelete gm)))
                     (creatures gm).
Proof.
  revert gm. induction fuel as [|fuel IH]; intros gm Hfuel; [lia|].
  cbn [deleteEntities].
  destruct (entitiesToDelete gm) as [|entity rest] eqn:Hq.
  { exists gm. split; [done|]. split; [done|]. split; [done|]. split; [done|].
    symmetry. apply forallb_filter_id. apply forallb_forall. intros x _.
    apply negb_true_iff, bool_decide_eq_false_2. by apply not_elem_of_nil. }
  destruct (IH (releaseEntity entity (setDeletionQueues gm rest (mapLightsToDelete gm))))
    as (gm' & Hrun & Hq' & Hml & Hss & Hcs).
  { cbn. simpl in Hfuel. lia. }
  exists gm'. split; [done|]. split; [done|]. split; [done|]. split; [done|].
  rewrite Hcs. cbn.
  induction (creatures gm) as [|x xs IHxs]; [done|]. cbn [List.filter].
  case_bool_decide as Hx; cbn [negb List.filter].
  - rewrite (bool_decide_eq_true_2 (creatureName x ∈ entity :: rest))
      by (apply elem_of_cons; by left).
    exact IHxs.
  - destruct (decide (creatureName x ∈ rest)) as [Hin|Hnin].
    + rewrite (bool_decide_eq_true_2 _ Hin).
      rewrite (bool_decide_eq_true_2 (creatureName x ∈ entity :: rest))
        by (apply elem_of_cons; by right).
      exact IHxs.
    + rewrite (bool_decide_eq_false_2 _ Hnin).
      rewrite (bool_decide_eq_false_2 (creatureName x ∈ entity :: rest)).
      2:{ intros [?|?]%elem_of_cons; done. }
      cbn [negb]. by rewrite IHxs.
Qed.


End DeadCreatures.

Lemma idle_keepsTheDead : keepsTheDead idleUpkeep.
Proof. intros gm. apply deadKept_refl. Qed.


(** The turn and the flush on the two maps of the examples: the dead
    creature is queued behind what was queued, stays in the vector until the
    flush, and is gone after it; the seat counts the living creature
    only. *)
Lemma doTurn_dead_creature_examples :
  let turn := doTurn (Creature_doTurn idleCreature) idleSeat idleTemple idleUpkeep in
  creatures (turn oneDeadCreatureMap) = [deadCreature]
  /\ entitiesToDelete (turn oneDeadCreatureMap) = ["Kobold1"%string]
  /\ mNumCreaturesControlled <$> seats (turn oneDeadCreatureMap) !! 0%nat = Some 0
  /\ creatures <$> processDeletionQueues releaseEntity 5 (turn oneDeadCreatureMap)
     = Some []
  /\ creatures (turn twoCreaturesMap) = [livingCreature; deadCreature]
  /\ entitiesToDelete (turn twoCreaturesMap) = ["Room1"%string; "Kobold1"%string]
  /\ mNumCreaturesControlled <$> seats (turn twoCreaturesMap) !! 0%nat = Some 1
  /\ creatures <$> processDeletionQueues releaseEntity 5 (turn twoCreaturesMap)
     = Some [livingCreature]
  /\ entitiesToDelete <$> processDeletionQueues releaseEntity 5 (turn twoCreaturesMap)
     = Some [].
Proof. vm_compute. repeat split; reflexivity. Qed.

(** ** Flood fill *)

Lemma adjacentCoords_sym (c c' : Z * Z) :
  c' ∈ adjacentCoords (fst c) (snd c) -> c ∈ adjacentCoords (fst c') (snd c').
Proof.
  destruct c as [x y], c' as [x' y']. unfold adjacentCoords. simpl.
  rewrite !elem_of_cons, !elem_of_nil.
  intros [[= -> ->]|[[= -> ->]|[[= -> ->]|[[= -> ->]|[]]]]].
  - right; left. f_equal; lia.
  - left. f_equal; lia.
  - right; right; right; left. f_equal; lia.
  - right; right; left. f_equal; lia.
Qed.

Lemma setTiles_id (gm : GameMap) : setTiles gm (tiles gm) = gm.
Proof. by destruct gm. Qed.

Section Reachability.

Variable W : Z * Z -> Prop.

Lemma reachable_ends (a b : Z * Z) : reachableOver W a b -> W a /\ W b.
Proof. induction 1 as [a Ha|a b c _ [IHa _] _ Hc]; done. Qed.

Lemma reachable_trans (a b c : Z * Z) :
  reachableOver W a b -> reachableOver W b c -> reachableOver W a c.
Proof.
  intros Hab Hbc. induction Hbc as [b Hb|b c d _ IH Hadj Hd]; [done|].
  by apply reach_step with (b := c); [apply IH| |].
Qed.

Lemma reachable_sym (a b : Z * Z) : reachableOver W a b -> reachableOver W b a.
Proof.
  induction 1 as [a Ha|a b c Hab IH Hadj Hc]; [by apply reach_here|].
  apply reachable_trans with (b := b); [|done].
  apply reach_step with (b := c); [by apply reach_here| |].
  - by apply adjacentCoords_sym.
  - by apply (reachable_ends _ _ IH).
Qed.

Lemma reachable_neighbor (s n : Z * Z) :
  W s -> W n -> n ∈ adjacentCoords (fst s) (snd s) -> reachableOver W s n.
Proof. intros Hs Hn Hadj. apply reach_step with (b := s); [by apply reach_here|done..]. Qed.

(** *** Recoloring *)

Lemma recolored_refl (col : Z) (ts : gmap (Z * Z) Tile) : recolored col ts ts.
Proof. intros c. by left. Qed.

Lemma recolored_changed (col : Z) (ts ts' : gmap (Z * Z) Tile) (c : Z * Z) :
  recolored col ts ts' -> ts' !! c <> ts !! c ->
  exists t, ts !! c = Some t /\ tilePassability t = walkableTile
            /\ floodFillColor t = -1 /\ ts' !! c = Some (setFloodFillColor t col).
Proof. intros Hr Hne. by destruct (Hr c). Qed.

Lemma recolored_lookup (col : Z) (ts ts' : gmap (Z * Z) Tile) (c : Z * Z) (t' : Tile) :
  recolored col ts ts' -> ts' !! c = Some t' ->
  exists t, ts !! c = Some t /\ tile_x t' = tile_x t /\ tile_y t' = tile_y t
            /\ tilePassability t' = tilePassability t
            /\ (floodFillColor t' = floodFillColor t
                \/ (floodFillColor t = -1 /\ floodFillColor t' = col)).
Proof.
  intros Hr Ht'. destruct (Hr c) as [Heq|(t & Ht & Hw & Hc & Hset)].
  - exists t'. rewrite <- Heq. split; [done|]. repeat split; try done. by left.
  - exists t. rewrite Hset in Ht'. injection Ht' as <-. simpl.
    repeat split; try done. by right.
Qed.

Lemma recolored_is_Some (col : Z) (ts ts' : gmap (Z * Z) Tile) (c : Z * Z) :
  recolored col ts ts' -> is_Some (ts' !! c) <-> is_Some (ts !! c).
Proof.
  intros Hr. destruct (Hr c) as [->|(t & Ht & _ & _ & Hset)]; [done|].
  rewrite Ht, Hset. split; eauto.
Qed.

Lemma recolored_sticky (col : Z) (ts ts' : gmap (Z * Z) Tile) (c : Z * Z) (t : Tile) :
  recolored col ts ts' -> ts !! c = Some t -> floodFillColor t <> -1 ->
  ts' !! c = Some t.
Proof.
  intros Hr Ht Hc. destruct (Hr c) as [->|(t0 & Ht0 & _ & Hc0 & _)]; [done|].
  rewrite Ht in Ht0. injection Ht0 as <-. done.
Qed.

Lemma recolored_trans (col : Z) (ts1 ts2 ts3 : gmap (Z * Z) Tile) :
  col <> -1 -> recolored col ts1 ts2 -> recolored col ts2 ts3 -> recolored col ts1 ts3.
Proof.
  intros Hcol H12 H23 c.
  destruct (H23 c) as [->|(t & Ht & Hw & Hc & Hset)]; [apply H12|].
  destruct (H12 c) as [Heq|(t0 & Ht0 & _ & _ & Hset0)].
  - right. exists t. by rewrite <- Heq.
  - rewrite Hset0 in Ht. injection Ht as <-. simpl in Hc. done.
Qed.

Lemma recolored_terrain (col : Z) (ts ts' : gmap (Z * Z) Tile) :
  terrain W ts -> recolored col ts ts' -> terrain W ts'.
Proof.
  intros Ht Hr c t' Ht'.
  destruct (recolored_lookup _ _ _ _ _ Hr Ht') as (t & Hl & Hx & Hy & Hp & _).
  rewrite Hx, Hy, Hp. by apply Ht.
Qed.

Lemma elem_of_uncolored (col : Z) (ts : gmap (Z * Z) Tile) (c : Z * Z) :
  c ∈ uncolored col ts
  <-> exists t, ts !! c = Some t /\ tilePassability t = walkableTile
                /\ floodFillColor t <> col.
Proof.
  unfold uncolored. rewrite elem_of_dom. split.
  - intros [t Ht]. apply map_lookup_filter_Some in Ht as [Ht [Hw Hc]]. by exists t.
  - intros (t & Ht & Hw & Hc). exists t. by apply map_lookup_filter_Some.
Qed.

Lemma recolored_uncolored (col : Z) (ts ts' : gmap (Z * Z) Tile) :
  recolored col ts ts' -> uncolored col ts' ⊆ uncolored col ts.
Proof.
  intros Hr c. rewrite !elem_of_uncolored. intros (t' & Ht' & Hw & Hc).
  destruct (recolored_lookup _ _ _ _ _ Hr Ht') as (t & Hl & _ & _ & Hp & [Hcc|[_ Hcc]]).
  - exists t. rewrite <- Hp, <- Hcc. done.
  - done.
Qed.

Lemma uncolored_size (col : Z) (ts : gmap (Z * Z) Tile) :
  (size (uncolored col ts) <= size ts)%nat.
Proof.
  rewrite <- (size_dom (D := gset (Z * Z)) ts). apply subseteq_size.
  intros c. rewrite elem_of_uncolored, elem_of_dom. intros (t & -> & _). eauto.
Qed.

Lemma recolored_othersClosed (col : Z) (ts ts' : gmap (Z * Z) Tile) :
  othersClosed col ts -> recolored col ts ts' -> othersClosed col ts'.
Proof.
  intros Hoc Hr c t c' t' Ht Hw Hc1 Hc2 Hadj Ht' Hw'.
  destruct (recolored_lookup _ _ _ _ _ Hr Ht) as (t0 & Hl & _ & _ & Hp & [Hcc|[_ Hcc]]);
    [|done].
  destruct (recolored_lookup _ _ _ _ _ Hr Ht') as (t0' & Hl' & _ & _ & Hp' & Hcc').
  assert (Heq : floodFillColor t0' = floodFillColor t0).
  { apply (Hoc c t0 c' t0'); try done; congruence. }
  destruct Hcc' as [Hcc'|[Hcc' _]]; congruence.
Qed.

Lemma floodedFrom_refl (col : Z) (s : Z * Z) (ts : gmap (Z * Z) Tile) : floodedFrom W col s ts ts.
Proof. constructor; [apply recolored_refl|done..]. Qed.

Lemma floodedFrom_trans (col : Z) (s : Z * Z) (ts1 ts2 ts3 : gmap (Z * Z) Tile) :
  col <> -1 ->
  floodedFrom W col s ts1 ts2 -> floodedFrom W col s ts2 ts3 ->
  floodedFrom W col s ts1 ts3.
Proof.
  intros Hcol [Hf1 Hr1 Hc1] [Hf2 Hr2 Hc2]. constructor.
  - by apply recolored_trans with ts2.
  - intros c Hne. destruct (decide (ts2 !! c = ts1 !! c)) as [Heq|Hne1].
    + apply Hr2. by rewrite Heq.
    + by apply Hr1.
  - intros c c' t' Hne Hadj Ht' Hw'.
    destruct (decide (ts3 !! c = ts2 !! c)) as [Heq|Hne2].
    + destruct (recolored_lookup _ _ _ _ _ Hf2 Ht') as (t2 & Hl2 & _ & _ & Hp & Hcc).
      assert (Hcol2 : floodFillColor t2 = col).
      { apply (Hc1 c c' t2); [by rewrite <- Heq|done|done|congruence]. }
      destruct Hcc as [?|[? ?]]; congruence.
    + by apply (Hc2 c c' t').
Qed.

Lemma floodedFrom_reroot (col : Z) (s n : Z * Z) (ts ts' : gmap (Z * Z) Tile) :
  W s -> n ∈ adjacentCoords (fst s) (snd s) ->
  floodedFrom W col n ts ts' -> floodedFrom W col s ts ts'.
Proof.
  intros Hs Hadj [Hf Hr Hc]. constructor; [done| |done].
  intros c Hne. specialize (Hr c Hne).
  apply reachable_trans with (b := n); [|done].
  apply reachable_neighbor; [done| |done]. by apply (reachable_ends _ _ Hr).
Qed.

End Reachability.

Section FloodFillProperties.

Variable W : Z * Z -> Prop.

Lemma floodNeighbors_spec (fuel' : nat) (passability : TileClearType) (col : Z)
      (s : Z * Z) (ns : list (Z * Z)) :
  floodFillSpec W fuel' ->
  forall (k : nat) (gm : GameMap),
    floodFillEnabled gm = true ->
    0 <= col ->
    terrain W (tiles gm) ->
    othersClosed col (tiles gm) ->
    (size (uncolored col (tiles gm)) < fuel')%nat ->
    W s ->
    (exists ts, tiles gm !! s = Some ts /\ floodFillColor ts = col) ->
    (forall n, n ∈ ns -> n ∈ adjacentCoords (fst s) (snd s)
                         /\ is_Some (tiles gm !! n)) ->
    exists k' ts',
      floodNeighbors (fun gm x y => doFloodFill fuel' gm x y passability col)
                     col ns k gm = Some (k', setTiles gm ts')
      /\ floodedFrom W col s (tiles gm) ts'
      /\ (forall n t', n ∈ ns -> ts' !! n = Some t' ->
                       tilePassability t' = walkableTile -> floodFillColor t' = col).
Proof.
  intros IHspec. induction ns as [|n ns IH];
    intros k gm Hen Hcol Hter Hoc Hsz HWs (ts & Hts & Htscol) Hns.
  { exists k, (tiles gm). simpl. rewrite setTiles_id.
    split; [done|]. split; [apply floodedFrom_refl|]. intros n t' Hn. by apply elem_of_nil in Hn. }
  destruct (Hns n) as [Hadj [tn Htn]]; [by left|].
  assert (Hns' : forall ts', recolored col (tiles gm) ts' ->
            forall n0, n0 ∈ ns -> n0 ∈ adjacentCoords (fst s) (snd s)
                                  /\ is_Some (ts' !! n0)).
  { intros ts' Hr n0 Hn0. destruct (Hns n0) as [? ?]; [by right|].
    split; [done|]. by apply (recolored_is_Some col (tiles gm)). }
  cbn [floodNeighbors]. rewrite Htn.
  destruct (Hter n tn Htn) as [Hplace Hwn].
  destruct (Hter s ts Hts) as [_ Hws].
  case_bool_decide as Hne.
  - (* the neighbour has another color: recursive call *)
    assert (Hxy : (tile_x tn, tile_y tn) = n) by done.
    destruct (IHspec gm (tile_x tn) (tile_y tn) passability col)
      as (k1 & ts1 & Hcall & Hff1 & Hcol1); try done.
    + rewrite Hxy. eauto.
    + rewrite Hxy, Htn. intros t [= <-] Hw.
      destruct (decide (floodFillColor tn = -1)) as [|Hnm]; [done|].
      exfalso. apply Hne. rewrite <- Htscol. symmetry.
      apply (Hoc n tn s ts); try done.
      * by apply adjacentCoords_sym.
      * by apply Hws.
    + rewrite Hcall. rewrite Hxy in Hff1, Hcol1.
      pose proof (ff_frame _ _ _ _ _ Hff1) as Hr1.
      destruct (IH (k + k1)%nat (setTiles gm ts1)) as (k' & ts' & Hloop & Hff' & Hcols');
        try done.
      * by apply (recolored_terrain W col (tiles gm)).
      * by apply (recolored_othersClosed col (tiles gm)).
      * simpl. pose proof (subseteq_size _ _ (recolored_uncolored col _ _ Hr1)). lia.
      * exists ts. split; [|done]. apply (recolored_sticky col (tiles gm)); [done..|lia].
      * by apply Hns'.
      * exists k', ts'. split; [exact Hloop|].
        simpl in Hff'. split.
        -- apply floodedFrom_trans with ts1; [lia| |done].
           by apply floodedFrom_reroot with n.
        -- intros n0 t' Hn0 Ht' Hw'. apply elem_of_cons in Hn0 as [->|Hn0].
           ++ pose proof (ff_frame _ _ _ _ _ Hff') as Hr'.
              assert (Hter' : terrain W ts').
              { apply (recolored_terrain W col ts1); [|done].
                by apply (recolored_terrain W col (tiles gm)). }
              destruct (Hcol1 (proj1 (proj2 (Hter' n t' Ht')) Hw')) as (t1 & Ht1 & Hc1).
              assert (ts' !! n = Some t1) as Hst.
              { apply (recolored_sticky col ts1); [done..|lia]. }
              congruence.
           ++ by apply (Hcols' n0 t').
  - (* the neighbour has the color already *)
    destruct (IH k gm) as (k' & ts' & Hloop & Hff' & Hcols'); try done.
    { by exists ts. }
    { by apply Hns', recolored_refl. }
    exists k', ts'. split; [done|]. split; [done|].
    intros n0 t' Hn0 Ht' Hw'. apply elem_of_cons in Hn0 as [->|Hn0].
    + assert (ts' !! n = Some tn) as Hst.
      { apply (recolored_sticky col (tiles gm)); [apply Hff'|done|lia]. }
      congruence.
    + by apply (Hcols' n0 t').
Qed.

Lemma recolored_insert (col : Z) (ts : gmap (Z * Z) Tile) (c : Z * Z) (t : Tile) :
  ts !! c = Some t -> tilePassability t = walkableTile -> floodFillColor t = -1 ->
  recolored col ts (<[c := setFloodFillColor t col]> ts).
Proof.
  intros Ht Hw Hc c'. destruct (decide (c = c')) as [<-|Hne].
  - right. exists t. by rewrite lookup_insert_eq.
  - left. by rewrite lookup_insert_ne.
Qed.

Lemma doFloodFill_spec (fuel : nat) : floodFillSpec W fuel.
Proof.
  induction fuel as [|fuel IHfuel];
    intros gm x y passability col Hen Hcol Hter [t Ht] Hstart Hoc Hsz; [lia|].
  cbn [doFloodFill]. rewrite Hen. cbn [negb].
  replace (col <? 0) with false by (symmetry; apply Z.ltb_ge; lia).
  unfold getTile. rewrite Ht.
  destruct (Hter _ _ Ht) as [_ Hw].
  case_bool_decide as Hwalk.
  2:{ exists 0%nat, (tiles gm). rewrite setTiles_id. split; [done|].
      split; [apply floodedFrom_refl|]. intros HW. by apply Hw in HW. }
  pose proof (Hstart t Ht Hwalk) as Hc.
  set (ts1 := <[(x, y) := setFloodFillColor t col]> (tiles gm)).
  assert (Hr1 : recolored col (tiles gm) ts1) by (by apply recolored_insert).
  assert (Hsub : uncolored col ts1 ⊂ uncolored col (tiles gm)).
  { split; [by apply recolored_uncolored|]. intros Hsup.
    specialize (Hsup (x, y)). rewrite !elem_of_uncolored in Hsup.
    destruct Hsup as (t1 & Ht1 & _ & Hc1).
    - exists t. repeat split; try done. lia.
    - unfold ts1 in Ht1. rewrite lookup_insert_eq in Ht1. injection Ht1 as <-. done. }
  apply subset_size in Hsub.
  destruct (floodNeighbors_spec fuel passability col (x, y)
              (neighborTiles (setTiles gm ts1) x y) IHfuel 1%nat (setTiles gm ts1))
    as (k' & ts' & Hloop & Hff & Hcols); try done.
  - by apply (recolored_terrain W col (tiles gm)).
  - by apply (recolored_othersClosed col (tiles gm)).
  - simpl. lia.
  - by apply Hw.
  - exists (setFloodFillColor t col). simpl. unfold ts1. by rewrite lookup_insert_eq.
  - intros n Hn. unfold neighborTiles in Hn. apply list_elem_of_filter in Hn as [? ?]. done.
  - exists k', ts'. split; [exact Hloop|]. simpl in Hff, Hcols.
    destruct Hff as [Hf' Hr' Hc'].
    assert (Hs' : ts' !! (x, y) = Some (setFloodFillColor t col)).
    { apply (recolored_sticky col ts1); [done| |simpl; lia].
      unfold ts1. by rewrite lookup_insert_eq. }
    split; [|by eauto].
    constructor.
    + apply recolored_trans with ts1; [lia|done..].
    + intros c Hne. destruct (decide (c = (x, y))) as [->|Hcne].
      * apply reach_here. by apply Hw.
      * apply Hr'. unfold ts1. by rewrite lookup_insert_ne.
    + intros c c' t' Hne Hadj Ht' Hw'.
      destruct (decide (ts' !! c = ts1 !! c)) as [Heq|Hne1]; [|by apply (Hc' c c' t')].
      assert (c = (x, y)) as ->.
      { destruct (decide (c = (x, y))) as [|Hcne]; [done|]. exfalso. apply Hne.
        rewrite Heq. unfold ts1. by rewrite lookup_insert_ne. }
      apply (Hcols c' t'); [|done..].
      unfold neighborTiles. apply list_elem_of_filter. split; [|exact Hadj].
      simpl. apply (proj1 (recolored_is_Some col ts1 ts' c' Hf')). by rewrite Ht'.
Qed.

End FloodFillProperties.

(** *** The sweep of [enableFloodFill] *)

Lemma upToColor_refl (ts : gmap (Z * Z) Tile) : upToColor ts ts.
Proof. intros c. destruct (ts !! c) as [[]|]; done. Qed.

Lemma upToColor_trans (ts1 ts2 ts3 : gmap (Z * Z) Tile) :
  upToColor ts1 ts2 -> upToColor ts2 ts3 -> upToColor ts1 ts3.
Proof.
  intros H12 H23 c. specialize (H12 c). specialize (H23 c).
  destruct (ts1 !! c), (ts2 !! c), (ts3 !! c); try done.
  rewrite H23, H12. done.
Qed.

Lemma recolored_upToColor (col : Z) (ts ts' : gmap (Z * Z) Tile) :
  recolored col ts ts' -> upToColor ts ts'.
Proof.
  intros Hr c. destruct (Hr c) as [->|(t & -> & _ & _ & ->)]; [|done].
  destruct (ts !! c) as [[]|]; done.
Qed.

Lemma upToColor_lookup (ts ts' : gmap (Z * Z) Tile) (c : Z * Z) (t' : Tile) :
  upToColor ts ts' -> ts' !! c = Some t' ->
  exists t, ts !! c = Some t /\ t' = setFloodFillColor t (floodFillColor t').
Proof.
  intros Hu Ht'. specialize (Hu c). rewrite Ht' in Hu.
  destruct (ts !! c) as [t|]; [|done]. by exists t.
Qed.

Lemma upToColor_lookup_inv (ts ts' : gmap (Z * Z) Tile) (c : Z * Z) (t : Tile) :
  upToColor ts ts' -> ts !! c = Some t ->
  exists t', ts' !! c = Some t' /\ t' = setFloodFillColor t (floodFillColor t').
Proof.
  intros Hu Ht. specialize (Hu c). rewrite Ht in Hu.
  destruct (ts' !! c) as [t'|]; [|done]. by exists t'.
Qed.

Lemma upToColor_size (ts ts' : gmap (Z * Z) Tile) :
  upToColor ts ts' -> size ts' = size ts.
Proof.
  intros Hu. rewrite <- !(size_dom (D := gset (Z * Z))). f_equal.
  apply set_eq. intros c. rewrite !elem_of_dom. specialize (Hu c).
  destruct (ts !! c), (ts' !! c); try done; split; intros [? ?]; done.
Qed.

Lemma upToColor_terrain (ts ts' : gmap (Z * Z) Tile) :
  wellPlaced ts -> upToColor ts ts' -> terrain (walkableAt ts) ts'.
Proof.
  intros Hwf Hu c t' Ht'.
  destruct (upToColor_lookup _ _ _ _ Hu Ht') as (t & Ht & ->). simpl.
  split; [by apply (Hwf c t)|]. unfold walkableAt. rewrite Ht. split.
  - intros Hw. by exists t.
  - by intros (? & [= <-] & ?).
Qed.

Lemma doFloodFill_fresh (fuel : nat) (gm : GameMap) (x y : Z)
      (passability : TileClearType) :
  floodFillEnabled gm = true ->
  0 <= mUniqueNumberFloodFilling gm ->
  doFloodFill fuel gm x y passability (-1)
  = doFloodFill fuel (setUniqueNumberFloodFilling gm (mUniqueNumberFloodFilling gm + 1))
                x y passability (mUniqueNumberFloodFilling gm + 1).
Proof.
  intros Hen Hn. destruct fuel as [|fuel]; [done|].
  cbn [doFloodFill]. cbn [floodFillEnabled setUniqueNumberFloodFilling]. rewrite Hen.
  cbn [negb]. replace (-1 <? 0) with true by done.
  replace (mUniqueNumberFloodFilling gm + 1 <? 0) with false
    by (symmetry; apply Z.ltb_ge; lia).
  done.
Qed.

Lemma reachable_same_color (ts0 ts : gmap (Z * Z) Tile) (a b : Z * Z) (ta tb : Tile) :
  upToColor ts0 ts -> allClosed ts ->
  (forall c t, ts !! c = Some t -> tilePassability t = walkableTile ->
               floodFillColor t <> -1) ->
  walkableReachable ts0 a b ->
  ts !! a = Some ta -> ts !! b = Some tb ->
  floodFillColor ta = floodFillColor tb.
Proof.
  intros Hu Hcl Hall Hreach. revert ta tb.
  induction Hreach as [a Ha|a b c Hab IH Hadj Hc]; intros ta tb Hta Htb.
  - congruence.
  - destruct (reachable_ends _ _ _ Hab) as [_ (tb0 & Htb0 & Hwb0)].
    destruct (upToColor_lookup_inv _ _ _ _ Hu Htb0) as (tb' & Htb' & Heqb).
    destruct Hc as (tc0 & Htc0 & Hwc0).
    destruct (upToColor_lookup_inv _ _ _ _ Hu Htc0) as (tc' & Htc' & Heqc).
    rewrite Htb in Htc'. injection Htc' as <-.
    assert (Hwb' : tilePassability tb' = walkableTile) by (by rewrite Heqb).
    assert (Hwc' : tilePassability tb = walkableTile) by (by rewrite Heqc).
    rewrite (IH ta tb' Hta Htb'). symmetry.
    apply (Hcl b tb' c tb); try done. by apply (Hall b).
Qed.

Lemma sweepInv_flooded (ts0 : gmap (Z * Z) Tile) (gm : GameMap) (s : Z * Z)
      (ts' : gmap (Z * Z) Tile) :
  sweepInv ts0 gm ->
  floodedFrom (walkableAt ts0) (mUniqueNumberFloodFilling gm + 1) s (tiles gm) ts' ->
  sweepInv ts0 (setTiles (setUniqueNumberFloodFilling gm (mUniqueNumberFloodFilling gm + 1))
                         ts').
Proof.
  intros [Hen Hu Hn Hcols Hcl Hconn] [Hr Hreach Hclosed].
  set (col := mUniqueNumberFloodFilling gm + 1) in *.
  assert (Hunch : forall c t', ts' !! c = Some t' -> floodFillColor t' <> col ->
                               tiles gm !! c = Some t').
  { intros c t' Ht' Hc. destruct (Hr c) as [Heq|(t & Ht & _ & _ & Hset)]; [congruence|].
    rewrite Hset in Ht'. injection Ht' as <-. done. }
  assert (Hch : forall c t', ts' !! c = Some t' -> floodFillColor t' = col ->
                             ts' !! c <> tiles gm !! c).
  { intros c t' Ht' Hc Heq. rewrite Ht' in Heq. symmetry in Heq.
    destruct (Hcols c t' Heq) as [?|[_ ?]]; unfold col in *; lia. }
  constructor; simpl.
  - done.
  - apply upToColor_trans with (tiles gm); [done|]. by apply (recolored_upToColor col).
  - lia.
  - intros c t' Ht'. destruct (Hr c) as [Heq|(t & Ht & Hw & _ & Hset)].
    + rewrite Heq in Ht'. destruct (Hcols c t' Ht') as [?|[? ?]]; [by left|right].
      split; [done|]. lia.
    + rewrite Hset in Ht'. injection Ht' as <-. right. simpl. split; [done|].
      unfold col. lia.
  - intros c t c' t' Ht Hw Hc Hadj Ht' Hw'.
    destruct (decide (floodFillColor t = col)) as [Heq|Hne].
    + rewrite Heq. apply (Hclosed c c' t'); try done. by apply (Hch c t).
    + apply (recolored_othersClosed col (tiles gm) ts') with c c'; try done.
      intros c1 t1 c1' t1' ? ? ? ? ? ? ?. by apply (Hcl c1 t1 c1' t1').
  - intros c t c' t' Ht Ht' Hc Heq.
    destruct (decide (floodFillColor t = col)) as [Hcol|Hne].
    + apply reachable_trans with (b := s).
      * apply reachable_sym. apply Hreach. by apply (Hch c t).
      * apply Hreach. apply (Hch c' t'); [done|congruence].
    + apply (Hconn c t c' t'); try done; apply Hunch; try done. congruence.
Qed.

Lemma floodAll_spec (ts0 : gmap (Z * Z) Tile) (fuel : nat) (coords : list (Z * Z)) :
  wellPlaced ts0 ->
  (size ts0 < fuel)%nat ->
  forall gm, sweepInv ts0 gm ->
  exists gm',
    floodAll fuel coords gm = Some gm'
    /\ sweepInv ts0 gm'
    /\ (forall c t, tiles gm !! c = Some t -> floodFillColor t <> -1 ->
                    tiles gm' !! c = Some t)
    /\ (forall c t', c ∈ coords -> tiles gm' !! c = Some t' ->
                     tilePassability t' = walkableTile -> floodFillColor t' <> -1)
    /\ gm' = setTiles (setUniqueNumberFloodFilling gm (mUniqueNumberFloodFilling gm'))
                      (tiles gm').
Proof.
  intros Hwf Hfuel. induction coords as [|[ii jj] coords IH]; intros gm Hinv.
  { exists gm. split; [done|]. split; [done|]. split; [done|].
    split; [intros c t' Hc; by apply elem_of_nil in Hc|]. by destruct gm. }
  cbn [floodAll]. unfold getTile.
  destruct (tiles gm !! (ii, jj)) as [t|] eqn:Ht.
  2:{ destruct (IH gm Hinv) as (gm' & Hrun & Hinv' & Hst & Hdone & Hfields).
      exists gm'. split; [done|]. split; [done|]. split; [done|]. split; [|done].
      intros c t' Hc Ht' Hw. apply elem_of_cons in Hc as [->|Hc]; [|by apply (Hdone c)].
      destruct (upToColor_lookup _ _ _ _ (sw_tiles _ _ Hinv') Ht') as (t0 & Ht0 & _).
      destruct (upToColor_lookup_inv _ _ _ _ (sw_tiles _ _ Hinv) Ht0) as (t1 & Ht1 & _).
      congruence. }
  case_bool_decide as Hcol.
  2:{ destruct (IH gm Hinv) as (gm' & Hrun & Hinv' & Hst & Hdone & Hfields).
      exists gm'. split; [done|]. split; [done|]. split; [done|]. split; [|done].
      intros c t' Hc Ht' Hw. apply elem_of_cons in Hc as [->|Hc]; [|by apply (Hdone c)].
      rewrite (Hst _ _ Ht Hcol) in Ht'. congruence. }
  rewrite doFloodFill_fresh by apply Hinv.
  set (col := mUniqueNumberFloodFilling gm + 1).
  set (gma := setUniqueNumberFloodFilling gm col).
  pose proof (sw_counter _ _ Hinv) as Hn.
  destruct (doFloodFill_spec (walkableAt ts0) fuel gma ii jj walkableTile col)
    as (k & ts' & Hcall & Hff & Hstart).
  - apply Hinv.
  - unfold col. lia.
  - apply upToColor_terrain; [done|apply Hinv].
  - simpl. by rewrite Ht.
  - simpl. rewrite Ht. by intros ? [= <-] _.
  - intros c1 t1 c1' t1' ? ? ? ? ? ? ?. by apply (sw_closed _ _ Hinv c1 t1 c1' t1').
  - simpl. pose proof (uncolored_size col (tiles gm)).
    rewrite (upToColor_size _ _ (sw_tiles _ _ Hinv)) in H. lia.
  - rewrite Hcall. simpl in Hff.
    pose proof (sweepInv_flooded ts0 gm (ii, jj) ts' Hinv Hff) as Hinvb.
    fold col gma in Hinvb.
    destruct (IH _ Hinvb) as (gm' & Hrun & Hinv' & Hst & Hdone & Hfields).
    exists gm'. split; [done|]. split; [done|]. split; [|split].
    + intros c t0 Ht0 Hc0. apply Hst; [|done]. simpl.
      by apply (recolored_sticky col (tiles gm)); [apply Hff|..].
    + intros c t' Hc Ht' Hw. apply elem_of_cons in Hc as [->|Hc]; [|by apply (Hdone c)].
      assert (HW : walkableAt ts0 (ii, jj)).
      { pose proof (upToColor_terrain ts0 (tiles gm') Hwf (sw_tiles _ _ Hinv')) as Hter.
        by apply (Hter (ii, jj) t'). }
      destruct (Hstart HW) as (t1 & Ht1 & Hc1).
      assert (tiles gm' !! (ii, jj) = Some t1) as Hst1.
      { apply Hst; [done|]. unfold col in *. lia. }
      rewrite Hst1 in Ht'. injection Ht' as <-. unfold col in *. lia.
    + rewrite Hfields at 1. done.
Qed.

Lemma elem_of_rectCoords (sx sy : nat) (x y : Z) :
  (x, y) ∈ rectCoords sx sy
  <-> (0 <= x < Z.of_nat sx /\ 0 <= y < Z.of_nat sy).
Proof.
  unfold rectCoords. rewrite list_elem_of_In, in_flat_map. split.
  - intros (j & Hj & Hin). apply in_map_iff in Hin as (i & [= <- <-] & Hi).
    apply in_seq in Hi, Hj. lia.
  - intros [Hx Hy]. exists (Z.to_nat y). split; [apply in_seq; lia|].
    apply in_map_iff. exists (Z.to_nat x). split; [f_equal; lia|apply in_seq; lia].
Qed.

Lemma rectMap_lookup (sx sy : nat) (mk : Z -> Z -> Tile) (x y : Z) (t : Tile) :
  tiles (rectMap sx sy mk) !! (x, y) = Some t
  <-> (t = mk x y /\ (x, y) ∈ rectCoords sx sy).
Proof.
  unfold rectMap. cbn [tiles]. split.
  - intros Hl. apply elem_of_list_to_map_2 in Hl.
    apply list_elem_of_In, in_map_iff in Hl as ([x' y'] & [= <- <- <-] & Hin).
    split; [done|]. by apply list_elem_of_In.
  - intros [-> Hin]. apply elem_of_list_to_map_1'.
    + intros t' Hin'. apply list_elem_of_In, in_map_iff in Hin' as ([x' y'] & Heq & _).
      by injection Heq as <- <- <-.
    + apply list_elem_of_In, in_map_iff. exists (x, y). split; [done|].
      by apply list_elem_of_In.
Qed.

Lemma rectMap_gridComplete (sx sy : nat) (mk : Z -> Z -> Tile) :
  gridComplete (rectMap sx sy mk).
Proof.
  intros x y. unfold getTile.
  transitivity ((x, y) ∈ rectCoords sx sy); [|apply elem_of_rectCoords].
  split.
  - intros [t Ht]. by apply rectMap_lookup in Ht as [_ ?].
  - intros Hin. exists (mk x y). by apply rectMap_lookup.
Qed.

Lemma rectMap_wellPlaced (sx sy : nat) (mk : Z -> Z -> Tile) :
  (forall x y, tile_x (mk x y) = x /\ tile_y (mk x y) = y) ->
  tilesWellPlaced (rectMap sx sy mk).
Proof.
  intros Hmk [x y] t Ht. apply rectMap_lookup in Ht as [-> _].
  destruct (Hmk x y) as [-> ->]. done.
Qed.

Lemma reset_lookup (l : list (Z * Z)) (ts : gmap (Z * Z) Tile) (c : Z * Z) :
  fold_left (fun ts c => alter (fun t => setFloodFillColor t (-1)) c ts) l ts !! c
  = if decide (c ∈ l) then (fun t => setFloodFillColor t (-1)) <$> ts !! c
    else ts !! c.
Proof.
  revert ts. induction l as [|a l IH]; intros ts; cbn [fold_left].
  - by rewrite decide_False by apply not_elem_of_nil.
  - rewrite IH, lookup_alter.
    destruct (decide (c ∈ a :: l)) as [Hal|Hal];
      destruct (decide (c ∈ l)) as [Hin|Hnin];
      destruct (decide (a = c)) as [Hac|Hac]; try done.
    + subst a. by destruct (ts !! c) as [[]|].
    + by subst a.
    + apply elem_of_cons in Hal as [?|?]; done.
    + exfalso. apply Hal, elem_of_cons. by right.
    + exfalso. apply Hal, elem_of_cons. by right.
    + exfalso. apply Hal, elem_of_cons. by left.
Qed.

Lemma enableFloodFill_reset_inv (gm : GameMap) :
  gridComplete gm ->
  0 <= mUniqueNumberFloodFilling gm ->
  sweepInv (tiles gm)
    (setFloodFillEnabled
       (setTiles gm (fold_left (fun ts c => alter (fun t => setFloodFillColor t (-1)) c ts)
                               (mapCoords gm) (tiles gm)))
       true).
Proof.
  intros Hgrid Hn.
  assert (Hl : forall c, fold_left (fun ts c => alter (fun t => setFloodFillColor t (-1)) c ts)
                                   (mapCoords gm) (tiles gm) !! c
                         = (fun t => setFloodFillColor t (-1)) <$> tiles gm !! c).
  { intros [x y]. rewrite reset_lookup. case_decide as Hin; [done|].
    destruct (tiles gm !! (x, y)) as [t|] eqn:Ht; [|done].
    exfalso. apply Hin. unfold mapCoords. apply elem_of_rectCoords.
    destruct (proj1 (Hgrid x y)) as [? ?]; [by (unfold getTile; rewrite Ht)|]. lia. }
  assert (Hm1 : forall c t, fold_left (fun ts c => alter (fun t => setFloodFillColor t (-1)) c ts)
                                      (mapCoords gm) (tiles gm) !! c = Some t ->
                            floodFillColor t = -1).
  { intros c t. rewrite Hl. destruct (tiles gm !! c); intros [= <-]. done. }
  constructor; simpl.
  - done.
  - intros c. rewrite Hl. by destruct (tiles gm !! c).
  - done.
  - intros c t Ht. left. by apply (Hm1 c).
  - intros c t c' t' Ht _ Hc. by apply Hm1 in Ht.
  - intros c t c' t' Ht _ Hc. by apply Hm1 in Ht.
Qed.

(** C2, as the code has it.  On a grid that is the rectangle of the map, with
    every tile at its own coordinates and a counter of colors that is not
    negative, [enableFloodFill] returns with fuel above the number of tiles.
    Afterwards the tiles are as before up to their colors; a tile has a color
    other than [-1] exactly when it is walkable; and for two existing tiles
    [pathExists] with the walkable class gives [true] exactly when one can be
    reached from the other over walkable tiles, or neither of the two is
    walkable (both then carry the color [-1], which the check does not tell
    apart from a real color). *)
Theorem enableFloodFill_connectivity (isDiggable : Tile -> Z -> bool)
        (fuel : nat) (gm : GameMap) :
  gridComplete gm ->
  tilesWellPlaced gm ->
  0 <= mUniqueNumberFloodFilling gm ->
  (size (tiles gm) < fuel)%nat ->
  exists gm',
    enableFloodFill fuel gm = Some gm'
    /\ upToColor (tiles gm) (tiles gm')
    /\ (forall x y t, getTile gm' x y = Some t ->
          (tilePassability t = walkableTile <-> floodFillColor t <> -1))
    /\ (forall fuel' x1 y1 x2 y2 a b color,
          getTile gm' x1 y1 = Some a -> getTile gm' x2 y2 = Some b ->
          exists r,
            pathExists isDiggable fuel' gm' x1 y1 x2 y2 walkableTile color
            = Some (r, gm')
            /\ (r = true
                <-> (walkableReachable (tiles gm) (x1, y1) (x2, y2)
                     \/ (tilePassability a <> walkableTile
                         /\ tilePassability b <> walkableTile)))).
Proof.
  intros Hgrid Hwf Hn Hfuel.
  pose proof (enableFloodFill_reset_inv gm Hgrid Hn) as Hinv0.
  unfold enableFloodFill. cbn [mMapSizeX mMapSizeY setFloodFillEnabled setTiles mapCoords].
  match type of Hinv0 with sweepInv _ ?g => set (gm1 := g) in * end.
  destruct (floodAll_spec (tiles gm) fuel (mapCoords gm) Hwf Hfuel gm1 Hinv0)
    as (gm' & Hrun & Hinv & _ & Hdone & _).
  exists gm'. split; [exact Hrun|]. split; [apply Hinv|].
  assert (Hall : forall c t, tiles gm' !! c = Some t ->
                             tilePassability t = walkableTile -> floodFillColor t <> -1).
  { intros [x y] t Ht. apply (Hdone (x, y)); [|done].
    destruct (upToColor_lookup _ _ _ _ (sw_tiles _ _ Hinv) Ht) as (t0 & Ht0 & _).
    unfold mapCoords. apply elem_of_rectCoords.
    destruct (proj1 (Hgrid x y)) as [? ?]; [by (unfold getTile; rewrite Ht0)|]. lia. }
  assert (Hcolor : forall c t, tiles gm' !! c = Some t ->
                     (tilePassability t = walkableTile <-> floodFillColor t <> -1)).
  { intros c t Ht. split; [by apply (Hall c)|].
    intros Hc. by destruct (sw_colors _ _ Hinv c t Ht) as [?|[? ?]]. }
  split; [intros x y t; apply Hcolor|].
  intros fuel' x1 y1 x2 y2 a b color Ha Hb.
  exists (walkablePathExists gm' x1 y1 x2 y2). split.
  { unfold pathExists. by rewrite bool_decide_eq_true_2. }
  unfold walkablePathExists. rewrite Ha, Hb. rewrite bool_decide_eq_true.
  unfold getTile in Ha, Hb. split.
  - intros Heq. destruct (decide (floodFillColor a = -1)) as [Hm|Hm].
    + right. split; intros Hw.
      * by apply (Hcolor _ _ Ha) in Hw.
      * apply (Hcolor _ _ Hb) in Hw. congruence.
    + left. by apply (sw_connected _ _ Hinv (x1, y1) a (x2, y2) b).
  - intros [Hreach|[Hna Hnb]].
    + by apply (reachable_same_color (tiles gm) (tiles gm') (x1, y1) (x2, y2));
        [apply Hinv|apply Hinv|..].
    + destruct (sw_colors _ _ Hinv _ _ Ha) as [Hca|[? _]]; [|done].
      destruct (sw_colors _ _ Hinv _ _ Hb) as [Hcb|[? _]]; [|done].
      congruence.
Qed.

Lemma enableFloodFill_connectivity_witness :
  exists gm',
    enableFloodFill 10 walledCorridor = Some gm'
    /\ upToColor (tiles walledCorridor) (tiles gm')
    /\ (forall x y t, getTile gm' x y = Some t ->
          (tilePassability t = walkableTile <-> floodFillColor t <> -1))
    /\ (forall fuel' x1 y1 x2 y2 a b color,
          getTile gm' x1 y1 = Some a -> getTile gm' x2 y2 = Some b ->
          exists r,
            pathExists neverDiggable fuel' gm' x1 y1 x2 y2 walkableTile color
            = Some (r, gm')
            /\ (r = true
                <-> (walkableReachable (tiles walledCorridor) (x1, y1) (x2, y2)
                     \/ (tilePassability a <> walkableTile
                         /\ tilePassability b <> walkableTile)))).
Proof.
  apply (enableFloodFill_connectivity neverDiggable 10 walledCorridor).
  - apply rectMap_gridComplete.
  - apply rectMap_wellPlaced. intros x y. by case_bool_decide.
  - simpl. lia.
  - vm_compute. lia.
Defined.

(** C2 as stated fails on a map of two rock tiles: after [enableFloodFill]
    both keep the color [-1], [pathExists] with the walkable class gives
    [true] for the pair, and neither tile can be reached from the other over
    walkable tiles. *)
Lemma pathExists_matches_unassigned :
  exists gm',
    enableFloodFill 3 twoRocks = Some gm'
    /\ (floodFillColor <$> getTile gm' 0 0) = Some (-1)
    /\ (floodFillColor <$> getTile gm' 1 0) = Some (-1)
    /\ (tilePassability <$> getTile gm' 0 0) = Some impassableTile
    /\ (tilePassability <$> getTile gm' 1 0) = Some impassableTile
    /\ pathExists neverDiggable 0 gm' 0 0 1 0 walkableTile 0 = Some (true, gm')
    /\ ~ walkableReachable (tiles twoRocks) (0, 0) (1, 0).
Proof.
  eexists. split; [vm_compute; reflexivity|].
  do 5 (split; [vm_compute; reflexivity|]).
  intros Hreach. apply reachable_ends in Hreach as [(t & Ht & Hw) _].
  apply rectMap_lookup in Ht as [-> _]. done.
Qed.

(* ================================================================== *)
(** * Further properties of the code *)
(* ================================================================== *)

(** ** [GameMap::path]: the identity case *)

(** X2. From an existing tile to itself, [path] returns that one tile, for every
    passability class and color, with the flood fill enabled or not, as soon
    as the fuel allows one round of the search. *)
Theorem path_to_itself (isDiggable : Tile -> Z -> bool)
        (fuel : nat) (gm : GameMap) (x y : Z)
        (passability : TileClearType) (color : Z) (t : Tile) :
  getTile gm x y = Some t ->
  path isDiggable (S fuel) gm x y x y passability color
  = Some ([t], setNumCallsTo_path gm ((numCallsTo_path gm + 1) mod 2 ^ 32)).
Proof.
  intros Ht. unfold path.
  set (gm1 := setNumCallsTo_path gm ((numCallsTo_path gm + 1) mod 2 ^ 32)).
  change (getTile gm1) with (getTile gm).
  assert (Hw : walkablePathExists gm1 x y x y = true).
  { unfold walkablePathExists. change (getTile gm1) with (getTile gm).
    rewrite Ht. by apply bool_decide_eq_true_2. }
  rewrite Ht, Hw, andb_false_r.
  cbn [searchLoop searchStep initialSearch openList entries closedList neighbor].
  unfold smallestAstarPos. cbn [smallestAstar]. rewrite Z.ltb_irrefl.
  unfold entryAt. simpl. case_bool_decide; [|done].
  unfold findTile, entryAt. simpl. case_bool_decide; [|done].
  done.
Qed.

Lemma path_to_itself_witness :
  path neverDiggable 1 corridor3 1 0 1 0 flyableTile 0
  = Some ([openTile 1 0],
          setNumCallsTo_path corridor3 ((numCallsTo_path corridor3 + 1) mod 2 ^ 32)).
Proof.
  apply (path_to_itself neverDiggable 0 corridor3 1 0 flyableTile 0 (openTile 1 0)).
  vm_compute. reflexivity.
Defined.

(** ** [GameMap::path]: which tiles the search reaches *)

Lemma NoDup_fmap_inj_on {A B : Type} (f : A -> B) (l : list A) (x y : A) :
  NoDup (f <$> l) -> x ∈ l -> y ∈ l -> f x = f y -> x = y.
Proof.
  induction l as [|a l IH]; intros Hnd Hx Hy Hf; [by apply elem_of_nil in Hx|].
  rewrite fmap_cons in Hnd. apply NoDup_cons in Hnd as [Ha Hnd].
  apply elem_of_cons in Hx as [-> | Hx]; apply elem_of_cons in Hy as [-> | Hy].
  - done.
  - exfalso. apply Ha. rewrite Hf. apply list_elem_of_fmap. by exists y.
  - exfalso. apply Ha. rewrite <- Hf. apply list_elem_of_fmap. by exists x.
  - by apply IH.
Qed.

Section PathSearch.

Variable isDiggable : Tile -> Z -> bool.
Variable gm : GameMap.
Variable start : Tile.
Variable passability : TileClearType.
Variable color : Z.
Variables x1 y1 : Z.

Lemma visitNeighbor_grows (cur : nat) (st : AstarSearch) (n : option Tile) :
  let st' := visitNeighbor isDiggable passability color x1 y1 cur st n in
  closedList st' = closedList st
  /\ (forall p, p ∈ openList st -> p ∈ openList st')
  /\ (length (entries st) <= length (entries st'))%nat
  /\ (forall p, (p < length (entries st))%nat ->
                tile (entryAt (entries st') p) = tile (entryAt (entries st) p))
  /\ (forall t, n = Some t ->
                processNeighbor isDiggable passability color t = true ->
                hasNode st' t)
  /\ (searchAdmissible isDiggable passability color st ->
      searchAdmissible isDiggable passability color st').
Proof.
  unfold visitNeighbor. destruct n as [t|]; simpl.
  2:{ split; [done|]. split; [done|]. split; [done|]. split; [done|]. done. }
  destruct (processNeighbor isDiggable passability color t) eqn:Hpn; simpl.
  2:{ split; [done|]. split; [done|]. split; [done|]. split; [done|].
      split; [|done]. intros t' [= <-] ?. congruence. }
  destruct (findTile (entries st) (closedList st) t) as [pc|] eqn:Hfc; simpl.
  { split; [done|]. split; [done|]. split; [done|]. split; [done|].
    split; [|done]. intros t' [= <-] _.
    apply find_some in Hfc as [Hin Ht].
    apply list_elem_of_In in Hin. apply bool_decide_eq_true in Ht.
    exists pc. split; [apply elem_of_app; by right|done]. }
  destruct (findTile (entries st) (openList st) t) as [po|] eqn:Hfo; simpl.
  - apply find_some in Hfo as [Hin Ht].
    apply list_elem_of_In in Hin. apply bool_decide_eq_true in Ht.
    destruct (_ <? _); simpl.
    + split; [done|]. split; [done|]. split; [by rewrite length_alter|].
      split; [intros p _; by apply tile_entryAt_alter|]. split.
      * intros t' [= <-] _. exists po. split; [apply elem_of_app; by left|].
        cbn [entries]. by rewrite tile_entryAt_alter.
      * intros Hadm p e t' Hp Hp0 Hte. cbn [entries] in Hp.
        rewrite list_lookup_alter in Hp.
        destruct (decide (po = p)) as [->|].
        -- apply fmap_Some in Hp as (e0 & He0 & ->). simpl in Hte.
           by apply (Hadm p e0 t').
        -- by apply (Hadm p e t').
    + split; [done|]. split; [done|]. split; [done|]. split; [done|].
      split; [|done]. intros t' [= <-] _. exists po.
      split; [apply elem_of_app; by left|done].
  - split; [done|]. split; [intros p Hp; apply elem_of_app; by left|].
    split; [rewrite length_app, length_alter; lia|]. split.
    { intros p Hp. rewrite entryAt_app_l by (rewrite length_alter; lia).
      by apply tile_entryAt_alter. }
    split.
    + intros t' [= <-] _.
      exists (length (alter (fun e => setHeuristic e x1 y1 (tile_x t) (tile_y t))
                            cur (entries st))).
      split.
      * cbn [openList closedList]. rewrite <- app_assoc.
        apply elem_of_app. right. by left.
      * cbn [entries]. by rewrite entryAt_app_new.
    + intros Hadm p e t' Hp Hp0 Hte. cbn [entries] in Hp.
      destruct (decide (p < length (entries st))%nat) as [Hlt|Hge].
      * rewrite lookup_app_l in Hp by (rewrite length_alter; lia).
        rewrite list_lookup_alter in Hp.
        destruct (decide (cur = p)) as [->|].
        -- apply fmap_Some in Hp as (e0 & He0 & ->). simpl in Hte.
           by apply (Hadm p e0 t').
        -- by apply (Hadm p e t').
      * assert (p = length (entries st)) as ->.
        { apply lookup_lt_Some in Hp. rewrite length_app, length_alter in Hp.
          simpl in Hp. lia. }
        rewrite lookup_app_r in Hp by (rewrite length_alter; lia).
        rewrite length_alter, Nat.sub_diag in Hp. simpl in Hp.
        injection Hp as <-. simpl in Hte. injection Hte as <-. done.
Qed.

Lemma hasNode_visitNeighbor (cur : nat) (st : AstarSearch) (n : option Tile) (t : Tile) :
  searchInv gm start st ->
  hasNode st t ->
  hasNode (visitNeighbor isDiggable passability color x1 y1 cur st n) t.
Proof.
  intros Hinv (q & Hq & Ht).
  destruct (visitNeighbor_grows cur st n) as (Hc & Ho & _ & Htile & _).
  exists q. split.
  - apply elem_of_app in Hq as [Hq|Hq]; apply elem_of_app.
    + left. by apply Ho.
    + right. by rewrite Hc.
  - rewrite Htile; [done|]. by apply (inv_bound _ _ _ Hinv).
Qed.

Lemma visitNeighbors_fold_grows (cur : nat) (tcur : Tile)
      (l : list (option Tile)) (st : AstarSearch) :
  searchInv gm start st ->
  0%nat ∈ closedList st ->
  cur ∈ closedList st ->
  tile (entryAt (entries st) cur) = Some tcur ->
  (forall n, n ∈ l -> n ∈ getAllNeighbors gm tcur) ->
  let st' := fold_left (visitNeighbor isDiggable passability color x1 y1 cur) l st in
  (forall t, hasNode st t -> hasNode st' t)
  /\ (length (entries st) <= length (entries st'))%nat
  /\ (forall p, (p < length (entries st))%nat ->
                tile (entryAt (entries st') p) = tile (entryAt (entries st) p))
  /\ (forall t, Some t ∈ l ->
                processNeighbor isDiggable passability color t = true ->
                hasNode st' t)
  /\ (searchAdmissible isDiggable passability color st ->
      searchAdmissible isDiggable passability color st').
Proof.
  revert st. induction l as [|n l IH]; intros st Hinv H0 Hcur Htcur Hl; simpl.
  { split; [done|]. split; [done|]. split; [done|]. split; [|done].
    intros t Ht. by apply elem_of_nil in Ht. }
  assert (Hn : n ∈ getAllNeighbors gm tcur) by (apply Hl; apply elem_of_cons; by left).
  destruct (visitNeighbor_inv isDiggable gm start passability color x1 y1 cur tcur st n)
    as (Hinv1 & Hcl1 & Ht1); try done.
  destruct (visitNeighbor_grows cur st n) as (_ & _ & Hlen1 & Htile1 & Hnew1 & Hadm1).
  simpl in *.
  destruct (IH (visitNeighbor isDiggable passability color x1 y1 cur st n))
    as (Hmono & Hlen & Htile & Hnew & Hadm); try done.
  - by rewrite Hcl1.
  - by rewrite Hcl1.
  - intros n' Hn'. apply Hl. apply elem_of_cons. by right.
  - split; [|split; [lia|split; [|split]]].
    + intros t Ht. apply Hmono. by apply hasNode_visitNeighbor.
    + intros p Hp. rewrite Htile by lia. by apply Htile1.
    + intros t Ht Hpn. apply elem_of_cons in Ht as [<- | Ht].
      * apply Hmono. by apply Hnew1.
      * by apply Hnew.
    + intros Ha. by apply Hadm, Hadm1.
Qed.

Lemma searchStep_frontier (destination : Tile) (st : AstarSearch)
      (r : option bool) (st' : AstarSearch) :
  searchInv gm start st ->
  searchAdmissible isDiggable passability color st ->
  searchFrontier isDiggable gm passability color destination st ->
  searchStep isDiggable gm passability color x1 y1 destination st = (r, st') ->
  searchAdmissible isDiggable passability color st'
  /\ (r <> Some true ->
      searchFrontier isDiggable gm passability color destination st')
  /\ (r = Some false -> openList st' = []).
Proof.
  intros Hinv Hadm Hfr. unfold searchStep.
  destruct (openList st) as [|p0 ol] eqn:Hol.
  { intros [= <- <-]. done. }
  rewrite <- Hol.
  set (pos := smallestAstarPos (entries st) (openList st)).
  assert (Hpos : (pos < length (openList st))%nat).
  { apply smallestAstarPos_lt. by rewrite Hol. }
  destruct (lookup_lt_is_Some_2 _ _ Hpos) as [cur Hcur]. rewrite Hcur. simpl.
  destruct (moveToClosed_inv gm start st pos cur Hinv Hcur)
    as (Hinv1 & H01 & Hcur1 & Hperm).
  set (st1 := mkAstarSearch (entries st) (delete pos (openList st))
                            (closedList st ++ [cur]) (neighbor st)) in *.
  assert (Hnode1 : forall t, hasNode st t -> hasNode st1 t).
  { intros t (q & Hq & Ht). exists q. split; [|done]. by rewrite <- Hperm. }
  case_bool_decide as Hdest.
  { intros [= <- <-]. done. }
  intros [= <- <-]. unfold visitNeighbors.
  destruct (tile (entryAt (entries st1) cur)) as [tcur|] eqn:Htcur.
  - destruct (visitNeighbors_fold_grows cur tcur (getAllNeighbors gm tcur) st1)
      as (Hmono & Hlen & Htile & Hnew & Hadm'); try done.
    destruct (visitNeighbors_fold_inv isDiggable gm start passability color x1 y1
                cur tcur (getAllNeighbors gm tcur) st1) as (_ & Hcl); try done.
    cbv zeta in Hmono, Hlen, Htile, Hnew, Hadm', Hcl.
    split; [by apply Hadm'|]. split; [|done]. intros _.
    assert (Hlt : forall p, p ∈ closedList st1 -> (p < length (entries st1))%nat).
    { intros p Hp. apply (inv_bound _ _ _ Hinv1). apply elem_of_app. by right. }
    constructor.
    + intros p tp t Hp Htp Ht Hpn. rewrite Hcl in Hp.
      rewrite Htile in Htp by (by apply Hlt).
      simpl in Hp. apply elem_of_app in Hp as [Hp|Hp].
      * apply Hmono, Hnode1. by apply (sf_expanded _ _ _ _ _ _ Hfr p tp t).
      * apply list_elem_of_singleton in Hp as ->.
        rewrite Htcur in Htp. injection Htp as <-. by apply Hnew.
    + intros p Hp. rewrite Hcl in Hp. rewrite Htile by (by apply Hlt).
      simpl in Hp. apply elem_of_app in Hp as [Hp|Hp].
      * by apply (sf_not_there _ _ _ _ _ _ Hfr).
      * apply list_elem_of_singleton in Hp as ->. done.
  - split; [done|]. split; [|done]. intros _. constructor.
    + intros p tp t Hp Htp Ht Hpn. simpl in Hp.
      apply elem_of_app in Hp as [Hp|Hp].
      * apply Hnode1. by apply (sf_expanded _ _ _ _ _ _ Hfr p tp t).
      * apply list_elem_of_singleton in Hp as ->. congruence.
    + intros p Hp. simpl in Hp. apply elem_of_app in Hp as [Hp|Hp].
      * by apply (sf_not_there _ _ _ _ _ _ Hfr).
      * apply list_elem_of_singleton in Hp as ->. done.
Qed.

Lemma searchLoop_frontier (fuel : nat) (destination : Tile) (st : AstarSearch)
      (b : bool) (st' : AstarSearch) :
  searchInv gm start st ->
  searchAdmissible isDiggable passability color st ->
  searchFrontier isDiggable gm passability color destination st ->
  searchLoop isDiggable fuel gm passability color x1 y1 destination st
    = Some (b, st') ->
  searchAdmissible isDiggable passability color st'
  /\ (b = false ->
      searchFrontier isDiggable gm passability color destination st'
      /\ openList st' = []).
Proof.
  revert st. induction fuel as [|fuel IH]; intros st Hinv Hadm Hfr; simpl; [done|].
  destruct (searchStep isDiggable gm passability color x1 y1 destination st)
    as [r st1] eqn:Hstep.
  destruct (searchStep_inv isDiggable gm start _ _ _ _ _ _ _ _ Hinv Hstep) as [Hinv1 _].
  destruct (searchStep_frontier _ _ _ _ Hinv Hadm Hfr Hstep) as (Hadm1 & Hfr1 & Hopen1).
  destruct r as [pathFound|].
  - intros [= <- <-]. split; [done|]. intros ->. split; [by apply Hfr1|by apply Hopen1].
  - apply IH; try done. by apply Hfr1.
Qed.

Lemma searchLoop_bound (fuel : nat) (destination : Tile) (st : AstarSearch)
      (b : bool) (st' : AstarSearch) :
  searchInv gm start st ->
  searchBound gm st ->
  searchLoop isDiggable fuel gm passability color x1 y1 destination st
    = Some (b, st') ->
  searchBound gm st'.
Proof.
  revert st. induction fuel as [|fuel IH]; intros st Hinv Hbd; simpl; [done|].
  destruct (searchStep isDiggable gm passability color x1 y1 destination st)
    as [r st1] eqn:Hstep.
  destruct (searchStep_inv isDiggable gm start _ _ _ _ _ _ _ _ Hinv Hstep) as [Hinv1 _].
  destruct (searchStep_bound isDiggable gm start _ _ _ _ _ _ _ _ Hinv Hbd Hstep)
    as (Hbd1 & _).
  destruct r as [pathFound|].
  - by intros [= <- <-].
  - by apply IH.
Qed.

Lemma initialSearch_admissible (x2 y2 : Z) :
  searchAdmissible isDiggable passability color (initialSearch start x1 y1 x2 y2).
Proof. intros [|p] e t Hp Hp0; [done|]. done. Qed.

Lemma initialSearch_frontier (destination : Tile) (x2 y2 : Z) :
  searchFrontier isDiggable gm passability color destination
                 (initialSearch start x1 y1 x2 y2).
Proof.
  constructor; simpl.
  - intros p tp t Hp. by apply elem_of_nil in Hp.
  - intros p Hp. by apply elem_of_nil in Hp.
Qed.

Lemma initialSearch_bound (x2 y2 : Z) :
  getTile gm x1 y1 = Some start ->
  searchBound gm (initialSearch start x1 y1 x2 y2).
Proof.
  intros H1. constructor; simpl.
  - intros p Hp. apply list_elem_of_singleton in Hp as ->. done.
  - intros p Hp. by apply elem_of_nil in Hp.
  - apply NoDup_singleton.
  - intros p Hp. apply list_elem_of_singleton in Hp as ->.
    exists start, (x1, y1). done.
Qed.

(** Once the open list is empty, every tile that can be reached from the
    start tile has a closed node. *)
Lemma stepReachable_closed (destination : Tile) (st : AstarSearch) (b : Tile) :
  searchInv gm start st ->
  searchFrontier isDiggable gm passability color destination st ->
  openList st = [] ->
  stepReachable isDiggable gm passability color start b ->
  exists p, p ∈ closedList st /\ tile (entryAt (entries st) p) = Some b.
Proof.
  intros Hinv Hfr Hopen Hreach. induction Hreach as [|b c Hreach IH Hnb Hpn].
  - exists 0%nat. split.
    + destruct (inv_start _ _ _ Hinv) as [?|[Ho _]]; [done|]. by rewrite Hopen in Ho.
    + destruct (inv_root _ _ _ Hinv) as (e0 & He0 & Ht0 & _).
      by rewrite (entryAt_lookup _ _ _ He0).
  - destruct IH as (p & Hp & Htp).
    destruct (sf_expanded _ _ _ _ _ _ Hfr p b c Hp Htp Hnb Hpn) as (q & Hq & Htq).
    rewrite Hopen in Hq. by exists q.
Qed.

Lemma followParents_admissible (fuel : nat) (st : AstarSearch) (cur : nat)
      (acc l : list Tile) :
  searchInv gm start st ->
  searchAdmissible isDiggable passability color st ->
  (cur < length (entries st))%nat ->
  followParents fuel (entries st) cur acc = Some l ->
  exists l', l = start :: l' ++ acc
             /\ Forall (fun t => processNeighbor isDiggable passability color t = true) l'.
Proof.
  intros Hinv Hadm. revert cur acc.
  induction fuel as [|fuel IH]; intros cur acc Hlt; simpl; [done|].
  destruct (lookup_lt_is_Some_2 _ _ Hlt) as [e He].
  rewrite (entryAt_lookup _ _ _ He).
  destruct (decide (cur = 0%nat)) as [->|Hne].
  - destruct (inv_root _ _ _ Hinv) as (e0 & He0 & Ht0 & Hp0 & _).
    rewrite He in He0. injection He0 as <-. rewrite Ht0, Hp0.
    intros [= <-]. by exists [].
  - destruct (inv_child _ _ _ Hinv cur e He Hne)
      as (q & eq & t & tq & Hp & Hq & Heq & Ht & _).
    rewrite Ht, Hp. intros Hf.
    apply IH in Hf; [|by eapply lookup_lt_Some].
    destruct Hf as (l' & -> & Hall).
    exists (l' ++ [t]). split; [by rewrite <- app_assoc|].
    apply Forall_app. split; [done|]. apply Forall_singleton.
    by apply (Hadm cur e t).
Qed.

Lemma followParents_nodup (fuel : nat) (st : AstarSearch) (cur : nat)
      (acc l : list Tile) :
  searchInv gm start st ->
  searchBound gm st ->
  cur ∈ closedList st ->
  followParents fuel (entries st) cur acc = Some l ->
  exists l', l = l' ++ acc /\ NoDup l'
             /\ forall t, t ∈ l' ->
                  exists p, p ∈ closedList st
                            /\ tile (entryAt (entries st) p) = Some t
                            /\ g (entryAt (entries st) p) <= g (entryAt (entries st) cur).
Proof.
  intros Hinv Hbd. revert cur acc.
  induction fuel as [|fuel IH]; intros cur acc Hcur; simpl; [done|].
  assert (Hlt : (cur < length (entries st))%nat).
  { apply (inv_bound _ _ _ Hinv). apply elem_of_app. by right. }
  destruct (lookup_lt_is_Some_2 _ _ Hlt) as [e He].
  rewrite (entryAt_lookup _ _ _ He).
  destruct (decide (cur = 0%nat)) as [->|Hne].
  - destruct (inv_root _ _ _ Hinv) as (e0 & He0 & Ht0 & Hp0 & _).
    rewrite He in He0. injection He0 as <-. rewrite Ht0, Hp0.
    intros [= <-]. exists [start]. split; [done|]. split; [apply NoDup_singleton|].
    intros t Ht. apply list_elem_of_singleton in Ht as ->.
    exists 0%nat. by rewrite (entryAt_lookup _ _ _ He).
  - destruct (inv_child _ _ _ Hinv cur e He Hne)
      as (q & eq & t & tq & Hp & Hq & Heq & Ht & _ & _ & Hg).
    rewrite Ht, Hp. intros Hf.
    apply IH in Hf; [|done].
    destruct Hf as (l' & -> & Hnd & Hfrom).
    rewrite (entryAt_lookup _ _ _ Heq) in Hfrom.
    exists (l' ++ [t]). split; [by rewrite <- app_assoc|]. split.
    + apply NoDup_app. split; [done|]. split; [|apply NoDup_singleton].
      intros t' Ht' Hin. apply list_elem_of_singleton in Hin as ->.
      destruct (Hfrom t Ht') as (p & Hpc & Htp & Hgp).
      assert (p = cur) as ->.
      { apply (NoDup_fmap_inj_on (fun p => tile (entryAt (entries st) p))
                 (openList st ++ closedList st)).
        - apply (sb_nodup _ _ Hbd).
        - apply elem_of_app. by right.
        - apply elem_of_app. by right.
        - by rewrite Htp, (entryAt_lookup _ _ _ He). }
      rewrite (entryAt_lookup _ _ _ He) in Hgp. lia.
    + intros t' Ht'. apply elem_of_app in Ht' as [Ht'|Ht'].
      * destruct (Hfrom t' Ht') as (p & Hpc & Htp & Hgp).
        exists p. split; [done|]. split; [done|]. lia.
      * apply list_elem_of_singleton in Ht' as ->.
        exists cur. by rewrite (entryAt_lookup _ _ _ He).
Qed.

End PathSearch.

Lemma stepReachable_same_tiles (isDiggable : Tile -> Z -> bool) (gm gm1 : GameMap)
      (passability : TileClearType) (color : Z) (a b : Tile) :
  tiles gm1 = tiles gm ->
  stepReachable isDiggable gm1 passability color a b ->
  stepReachable isDiggable gm passability color a b.
Proof.
  intros Htiles Hreach. induction Hreach as [|b c Hreach IH Hnb Hpn].
  - apply steps_here.
  - apply (steps_more _ _ _ _ _ b c); [done| |done].
    unfold getAllNeighbors, getTile in *. by rewrite <- Htiles.
Qed.

Lemma stepReachable_along (isDiggable : Tile -> Z -> bool) (gm : GameMap)
      (passability : TileClearType) (color : Z) (s a b : Tile) (l : list Tile) :
  stepReachable isDiggable gm passability color s a ->
  consecutive (isNeighborOf gm) (a :: l) ->
  Forall (fun t => processNeighbor isDiggable passability color t = true) l ->
  last (a :: l) = Some b ->
  stepReachable isDiggable gm passability color s b.
Proof.
  revert a. induction l as [|c l IH]; intros a Hs Hcons Hall Hlast.
  - simpl in Hlast. by injection Hlast as <-.
  - destruct Hcons as [Hac Hcons]. apply Forall_cons in Hall as [Hc Hall].
    apply (IH c); try done.
    by apply (steps_more _ _ _ _ _ a c).
Qed.

(** X3. Every tile of a list returned by [path], but the first, has passed the
    [switch (passability)] of the search: it is walkable for the walkable
    class, walkable or flyable for the flyable class, walkable or diggable
    by the color for the diggable class (and any tile for the impassable
    class). The first tile, the one at [(x1, y1)], is never tested. *)
Theorem path_steps_admissible (isDiggable : Tile -> Z -> bool)
        (fuel : nat) (gm : GameMap) (x1 y1 x2 y2 : Z)
        (passability : TileClearType) (color : Z)
        (l : list Tile) (gm' : GameMap) :
  path isDiggable fuel gm x1 y1 x2 y2 passability color = Some (l, gm') ->
  Forall (fun t => processNeighbor isDiggable passability color t = true) (tail l).
Proof.
  unfold path.
  set (gm1 := setNumCallsTo_path gm ((numCallsTo_path gm + 1) mod 2 ^ 32)).
  destruct (getTile gm1 x1 y1) as [start|] eqn:H1; [|by intros [= <- <-]].
  destruct (_ && _); [by intros [= <- <-]|].
  destruct (getTile gm1 x2 y2) as [destination|] eqn:H2; [|by intros [= <- <-]].
  destruct (searchLoop _ _ _ _ _ _ _ _ _) as [[[|] st]|] eqn:Hloop;
    [|by intros [= <- <-]|done].
  destruct (searchLoop_inv isDiggable gm1 start _ _ _ _ _ _ _ _ _
              (initialSearch_inv gm1 start x1 y1 x2 y2) Hloop) as [Hinv _].
  destruct (searchLoop_frontier isDiggable gm1 start passability color x1 y1
              fuel destination _ _ _
              (initialSearch_inv gm1 start x1 y1 x2 y2)
              (initialSearch_admissible isDiggable start passability color x1 y1 x2 y2)
              (initialSearch_frontier isDiggable gm1 start passability color x1 y1
                 destination x2 y2) Hloop) as [Hadm _].
  destruct (findTile (entries st) (closedList st) destination) as [d|] eqn:Hd; [|done].
  destruct (followParents fuel (entries st) d []) as [r|] eqn:Hf; [|done].
  intros [= <- <-].
  apply find_some in Hd as [Hdin _]. apply list_elem_of_In in Hdin.
  apply (followParents_admissible isDiggable gm1 start passability color) in Hf;
    [|done|done|].
  2:{ apply (inv_bound _ _ _ Hinv). apply elem_of_app. by right. }
  destruct Hf as (l' & -> & Hall). simpl. by rewrite app_nil_r.
Qed.

Lemma path_steps_admissible_witness :
  Forall (fun t => processNeighbor neverDiggable walkableTile 0 t = true)
         (tail [openTile 0 0; openTile 1 0; openTile 2 0]).
Proof.
  apply (path_steps_admissible neverDiggable 10 corridor3 0 0 2 0 walkableTile 0
           [openTile 0 0; openTile 1 0; openTile 2 0]
           (setNumCallsTo_path corridor3 1)).
  vm_compute. reflexivity.
Defined.

(** X4. No tile occurs twice in a list returned by [path]. *)
Theorem path_no_repeated_tile (isDiggable : Tile -> Z -> bool)
        (fuel : nat) (gm : GameMap) (x1 y1 x2 y2 : Z)
        (passability : TileClearType) (color : Z)
        (l : list Tile) (gm' : GameMap) :
  path isDiggable fuel gm x1 y1 x2 y2 passability color = Some (l, gm') ->
  NoDup l.
Proof.
  unfold path.
  set (gm1 := setNumCallsTo_path gm ((numCallsTo_path gm + 1) mod 2 ^ 32)).
  destruct (getTile gm1 x1 y1) as [start|] eqn:H1;
    [|intros [= <- <-]; apply NoDup_nil_2].
  destruct (_ && _); [intros [= <- <-]; apply NoDup_nil_2|].
  destruct (getTile gm1 x2 y2) as [destination|] eqn:H2;
    [|intros [= <- <-]; apply NoDup_nil_2].
  destruct (searchLoop _ _ _ _ _ _ _ _ _) as [[[|] st]|] eqn:Hloop;
    [|intros [= <- <-]; apply NoDup_nil_2|done].
  destruct (searchLoop_inv isDiggable gm1 start _ _ _ _ _ _ _ _ _
              (initialSearch_inv gm1 start x1 y1 x2 y2) Hloop) as [Hinv _].
  pose proof (searchLoop_bound isDiggable gm1 start passability color x1 y1
                fuel destination _ _ _
                (initialSearch_inv gm1 start x1 y1 x2 y2)
                (initialSearch_bound gm1 start x1 y1 x2 y2 H1) Hloop) as Hbd.
  destruct (findTile (entries st) (closedList st) destination) as [d|] eqn:Hd; [|done].
  destruct (followParents fuel (entries st) d []) as [r|] eqn:Hf; [|done].
  intros [= <- <-].
  apply find_some in Hd as [Hdin _]. apply list_elem_of_In in Hdin.
  apply (followParents_nodup gm1 start) in Hf; [|done|done|done].
  destruct Hf as (l' & -> & Hnd & _). by rewrite app_nil_r.
Qed.

Lemma path_no_repeated_tile_witness :
  NoDup [openTile 0 0; openTile 1 0; openTile 2 0].
Proof.
  apply (path_no_repeated_tile neverDiggable 10 corridor3 0 0 2 0 walkableTile 0
           [openTile 0 0; openTile 1 0; openTile 2 0]
           (setNumCallsTo_path corridor3 1)).
  vm_compute. reflexivity.
Defined.

Lemma path_nonempty_iff_reachable (isDiggable : Tile -> Z -> bool)
      (fuel : nat) (gm : GameMap) (x1 y1 x2 y2 : Z)
      (passability : TileClearType) (color : Z)
      (l : list Tile) (gm' : GameMap) (s d : Tile) :
  getTile gm x1 y1 = Some s ->
  getTile gm x2 y2 = Some d ->
  floodFillEnabled gm && bool_decide (passability = walkableTile)
    && negb (walkablePathExists gm x1 y1 x2 y2) = false ->
  path isDiggable fuel gm x1 y1 x2 y2 passability color = Some (l, gm') ->
  l <> [] <-> stepReachable isDiggable gm passability color s d.
Proof.
  intros H1 H2 Hflood. unfold path.
  set (gm1 := setNumCallsTo_path gm ((numCallsTo_path gm + 1) mod 2 ^ 32)).
  change (getTile gm1) with (getTile gm).
  change (floodFillEnabled gm1) with (floodFillEnabled gm).
  change (walkablePathExists gm1 x1 y1 x2 y2) with (walkablePathExists gm x1 y1 x2 y2).
  rewrite H1, Hflood, H2.
  destruct (searchLoop _ _ _ _ _ _ _ _ _) as [[[|] st]|] eqn:Hloop; [| |done].
  - destruct (searchLoop_inv isDiggable gm1 s _ _ _ _ _ _ _ _ _
                (initialSearch_inv gm1 s x1 y1 x2 y2) Hloop) as [Hinv _].
    destruct (searchLoop_frontier isDiggable gm1 s passability color x1 y1
                fuel d _ _ _
                (initialSearch_inv gm1 s x1 y1 x2 y2)
                (initialSearch_admissible isDiggable s passability color x1 y1 x2 y2)
                (initialSearch_frontier isDiggable gm1 s passability color x1 y1
                   d x2 y2) Hloop) as [Hadm _].
    destruct (findTile (entries st) (closedList st) d) as [pd|] eqn:Hd; [|done].
    destruct (followParents fuel (entries st) pd []) as [r|] eqn:Hf; [|done].
    intros [= <- <-].
    apply find_some in Hd as [Hdin Hdt].
    apply list_elem_of_In in Hdin. apply bool_decide_eq_true in Hdt.
    assert (Hlt : (pd < length (entries st))%nat).
    { apply (inv_bound _ _ _ Hinv). apply elem_of_app. by right. }
    destruct (followParents_chain gm1 s _ _ _ _ _ Hinv Hlt Hf)
      as (l1 & td & Hl1 & _ & Hlast & Htd & Hcons).
    destruct (followParents_admissible isDiggable gm1 s passability color
                _ _ _ _ _ Hinv Hadm Hlt Hf) as (l2 & -> & Hall).
    rewrite !app_nil_r in Hl1. subst l1. rewrite app_nil_r.
    rewrite Hdt in Htd. injection Htd as <-.
    split; [intros _|done].
    apply (stepReachable_same_tiles isDiggable gm gm1); [done|].
    apply (stepReachable_along isDiggable gm1 passability color s s d l2); try done.
    apply steps_here.
  - intros [= <- <-]. split; [done|]. intros Hreach. exfalso.
    destruct (searchLoop_inv isDiggable gm1 s _ _ _ _ _ _ _ _ _
                (initialSearch_inv gm1 s x1 y1 x2 y2) Hloop) as [Hinv _].
    destruct (searchLoop_frontier isDiggable gm1 s passability color x1 y1
                fuel d _ _ _
                (initialSearch_inv gm1 s x1 y1 x2 y2)
                (initialSearch_admissible isDiggable s passability color x1 y1 x2 y2)
                (initialSearch_frontier isDiggable gm1 s passability color x1 y1
                   d x2 y2) Hloop) as [_ Hfr].
    destruct (Hfr eq_refl) as [Hfr' Hopen].
    destruct (stepReachable_closed isDiggable gm1 s passability color d st d
                Hinv Hfr' Hopen) as (p & Hp & Htp).
    + by apply (stepReachable_same_tiles isDiggable gm1 gm).
    + by apply (sf_not_there _ _ _ _ _ _ Hfr' p).
Qed.

(** X5. Unless the flood-fill test has rejected the pair of end points, the list
    returned by [path] between two existing tiles is non-empty exactly when
    the destination can be reached from the start tile by steps to neighbour
    tiles that pass the [switch (passability)]: the search misses no route
    and invents none. *)
Theorem path_finds_reachable (isDiggable : Tile -> Z -> bool)
        (fuel : nat) (gm : GameMap) (x1 y1 x2 y2 : Z)
        (passability : TileClearType) (color : Z)
        (l : list Tile) (gm' : GameMap) (s d : Tile) :
  getTile gm x1 y1 = Some s ->
  getTile gm x2 y2 = Some d ->
  floodFillEnabled gm && bool_decide (passability = walkableTile)
    && negb (walkablePathExists gm x1 y1 x2 y2) = false ->
  path isDiggable fuel gm x1 y1 x2 y2 passability color = Some (l, gm') ->
  l <> [] <-> stepReachable isDiggable gm passability color s d.
Proof. apply path_nonempty_iff_reachable. Qed.

Lemma path_finds_reachable_witness :
  [openTile 0 0; openTile 1 0; openTile 2 0] <> []
  <-> stepReachable neverDiggable corridor3 walkableTile 0 (openTile 0 0) (openTile 2 0).
Proof.
  apply (path_finds_reachable neverDiggable 10 corridor3 0 0 2 0 walkableTile 0
           [openTile 0 0; openTile 1 0; openTile 2 0]
           (setNumCallsTo_path corridor3 1)); vm_compute; reflexivity.
Defined.

(** ** [GameMap::enableFloodFill] and [GameMap::path] together *)

Lemma enableFloodFill_sweep (fuel : nat) (gm : GameMap) :
  gridComplete gm ->
  tilesWellPlaced gm ->
  0 <= mUniqueNumberFloodFilling gm ->
  (size (tiles gm) < fuel)%nat ->
  exists gm',
    enableFloodFill fuel gm = Some gm'
    /\ sweepInv (tiles gm) gm'
    /\ (forall c t, tiles gm' !! c = Some t ->
                    tilePassability t = walkableTile -> floodFillColor t <> -1).
Proof.
  intros Hgrid Hwf Hn Hfuel.
  pose proof (enableFloodFill_reset_inv gm Hgrid Hn) as Hinv0.
  unfold enableFloodFill. cbn [mMapSizeX mMapSizeY setFloodFillEnabled setTiles mapCoords].
  match type of Hinv0 with sweepInv _ ?g => set (gm1 := g) in * end.
  destruct (floodAll_spec (tiles gm) fuel (mapCoords gm) Hwf Hfuel gm1 Hinv0)
    as (gm' & Hrun & Hinv & _ & Hdone & _).
  exists gm'. split; [exact Hrun|]. split; [done|].
  intros [x y] t Ht. apply (Hdone (x, y)); [|done].
  destruct (upToColor_lookup _ _ _ _ (sw_tiles _ _ Hinv) Ht) as (t0 & Ht0 & _).
  unfold mapCoords. apply elem_of_rectCoords.
  destruct (proj1 (Hgrid x y)) as [? ?]; [by (unfold getTile; rewrite Ht0)|]. lia.
Qed.

Lemma reachableOver_impl (W W' : Z * Z -> Prop) (a b : Z * Z) :
  (forall c, W c -> W' c) -> reachableOver W a b -> reachableOver W' a b.
Proof.
  intros HW Hreach. induction Hreach as [a Ha|a b c Hab IH Hadj Hc].
  - apply reach_here. by apply HW.
  - apply reach_step with (b := b); [done|done|]. by apply HW.
Qed.

Lemma walkableAt_upToColor (ts ts' : gmap (Z * Z) Tile) (c : Z * Z) :
  upToColor ts ts' -> walkableAt ts' c -> walkableAt ts c.
Proof.
  intros Hu (t' & Ht' & Hw).
  destruct (upToColor_lookup _ _ _ _ Hu Ht') as (t & Ht & Heq).
  exists t. split; [done|]. rewrite Heq in Hw. done.
Qed.

Lemma stepReachable_walkable (isDiggable : Tile -> Z -> bool) (gm : GameMap)
      (color : Z) (a b : Tile) :
  tilesWellPlaced gm ->
  getTile gm (tile_x a) (tile_y a) = Some a ->
  tilePassability a = walkableTile ->
  stepReachable isDiggable gm walkableTile color a b ->
  walkableReachable (tiles gm) (tile_x a, tile_y a) (tile_x b, tile_y b)
  /\ getTile gm (tile_x b) (tile_y b) = Some b.
Proof.
  intros Hwf Ha Hwa Hreach. induction Hreach as [|b c Hreach [IH1 IH2] Hnb Hpn].
  - split; [|done]. apply reach_here. by exists a.
  - unfold getAllNeighbors in Hnb.
    apply list_elem_of_In, in_map_iff in Hnb as ([cx cy] & Hc & Hin).
    apply list_elem_of_In in Hin. simpl in Hc. unfold getTile in Hc.
    pose proof (Hwf _ _ Hc) as Hxy. simpl in Hxy. injection Hxy as -> ->.
    simpl in Hpn. apply bool_decide_eq_true in Hpn.
    split; [|done].
    apply reach_step with (b := (tile_x b, tile_y b)); [done|done|]. by exists c.
Qed.

(** X8. On a grid that is the rectangle of the map, with every tile at its own
    coordinates, [enableFloodFill] leaves the answers of [path] for the
    walkable class as the search alone would give them, whenever the start
    tile is walkable: the list returned between two existing tiles is
    non-empty exactly when the destination can be reached by steps to
    walkable neighbours. The flood-fill test only ever rejects pairs that the
    search would not connect. *)
Theorem path_after_enableFloodFill (isDiggable : Tile -> Z -> bool)
        (fuel : nat) (gm : GameMap) :
  gridComplete gm ->
  tilesWellPlaced gm ->
  0 <= mUniqueNumberFloodFilling gm ->
  (size (tiles gm) < fuel)%nat ->
  exists gm',
    enableFloodFill fuel gm = Some gm'
    /\ forall fuel' x1 y1 x2 y2 color a b l gm'',
         getTile gm' x1 y1 = Some a -> getTile gm' x2 y2 = Some b ->
         tilePassability a = walkableTile ->
         path isDiggable fuel' gm' x1 y1 x2 y2 walkableTile color = Some (l, gm'') ->
         (l <> [] <-> stepReachable isDiggable gm' walkableTile color a b).
Proof.
  intros Hgrid Hwf Hn Hfuel.
  destruct (enableFloodFill_sweep fuel gm Hgrid Hwf Hn Hfuel)
    as (gm' & Hrun & Hinv & Hall).
  exists gm'. split; [done|].
  intros fuel' x1 y1 x2 y2 color a b l gm'' Ha Hb Hwa Hpath.
  destruct (walkablePathExists gm' x1 y1 x2 y2) eqn:Hcol.
  { apply (path_nonempty_iff_reachable isDiggable fuel' gm' x1 y1 x2 y2
             walkableTile color l gm''); try done.
    by rewrite Hcol, andb_false_r. }
  assert (Hl : l = []).
  { unfold path in Hpath.
    set (gm1 := setNumCallsTo_path gm' ((numCallsTo_path gm' + 1) mod 2 ^ 32)) in Hpath.
    change (getTile gm1) with (getTile gm') in Hpath.
    change (floodFillEnabled gm1) with (floodFillEnabled gm') in Hpath.
    change (walkablePathExists gm1 x1 y1 x2 y2)
      with (walkablePathExists gm' x1 y1 x2 y2) in Hpath.
    rewrite Ha, (sw_enabled _ _ Hinv), Hcol in Hpath.
    rewrite bool_decide_eq_true_2 in Hpath by done.
    simpl in Hpath. by injection Hpath as <- _. }
  subst l. split; [done|]. intros Hreach. exfalso.
  pose proof (upToColor_terrain _ _ Hwf (sw_tiles _ _ Hinv)) as Hter.
  assert (Hwf' : tilesWellPlaced gm').
  { intros c t Ht. by destruct (Hter c t Ht). }
  pose proof (Hwf' _ _ Ha) as Hca. simpl in Hca. injection Hca as Hax Hay.
  destruct (stepReachable_walkable isDiggable gm' color a b Hwf') as [Hr Hb']; try done.
  { unfold getTile. by rewrite Hax, Hay. }
  unfold getTile in Hb, Hb'.
  assert (Hcb : (tile_x b, tile_y b) = (x2, y2)) by apply (Hwf' _ _ Hb).
  rewrite Hax, Hay, Hcb in Hr.
  assert (Hr0 : walkableReachable (tiles gm) (x1, y1) (x2, y2)).
  { apply (reachableOver_impl (walkableAt (tiles gm'))); [|done].
    intros c. apply walkableAt_upToColor. apply Hinv. }
  pose proof (reachable_same_color (tiles gm) (tiles gm') (x1, y1) (x2, y2) a b
                (sw_tiles _ _ Hinv) (sw_closed _ _ Hinv) Hall Hr0 Ha Hb) as Heq.
  unfold walkablePathExists in Hcol. unfold getTile in Hcol, Ha.
  rewrite Ha, Hb in Hcol. by apply bool_decide_eq_false in Hcol.
Qed.

Lemma path_after_enableFloodFill_witness :
  exists gm',
    enableFloodFill 10 walledCorridor = Some gm'
    /\ forall fuel' x1 y1 x2 y2 color a b l gm'',
         getTile gm' x1 y1 = Some a -> getTile gm' x2 y2 = Some b ->
         tilePassability a = walkableTile ->
         path neverDiggable fuel' gm' x1 y1 x2 y2 walkableTile color = Some (l, gm'') ->
         (l <> [] <-> stepReachable neverDiggable gm' walkableTile color a b).
Proof.
  apply (path_after_enableFloodFill neverDiggable 10 walledCorridor).
  - apply rectMap_gridComplete.
  - apply rectMap_wellPlaced. intros x y. by case_bool_decide.
  - simpl. lia.
  - vm_compute. lia.
Defined.

(** ** [GameMap::path] returns *)

Lemma path_returns_witness :
  is_Some (path neverDiggable 10 corridor3 0 0 2 0 walkableTile 0).
Proof.
  apply (path_returns neverDiggable 10 corridor3 0 0 2 0 walkableTile 0).
  vm_compute. lia.
Defined.

(** ** [GameMap::pathExists] and [GameMap::walkablePathExists] *)

Lemma path_ends (isDiggable : Tile -> Z -> bool)
      (fuel : nat) (gm : GameMap) (x1 y1 x2 y2 : Z)
      (passability : TileClearType) (color : Z)
      (l : list Tile) (gm' : GameMap) :
  path isDiggable fuel gm x1 y1 x2 y2 passability color = Some (l, gm') ->
  l <> [] ->
  head l = getTile gm x1 y1 /\ last l = getTile gm x2 y2.
Proof.
  unfold path.
  set (gm1 := setNumCallsTo_path gm ((numCallsTo_path gm + 1) mod 2 ^ 32)).
  change (getTile gm1) with (getTile gm).
  destruct (getTile gm x1 y1) as [start|] eqn:H1; [|by intros [= <- <-]].
  destruct (_ && _); [by intros [= <- <-]|].
  destruct (getTile gm x2 y2) as [destination|] eqn:H2; [|by intros [= <- <-]].
  destruct (searchLoop _ _ _ _ _ _ _ _ _) as [[[|] st]|] eqn:Hloop;
    [|by intros [= <- <-]|done].
  destruct (searchLoop_inv isDiggable gm1 start _ _ _ _ _ _ _ _ _
              (initialSearch_inv gm1 start x1 y1 x2 y2) Hloop) as [Hinv _].
  destruct (findTile (entries st) (closedList st) destination) as [d|] eqn:Hd; [|done].
  destruct (followParents fuel (entries st) d []) as [r|] eqn:Hf; [|done].
  intros [= <- <-] _.
  apply find_some in Hd as [Hdin Hdt].
  apply list_elem_of_In in Hdin. apply bool_decide_eq_true in Hdt.
  apply (followParents_chain gm1 start) in Hf; [|done|].
  2:{ apply (inv_bound _ _ _ Hinv). apply elem_of_app. by right. }
  destruct Hf as (l' & td & -> & Hhd & Hlast & Htd & _).
  rewrite app_nil_r. rewrite Hdt in Htd. by injection Htd as <-.
Qed.

(** X9. For a passability class other than the walkable one, [pathExists]
    between two existing tiles gives [true] exactly when the two tiles are
    different and the search can reach the second from the first.  On one
    and the same tile it gives [false]: the list of [path] has one tile, and
    the test is [size() >= 2]. *)
Theorem pathExists_finds_reachable (isDiggable : Tile -> Z -> bool)
        (fuel : nat) (gm : GameMap) (x1 y1 x2 y2 : Z)
        (passability : TileClearType) (color : Z)
        (r : bool) (gm' : GameMap) (s d : Tile) :
  passability <> walkableTile ->
  getTile gm x1 y1 = Some s ->
  getTile gm x2 y2 = Some d ->
  pathExists isDiggable fuel gm x1 y1 x2 y2 passability color = Some (r, gm') ->
  r = true <-> (s <> d /\ stepReachable isDiggable gm passability color s d).
Proof.
  intros Hp H1 H2. unfold pathExists.
  rewrite bool_decide_eq_false_2 by done.
  destruct (path isDiggable fuel gm x1 y1 x2 y2 passability color)
    as [[l gm'']|] eqn:Hpath; [|done].
  intros [= <- <-].
  assert (Hiff : l <> [] <-> stepReachable isDiggable gm passability color s d).
  { apply (path_nonempty_iff_reachable isDiggable fuel gm x1 y1 x2 y2
             passability color l gm''); try done.
    rewrite (bool_decide_eq_false_2 (passability = walkableTile)) by done.
    by rewrite andb_false_r. }
  assert (Hnd : NoDup l).
  { unfold path in Hpath.
    set (gm1 := setNumCallsTo_path gm ((numCallsTo_path gm + 1) mod 2 ^ 32)) in Hpath.
    destruct (getTile gm1 x1 y1) as [start|] eqn:H1';
      [|injection Hpath as <- _; apply NoDup_nil_2].
    destruct (_ && _); [injection Hpath as <- _; apply NoDup_nil_2|].
    destruct (getTile gm1 x2 y2) as [destination|] eqn:H2';
      [|injection Hpath as <- _; apply NoDup_nil_2].
    destruct (searchLoop _ _ _ _ _ _ _ _ _) as [[[|] st]|] eqn:Hloop;
      [|injection Hpath as <- _; apply NoDup_nil_2|done].
    destruct (searchLoop_inv isDiggable gm1 start _ _ _ _ _ _ _ _ _
                (initialSearch_inv gm1 start x1 y1 x2 y2) Hloop) as [Hinv _].
    pose proof (searchLoop_bound isDiggable gm1 start passability color x1 y1
                  fuel destination _ _ _
                  (initialSearch_inv gm1 start x1 y1 x2 y2)
                  (initialSearch_bound gm1 start x1 y1 x2 y2 H1') Hloop) as Hbd.
    destruct (findTile (entries st) (closedList st) destination) as [pd|] eqn:Hd; [|done].
    destruct (followParents fuel (entries st) pd []) as [rl|] eqn:Hf; [|done].
    injection Hpath as <- _.
    apply find_some in Hd as [Hdin _]. apply list_elem_of_In in Hdin.
    apply (followParents_nodup gm1 start) in Hf; [|done|done|done].
    destruct Hf as (l' & -> & Hnd & _). by rewrite app_nil_r. }
  rewrite bool_decide_eq_true. split.
  - intros Hlen.
    assert (Hne : l <> []) by (intros ->; simpl in Hlen; lia).
    split; [|by apply Hiff].
    destruct (path_ends _ _ _ _ _ _ _ _ _ _ _ Hpath Hne) as [Hhd Hlast].
    rewrite H1 in Hhd. rewrite H2 in Hlast.
    destruct l as [|a [|b l]]; simpl in Hlen; [lia|lia|].
    simpl in Hhd. injection Hhd as ->.
    apply NoDup_cons in Hnd as [Hs _]. intros ->. apply Hs.
    change (last (d :: b :: l)) with (last (b :: l)) in Hlast.
    rewrite last_lookup in Hlast. by eapply list_elem_of_lookup_2.
  - intros [Hsd Hreach]. apply Hiff in Hreach.
    destruct (path_ends _ _ _ _ _ _ _ _ _ _ _ Hpath Hreach) as [Hhd Hlast].
    rewrite H1 in Hhd. rewrite H2 in Hlast.
    destruct l as [|a [|b l]]; [done| |simpl; lia].
    simpl in Hhd, Hlast. congruence.
Qed.

Lemma pathExists_finds_reachable_witness :
  true = true
  <-> (openTile 0 0 <> openTile 2 0
       /\ stepReachable neverDiggable corridor3 flyableTile 0 (openTile 0 0) (openTile 2 0)).
Proof.
  apply (pathExists_finds_reachable neverDiggable 10 corridor3 0 0 2 0 flyableTile 0
           true (setNumCallsTo_path corridor3 1)).
  - discriminate.
  - vm_compute. reflexivity.
  - vm_compute. reflexivity.
  - vm_compute. reflexivity.
Defined.

(** X10. [walkablePathExists] is an equivalence on the coordinate pairs that have
    a tile: it holds of a pair with itself exactly when the tile exists, it
    does not depend on the order of the two pairs, and it is transitive. It
    reads nothing but the two colors, so it holds of two tiles that are not
    walkable whenever their colors agree. *)
Theorem walkablePathExists_equivalence (gm : GameMap) (x1 y1 x2 y2 x3 y3 : Z) :
  (walkablePathExists gm x1 y1 x1 y1 = true <-> is_Some (getTile gm x1 y1))
  /\ walkablePathExists gm x1 y1 x2 y2 = walkablePathExists gm x2 y2 x1 y1
  /\ (walkablePathExists gm x1 y1 x2 y2 = true ->
      walkablePathExists gm x2 y2 x3 y3 = true ->
      walkablePathExists gm x1 y1 x3 y3 = true).
Proof.
  unfold walkablePathExists.
  split; [|split].
  - destruct (getTile gm x1 y1) as [a|].
    + split; [by eauto|]. intros _. by apply bool_decide_eq_true_2.
    + split; [done|]. by intros [? ?].
  - destruct (getTile gm x1 y1) as [a|], (getTile gm x2 y2) as [b|]; try done.
    apply bool_decide_ext. split; congruence.
  - destruct (getTile gm x1 y1) as [a|], (getTile gm x2 y2) as [b|],
             (getTile gm x3 y3) as [c|]; try done.
    rewrite !bool_decide_eq_true. congruence.
Qed.

(** ** [GameMap::pathIsClear] *)

Lemma pathIsClearLoop_walkable (l : list Tile) :
  exists b, pathIsClearLoop walkableTile l = Some b
            /\ (b = true <-> Forall (fun t => tilePassability t = walkableTile) l).
Proof.
  induction l as [|t l (b & IH & Hb)]; simpl.
  - exists true. split; [done|]. split; [by constructor|done].
  - case_bool_decide as Ht.
    + exists b. split; [done|]. rewrite Hb. split.
      * intros Hl. by constructor.
      * intros Hl. by apply Forall_cons in Hl as [_ ?].
    + exists false. split; [done|]. split; [done|].
      intros Hl. by apply Forall_cons in Hl as [? _].
Qed.

Lemma pathIsClearLoop_flyable (l : list Tile) :
  exists b, pathIsClearLoop flyableTile l = Some b
            /\ (b = true <-> Forall (fun t => tilePassability t = walkableTile
                                              \/ tilePassability t = flyableTile) l).
Proof.
  induction l as [|t l (b & IH & Hb)]; simpl.
  - exists true. split; [done|]. split; [by constructor|done].
  - destruct (bool_decide (tilePassability t = walkableTile)
              || bool_decide (tilePassability t = flyableTile)) eqn:Ht.
    + apply orb_true_iff in Ht. rewrite !bool_decide_eq_true in Ht.
      exists b. split; [done|]. rewrite Hb. split.
      * intros Hl. by constructor.
      * intros Hl. by apply Forall_cons in Hl as [_ ?].
    + apply orb_false_iff in Ht as [Hw Hf].
      apply bool_decide_eq_false in Hw, Hf.
      exists false. split; [done|]. split; [done|].
      intros Hl. apply Forall_cons in Hl as [[?|?] _]; done.
Qed.

(** X11. What [pathIsClear] answers, class by class.  For the walkable class: the
    list is not empty and every tile is walkable.  For the flyable class: the
    list is not empty and every tile is walkable or flyable.  For the
    impassable class: never.  For the diggable class an empty list is not
    clear, and any other list ends the process. *)
Theorem pathIsClear_by_class (l : list Tile) :
  (pathIsClear l walkableTile = Some true
   <-> l <> [] /\ Forall (fun t => tilePassability t = walkableTile) l)
  /\ (pathIsClear l flyableTile = Some true
      <-> l <> [] /\ Forall (fun t => tilePassability t = walkableTile
                                      \/ tilePassability t = flyableTile) l)
  /\ is_Some (pathIsClear l walkableTile)
  /\ is_Some (pathIsClear l flyableTile)
  /\ pathIsClear l impassableTile = Some false
  /\ pathIsClear l diggableTile = (if l is [] then Some false else None).
Proof.
  destruct (pathIsClearLoop_walkable l) as (bw & Hw & Hbw).
  destruct (pathIsClearLoop_flyable l) as (bf & Hf & Hbf).
  destruct l as [|t l].
  { split; [split; [done|by intros [? _]]|].
    split; [split; [done|by intros [? _]]|]. by repeat split; eauto. }
  unfold pathIsClear. rewrite Hw, Hf.
  split; [|split; [|split; [by eauto|split; [by eauto|done]]]].
  - rewrite <- Hbw. split; [intros [= ->]; done|intros [_ ->]; done].
  - rewrite <- Hbf. split; [intros [= ->]; done|intros [_ ->]; done].
Qed.

(** ** [GameMap::cutCorners]: what is left of the path *)

Lemma eraseRange_sublist (l : list Tile) (first last_ : nat) :
  (first <= last_)%nat -> sublist (eraseRange l first last_) l.
Proof.
  intros Hle. unfold eraseRange.
  rewrite <- (take_drop first l) at 3.
  apply sublist_app; [done|].
  replace last_ with (first + (last_ - first))%nat by lia.
  rewrite <- drop_drop. apply sublist_drop.
Qed.

Lemma cutCornersLoop_sublist (fuel : nat) (gm : GameMap) (passability : TileClearType)
      (path : list Tile) (t1 : nat) (r : list Tile) :
  cutCornersLoop fuel gm passability path t1 = Returned r -> sublist r path.
Proof.
  revert path t1.
  induction fuel as [|fuel IH]; intros path t1; cbn [cutCornersLoop]; [done|].
  destruct (path !! t1) as [tile1|] eqn:Ht1; [|by intros [= <-]].
  destruct (advanceLookahead gm passability tile1 (drop (S t1) path)) as [k|]; [|done].
  destruct (bool_decide (S t1 <> S t1 + k)%nat) eqn:H32; [|apply IH].
  destruct (bool_decide (S t1 <> S t1 + k - 1)%nat) eqn:H34; [|apply IH].
  intros Hr. apply IH in Hr. etrans; [exact Hr|].
  apply bool_decide_eq_true in H32. apply eraseRange_sublist. lia.
Qed.

(** X12. The list that [cutCorners] leaves is the path with some tiles taken out:
    it holds tiles of the path only, in the order of the path. *)
Theorem cutCorners_keeps_order (gm : GameMap) (path : list Tile)
        (passability : TileClearType) (r : list Tile) :
  cutCorners gm path passability = Returned r -> sublist r path.
Proof.
  unfold cutCorners. destruct (bool_decide (length path <= 3)%nat).
  - by intros [= <-].
  - apply cutCornersLoop_sublist.
Qed.

Lemma cutCorners_keeps_order_witness :
  sublist [openTile 0 0; openTile 4 0]
          [openTile 0 0; openTile 1 0; openTile 2 0; openTile 3 0; openTile 4 0].
Proof.
  apply (cutCorners_keeps_order (rectMap 5 1 openTile)
           [openTile 0 0; openTile 1 0; openTile 2 0; openTile 3 0; openTile 4 0]
           walkableTile [openTile 0 0; openTile 4 0]).
  vm_compute. reflexivity.
Defined.

Lemma pathIsClear_impassable (l : list Tile) :
  pathIsClear l impassableTile = Some false.
Proof. by destruct l. Qed.

Lemma advanceLookahead_impassable (gm : GameMap) (t1 : Tile) (l : list Tile) :
  advanceLookahead gm impassableTile t1 l = Some 0%nat.
Proof. destruct l as [|t2 l]; [done|]. simpl. by rewrite pathIsClear_impassable. Qed.

Lemma cutCornersLoop_impassable (fuel : nat) (gm : GameMap) (path : list Tile) (t1 : nat) :
  (t1 <= length path)%nat ->
  (length path < fuel + t1)%nat ->
  cutCornersLoop fuel gm impassableTile path t1 = Returned path.
Proof.
  revert t1. induction fuel as [|fuel IH]; intros t1 Hle Hfuel; cbn [cutCornersLoop].
  { lia. }
  destruct (path !! t1) as [tile1|] eqn:Ht1; [|done].
  apply lookup_lt_Some in Ht1.
  rewrite advanceLookahead_impassable.
  rewrite bool_decide_eq_false_2 by lia.
  apply IH; lia.
Qed.

(** X13. With the impassable class no line of sight is ever clear, and
    [cutCorners] returns the path as it was, whatever its length. *)
Theorem cutCorners_impassable_unchanged (gm : GameMap) (path : list Tile) :
  cutCorners gm path impassableTile = Returned path.
Proof.
  unfold cutCorners. destruct (bool_decide (length path <= 3)%nat); [done|].
  apply cutCornersLoop_impassable; lia.
Qed.

(** ** [GameMap::lineOfSight]: length and first tile *)

Lemma lineOfSightLoop_length (gm : GameMap) (steep : bool) (xstep ystep : Z)
      (TwoDy TwoDyTwoDx : Z) (n : nat) (x y E : Z) (l : list Tile) :
  lineOfSightLoop gm steep xstep ystep TwoDy TwoDyTwoDx n x y E = Some l ->
  (n <= length l <= 2 * n)%nat
  /\ (n <> 0%nat ->
      head l = getTile gm (if steep then y else x) (if steep then x else y)).
Proof.
  revert x y E l. induction n as [|n IH]; intros x y E l; cbn [lineOfSightLoop].
  { intros [= <-]. simpl. split; [lia|done]. }
  destruct (getTile gm (if steep then y else x) (if steep then x else y))
    as [currentTile|]; [|done].
  destruct (0 <? E).
  - destruct (getTile gm _ y) as [currentTile'|]; [|done].
    destruct (lineOfSightLoop _ _ _ _ _ _ _ _ _ _) as [rest|] eqn:Hrest; [|done].
    intros [= <-]. destruct (IH _ _ _ _ Hrest) as [Hlen _]. simpl. split; [lia|done].
  - destruct (lineOfSightLoop _ _ _ _ _ _ _ _ _ _) as [rest|] eqn:Hrest; [|done].
    intros [= <-]. destruct (IH _ _ _ _ Hrest) as [Hlen _]. simpl. split; [lia|done].
Qed.

(** X14. The list of [lineOfSight] has at most twice as many tiles as the longer
    side of the rectangle spanned by the two ends; from a pair of coordinates
    to itself it is empty. When it is not empty it has at least as many
    tiles as that side is long, and its first tile is the tile at
    [(x0, y0)]. *)
Theorem lineOfSight_length_and_head (gm : GameMap) (x0 y0 x1 y1 : Z) :
  let l := lineOfSight gm x0 y0 x1 y1 in
  let d := Z.to_nat (Z.max (Z.abs (x1 - x0)) (Z.abs (y1 - y0))) in
  (length l <= 2 * d)%nat
  /\ (l <> [] -> (d <= length l)%nat /\ head l = getTile gm x0 y0).
Proof.
  unfold lineOfSight. cbv zeta.
  destruct (Z.abs (y1 - y0) >=? Z.abs (x1 - x0)) eqn:Hsteep.
  - apply Z.geb_le in Hsteep.
    replace (Z.max (Z.abs (x1 - x0)) (Z.abs (y1 - y0))) with (Z.abs (y1 - y0)) by lia.
    replace (if y1 - y0 <? 0 then - (y1 - y0) else y1 - y0) with (Z.abs (y1 - y0))
      by (destruct (Z.ltb_spec (y1 - y0) 0); lia).
    destruct (lineOfSightLoop _ _ _ _ _ _ _ _ _ _) as [l|] eqn:Hl; simpl;
      [|split; [lia|done]].
    destruct (lineOfSightLoop_length _ _ _ _ _ _ _ _ _ _ _ Hl) as [Hlen Hhd].
    split; [lia|]. intros Hne. split; [lia|]. apply Hhd. intros Hn.
    rewrite Hn in Hlen. destruct l; [done|simpl in Hlen; lia].
  - rewrite Z.geb_leb in Hsteep. apply Z.leb_gt in Hsteep.
    replace (Z.max (Z.abs (x1 - x0)) (Z.abs (y1 - y0))) with (Z.abs (x1 - x0)) by lia.
    replace (if x1 - x0 <? 0 then - (x1 - x0) else x1 - x0) with (Z.abs (x1 - x0))
      by (destruct (Z.ltb_spec (x1 - x0) 0); lia).
    destruct (lineOfSightLoop _ _ _ _ _ _ _ _ _ _) as [l|] eqn:Hl; simpl;
      [|split; [lia|done]].
    destruct (lineOfSightLoop_length _ _ _ _ _ _ _ _ _ _ _ Hl) as [Hlen Hhd].
    split; [lia|]. intros Hne. split; [lia|]. apply Hhd. intros Hn.
    rewrite Hn in Hlen. destruct l; [done|simpl in Hlen; lia].
Qed.

(** ** [GameMap::visibleTiles]: what is queued and what is culled *)

Lemma filter_sublist {A : Type} (f : A -> bool) (l : list A) :
  sublist (List.filter f l) l.
Proof.
  induction l as [|a l IH]; simpl; [done|].
  destruct (f a); [by apply sublist_skip|by apply sublist_cons].
Qed.

Section VisibilityQueue.

Variable Angle : Type.
Variable getRadiusSquared : nat -> Z.
Variable getCoordinate : nat -> Z * Z.
Variable getCentralTheta : nat -> Angle.
Variable isObscured : Z -> Z -> Angle -> bool.
Variable roundDouble : Q -> Q.

Local Abbreviation fillTileQueue := (fillTileQueue Angle getRadiusSquared getCoordinate getCentralTheta).
Local Abbreviation scanTileQueue := (scanTileQueue Angle isObscured).

Lemma fillTileQueue_entries (fuel : nat) (gm : GameMap) (startX startY r2 : Z)
      (tileCounter : nat) (q : list (Tile * Angle)) :
  fillTileQueue fuel gm startX startY r2 tileCounter = Some q ->
  forall e, e ∈ q ->
    exists n, (tileCounter <= n)%nat
              /\ getRadiusSquared n <= r2
              /\ getTile gm (startX + fst (getCoordinate n))
                            (startY + snd (getCoordinate n)) = Some (fst e)
              /\ snd e = getCentralTheta n.
Proof.
  revert tileCounter q.
  induction fuel as [|fuel IH]; intros tileCounter q; simpl; [done|].
  destruct (Z.ltb_spec r2 (getRadiusSquared tileCounter)) as [Hlt|Hge].
  { intros [= <-] e He. by apply elem_of_nil in He. }
  destruct (fillTileQueue fuel gm startX startY r2 (S tileCounter))
    as [rest|] eqn:Hrest; [|done].
  assert (Hin : forall e, e ∈ rest ->
            exists n, (tileCounter <= n)%nat
              /\ getRadiusSquared n <= r2
              /\ getTile gm (startX + fst (getCoordinate n))
                            (startY + snd (getCoordinate n)) = Some (fst e)
              /\ snd e = getCentralTheta n).
  { intros e He. destruct (IH _ _ Hrest e He) as (n & Hn & ?).
    exists n. split; [lia|done]. }
  destruct (getTile gm _ _) as [tempTile|] eqn:Ht; intros [= <-] e He.
  - apply elem_of_cons in He as [-> | He]; [|by apply Hin].
    exists tileCounter. done.
  - by apply Hin.
Qed.

Lemma scanTileQueue_sublist (fuel : nat) (startTile : Tile)
      (q : list (Tile * Angle)) (l : list Tile) :
  scanTileQueue fuel startTile q = Some l ->
  sublist l (fst <$> q) /\ head l = head (fst <$> q).
Proof.
  revert q l. induction fuel as [|fuel IH]; intros q l; simpl; [done|].
  destruct q as [|[t a] q]; [by intros [= <-]|].
  destruct (permitsVision t).
  - destruct (scanTileQueue fuel startTile q) as [rest|] eqn:Hrest; [|done].
    intros [= <-]. destruct (IH _ _ Hrest) as [Hsub _].
    split; [|done]. by apply sublist_skip.
  - match goal with
    | |- context [scanTileQueue fuel startTile ?q1] =>
        destruct (scanTileQueue fuel startTile q1) as [rest|] eqn:Hrest; [|done]
    end.
    intros [= <-]. destruct (IH _ _ Hrest) as [Hsub _].
    split; [|done]. rewrite fmap_cons. apply sublist_skip.
    etrans; [exact Hsub|]. apply fmap_sublist, filter_sublist.
Qed.

Lemma scanTileQueue_transparent (fuel : nat) (startTile : Tile)
      (q : list (Tile * Angle)) (l : list Tile) :
  (forall e, e ∈ q -> permitsVision (fst e) = true) ->
  scanTileQueue fuel startTile q = Some l ->
  l = fst <$> q.
Proof.
  revert q l. induction fuel as [|fuel IH]; intros q l Hq; simpl; [done|].
  destruct q as [|[t a] q]; [by intros [= <-]|].
  assert (Ht : permitsVision t = true) by (apply (Hq (t, a)); apply elem_of_cons; by left).
  rewrite Ht.
  destruct (scanTileQueue fuel startTile q) as [rest|] eqn:Hrest; [|done].
  intros [= <-]. rewrite fmap_cons. f_equal. apply IH; [|done].
  intros e He. apply Hq. apply elem_of_cons. by right.
Qed.

(** X16. [visibleTiles] returns nothing for a start tile that does not permit
    vision, and otherwise only tiles of the grid that sit at an offset of the
    table whose squared radius is at most the bound of the first loop: the
    square of the sight radius as the machine rounds it, truncated by the
    cast to [int]. *)
Theorem visibleTiles_within_radius (fuel : nat) (gm : GameMap) (startTile : Tile)
        (sightRadius : Q) (l : list Tile) :
  visibleTiles Angle getRadiusSquared getCoordinate getCentralTheta isObscured
               roundDouble fuel gm startTile sightRadius = Some l ->
  (permitsVision startTile = false -> l = [])
  /\ forall t, t ∈ l ->
       exists n, getRadiusSquared n <= truncate (roundDouble (sightRadius * sightRadius))
                 /\ getTile gm (tile_x startTile + fst (getCoordinate n))
                               (tile_y startTile + snd (getCoordinate n)) = Some t.
Proof.
  unfold visibleTiles. destruct (permitsVision startTile); simpl.
  2:{ intros [= <-]. split; [done|]. intros t Ht. by apply elem_of_nil in Ht. }
  destruct (fillTileQueue fuel gm (tile_x startTile) (tile_y startTile)
              (truncate (roundDouble (sightRadius * sightRadius))) 0) as [q|] eqn:Hq; [|done].
  intros Hl. split; [done|]. intros t Ht.
  destruct (scanTileQueue_sublist _ _ _ _ Hl) as [Hsub _].
  apply (fun H => elem_of_sublist _ _ _ H Hsub) in Ht.
  apply list_elem_of_fmap in Ht as (e & -> & He).
  destruct (fillTileQueue_entries _ _ _ _ _ _ _ Hq e He) as (n & _ & Hr & Hn & _).
  by exists n.
Qed.

(** X17. The second loop of [visibleTiles] only takes tiles out of the queue that
    the first loop has built up to its bound, the rounded square of the sight
    radius truncated by the cast to [int]: the result is a part of the
    queued tiles, in their order, and begins with the first of them. When
    every queued tile permits vision nothing is taken out. *)
Theorem visibleTiles_culls_only (fuel : nat) (gm : GameMap) (startTile : Tile)
        (sightRadius : Q) (l : list Tile) :
  permitsVision startTile = true ->
  visibleTiles Angle getRadiusSquared getCoordinate getCentralTheta isObscured
               roundDouble fuel gm startTile sightRadius = Some l ->
  exists q,
    fillTileQueue fuel gm (tile_x startTile) (tile_y startTile)
                  (truncate (roundDouble (sightRadius * sightRadius))) 0 = Some q
    /\ sublist l (fst <$> q)
    /\ head l = head (fst <$> q)
    /\ ((forall e, e ∈ q -> permitsVision (fst e) = true) -> l = fst <$> q).
Proof.
  intros Hstart. unfold visibleTiles. rewrite Hstart. simpl.
  destruct (fillTileQueue fuel gm (tile_x startTile) (tile_y startTile)
              (truncate (roundDouble (sightRadius * sightRadius))) 0) as [q|] eqn:Hq; [|done].
  intros Hl. exists q. split; [done|].
  destruct (scanTileQueue_sublist _ _ _ _ Hl) as [Hsub Hhd].
  split; [done|]. split; [done|].
  intros Hall. by apply (scanTileQueue_transparent fuel startTile).
Qed.

End VisibilityQueue.

Lemma visibleTiles_within_radius_witness :
  (permitsVision (openTile 0 0) = false -> [openTile 0 0; openTile 1 0] = [])
  /\ forall t, t ∈ [openTile 0 0; openTile 1 0] ->
       exists n, exampleRadiusSquared n <= truncate (exactDouble (1 * 1))
                 /\ getTile corridor3 (tile_x (openTile 0 0) + fst (exampleCoordinate n))
                                      (tile_y (openTile 0 0) + snd (exampleCoordinate n))
                    = Some t.
Proof.
  apply (visibleTiles_within_radius unit exampleRadiusSquared exampleCoordinate
           exampleCentralTheta exampleObscured exactDouble 10 corridor3
           (openTile 0 0) 1
           [openTile 0 0; openTile 1 0]).
  vm_compute. reflexivity.
Defined.

Lemma visibleTiles_culls_only_witness :
  exists q,
    fillTileQueue unit exampleRadiusSquared exampleCoordinate exampleCentralTheta
                  10 corridor3 (tile_x (openTile 0 0)) (tile_y (openTile 0 0))
                  (truncate (exactDouble (1 * 1))) 0 = Some q
    /\ sublist [openTile 0 0; openTile 1 0] (fst <$> q)
    /\ head [openTile 0 0; openTile 1 0] = head (fst <$> q)
    /\ ((forall e, e ∈ q -> permitsVision (fst e) = true) ->
        [openTile 0 0; openTile 1 0] = fst <$> q).
Proof.
  apply (visibleTiles_culls_only unit exampleRadiusSquared exampleCoordinate
           exampleCentralTheta exampleObscured exactDouble 10 corridor3
           (openTile 0 0) 1
           [openTile 0 0; openTile 1 0]).
  - reflexivity.
  - vm_compute. reflexivity.
Defined.

(** ** Vectors of entity pointers *)

Section EntityVectorProperties.

Context {Entity : Type} `{EqDecision Entity}.

Lemma eraseFirst_absent (a : Entity) (v : list Entity) :
  a ∉ v -> eraseFirst a v = v.
Proof.
  induction v as [|b v IH]; intros Ha; simpl; [done|].
  destruct (decide (a = b)) as [->|Hne].
  - exfalso. apply Ha. by left.
  - f_equal. apply IH. intros Hin. apply Ha. by right.
Qed.

Lemma eraseFirst_present (a : Entity) (v : list Entity) :
  a ∈ v -> v ≡ₚ a :: eraseFirst a v.
Proof.
  induction v as [|b v IH]; intros Ha; simpl; [by apply elem_of_nil in Ha|].
  destruct (decide (a = b)) as [->|Hne]; [done|].
  apply elem_of_cons in Ha as [Ha|Ha]; [done|].
  rewrite (IH Ha) at 1. apply Permutation_swap.
Qed.

Lemma eraseFirst_sublist (a : Entity) (v : list Entity) :
  sublist (eraseFirst a v) v.
Proof.
  induction v as [|b v IH]; simpl; [done|].
  destruct (decide (a = b)); [by apply sublist_cons|by apply sublist_skip].
Qed.

Lemma eraseFirst_middle (a : Entity) (pre post : list Entity) :
  a ∉ pre -> eraseFirst a (pre ++ a :: post) = pre ++ post.
Proof.
  induction pre as [|b pre IH]; intros Ha; simpl.
  - by rewrite decide_True.
  - destruct (decide (a = b)) as [->|Hne].
    + exfalso. apply Ha. by left.
    + f_equal. apply IH. intros Hin. apply Ha. by right.
Qed.

(** X25. [removeAnimatedObject] takes out one occurrence of the pointer, the
    first one, and nothing else: the vector is unchanged when the pointer is
    not in it; when the vector is [pre], the pointer, [post], with the
    pointer not in [pre], what is left is [pre] and [post], later
    occurrences in [post] included; so it is the old vector less one
    occurrence, the other entries in their order. A removal after an
    addition gives the entries of the old vector back; the vector itself
    when the pointer was not in it before. *)
Theorem removeAnimatedObject_one_occurrence (animatedObjects : list Entity)
        (a : Entity) :
  (a ∉ animatedObjects -> removeAnimatedObject animatedObjects a = animatedObjects)
  /\ (forall pre post : list Entity,
        animatedObjects = pre ++ a :: post -> a ∉ pre ->
        removeAnimatedObject animatedObjects a = pre ++ post)
  /\ (a ∈ animatedObjects ->
      animatedObjects ≡ₚ a :: removeAnimatedObject animatedObjects a)
  /\ sublist (removeAnimatedObject animatedObjects a) animatedObjects
  /\ removeAnimatedObject (addAnimatedObject animatedObjects a) a ≡ₚ animatedObjects
  /\ (a ∉ animatedObjects ->
      removeAnimatedObject (addAnimatedObject animatedObjects a) a = animatedObjects).
Proof.
  unfold removeAnimatedObject, addAnimatedObject.
  split; [apply eraseFirst_absent|].
  split; [intros pre post -> Hpre; by apply eraseFirst_middle|].
  split; [apply eraseFirst_present|].
  split; [apply eraseFirst_sublist|]. split.
  - apply (Permutation_cons_inv (a := a)).
    rewrite <- eraseFirst_present by (apply elem_of_app; right; by left).
    by rewrite <- Permutation_cons_append.
  - intros Ha. rewrite eraseFirst_middle by done. by rewrite app_nil_r.
Qed.

Section Upkeep.

Context {World : Type}.
Variable doUpkeep : Entity -> World -> bool * World.

Lemma activeObjectsUpkeep_from (fuel : nat) (pre l : list Entity) (w : World) :
  Z.of_nat (length (pre ++ l)) < 2 ^ 32 ->
  (length l < fuel)%nat ->
  activeObjectsUpkeep doUpkeep fuel (pre ++ l) (Z.of_nat (length pre)) w
  = Some (pre ++ fst (upkeepEach doUpkeep l w), snd (upkeepEach doUpkeep l w)).
Proof.
  revert pre l w. induction fuel as [|fuel IH]; intros pre l w Hsize Hfuel; [lia|].
  cbn [activeObjectsUpkeep]. rewrite Nat2Z.id.
  destruct l as [|ge l].
  - rewrite app_nil_r, Z.ltb_irrefl. simpl. by rewrite app_nil_r.
  - rewrite (proj2 (Z.ltb_lt _ _)) by (rewrite length_app; simpl; lia).
    rewrite list_lookup_middle by done.
    cbn [upkeepEach]. destruct (doUpkeep ge w) as [stays w'].
    destruct stays; cbn [negb].
    + replace ((Z.of_nat (length pre) + 1) mod 2 ^ 32)
        with (Z.of_nat (length (pre ++ [ge]))).
      2:{ rewrite length_app in *. simpl in *. rewrite Z.mod_small; lia. }
      replace (pre ++ ge :: l) with ((pre ++ [ge]) ++ l) by (by rewrite <- app_assoc).
      rewrite IH.
      * destruct (upkeepEach doUpkeep l w') as [kept w'']. simpl.
        by rewrite <- app_assoc.
      * by rewrite <- app_assoc.
      * simpl in Hfuel. lia.
    + replace (delete (length pre) (pre ++ ge :: l)) with (pre ++ l).
      2:{ rewrite delete_middle. done. }
      rewrite IH.
      * by destruct (upkeepEach doUpkeep l w') as [kept w''].
      * rewrite length_app in *. simpl in *. lia.
      * simpl in Hfuel. lia.
Qed.

(** X23. The upkeep round of the active objects runs the upkeep of every object
    of the vector once, in the order of the vector, and leaves the objects
    whose upkeep said that they stay, in that order: the erasure inside the
    loop passes over no object and visits none twice. The loop returns with
    fuel above the number of objects. *)
Theorem activeObjectsUpkeep_each_once (fuel : nat) (activeObjects : list Entity)
        (w : World) :
  Z.of_nat (length activeObjects) < 2 ^ 32 ->
  (length activeObjects < fuel)%nat ->
  activeObjectsUpkeep doUpkeep fuel activeObjects 0 w
  = Some (upkeepEach doUpkeep activeObjects w).
Proof.
  intros Hsize Hfuel.
  pose proof (activeObjectsUpkeep_from fuel [] activeObjects w Hsize Hfuel) as H.
  change (Z.of_nat (length (@nil Entity))) with 0 in H. cbn [app] in H. rewrite H.
  by destruct (upkeepEach doUpkeep activeObjects w).
Qed.

End Upkeep.

Section EmptyRooms.

Variable isActive : Entity -> bool.
Variable numCoveredTiles : Entity -> Z.

Lemma removeEmptyRooms_from (fuel : nat) (pre l active : list Entity) :
  Forall (fun r => numCoveredTiles r <> 0) pre ->
  Z.of_nat (length (pre ++ l)) < 2 ^ 31 ->
  (length l < fuel)%nat ->
  removeEmptyRooms isActive numCoveredTiles fuel (Z.of_nat (length pre))
                   (pre ++ l, active)
  = Some (pre ++ List.filter (fun r => negb (numCoveredTiles r =? 0)) l,
          fold_left (removeActiveObject isActive)
                    (List.filter (fun r => numCoveredTiles r =? 0) l) active).
Proof.
  revert pre l active.
  induction fuel as [|fuel IH]; intros pre l active Hpre Hsize Hfuel; [lia|].
  cbn [removeEmptyRooms fst]. rewrite Nat2Z.id.
  rewrite (Z.mod_small (Z.of_nat (length (pre ++ l)))) by lia.
  destruct l as [|r l].
  - rewrite app_nil_r, Z.ltb_irrefl. simpl. by rewrite app_nil_r.
  - rewrite (proj2 (Z.ltb_lt _ _)) by (rewrite length_app; simpl; lia).
    rewrite (proj2 (Z.ltb_lt (Z.of_nat (length pre)) (2 ^ 31)))
      by (rewrite length_app in Hsize; lia).
    rewrite list_lookup_middle by done.
    cbn [List.filter]. destruct (numCoveredTiles r =? 0) eqn:Hr; cbn [negb].
    + apply Z.eqb_eq in Hr.
      replace (((Z.of_nat (length pre) - 1) mod 2 ^ 32 + 1) mod 2 ^ 32)
        with (Z.of_nat (length pre)).
      2:{ rewrite Zplus_mod_idemp_l.
          replace (Z.of_nat (length pre) - 1 + 1) with (Z.of_nat (length pre)) by lia.
          rewrite Z.mod_small; [done|]. rewrite length_app in Hsize. lia. }
      unfold removeRoom. cbn [fst snd].
      rewrite eraseFirst_middle.
      2:{ intros Hin. by apply (proj1 (Forall_forall _ _) Hpre r Hin). }
      rewrite IH; [done|done| |simpl in Hfuel; lia].
      rewrite length_app in *. simpl in *. lia.
    + apply Z.eqb_neq in Hr.
      replace ((Z.of_nat (length pre) + 1) mod 2 ^ 32)
        with (Z.of_nat (length (pre ++ [r]))).
      2:{ rewrite length_app in *. simpl in *. rewrite Z.mod_small; lia. }
      replace (pre ++ r :: l) with ((pre ++ [r]) ++ l) by (by rewrite <- app_assoc).
      rewrite IH.
      * by rewrite <- app_assoc.
      * apply Forall_app. split; [done|]. by apply Forall_singleton.
      * by rewrite <- app_assoc.
      * simpl in Hfuel. lia.
Qed.

(** X24. The loop of [doMiscUpkeep] over the rooms leaves exactly the rooms that
    cover a tile, in their order, and takes every room without a tile out of
    the active objects too, one call of [removeActiveObject] per such room;
    the decrement of the unsigned index after a removal, which wraps at 0,
    passes over no room. The loop returns with fuel above the number of
    rooms. *)
Theorem removeEmptyRooms_keeps_covering (fuel : nat) (rooms activeObjects : list Entity) :
  Z.of_nat (length rooms) < 2 ^ 31 ->
  (length rooms < fuel)%nat ->
  removeEmptyRooms isActive numCoveredTiles fuel 0 (rooms, activeObjects)
  = Some (List.filter (fun r => negb (numCoveredTiles r =? 0)) rooms,
          fold_left (removeActiveObject isActive)
                    (List.filter (fun r => numCoveredTiles r =? 0) rooms)
                    activeObjects).
Proof.
  intros Hsize Hfuel.
  by apply (removeEmptyRooms_from fuel [] rooms activeObjects).
Qed.

End EmptyRooms.

End EntityVectorProperties.

Lemma activeObjectsUpkeep_each_once_witness :
  activeObjectsUpkeep exampleUpkeep 5 [1; 2; 3]%nat 0 0%nat
  = Some (upkeepEach exampleUpkeep [1; 2; 3]%nat 0%nat).
Proof.
  apply (activeObjectsUpkeep_each_once exampleUpkeep 5 [1; 2; 3]%nat 0%nat).
  - vm_compute. reflexivity.
  - simpl. lia.
Defined.

Lemma removeEmptyRooms_keeps_covering_witness :
  removeEmptyRooms exampleActive exampleCoveredTiles 5 0
                   ([0; 1; 2; 3]%nat, [3; 2; 0]%nat)
  = Some (List.filter (fun r => negb (exampleCoveredTiles r =? 0)) [0; 1; 2; 3]%nat,
          fold_left (removeActiveObject exampleActive)
                    (List.filter (fun r => exampleCoveredTiles r =? 0) [0; 1; 2; 3]%nat)
                    [3; 2; 0]%nat).
Proof.
  apply (removeEmptyRooms_keeps_covering exampleActive exampleCoveredTiles 5
           [0; 1; 2; 3]%nat [3; 2; 0]%nat).
  - vm_compute. reflexivity.
  - simpl. lia.
Defined.

(** ** The pools of seats *)

Lemma findSeat_Some (ss : gmap nat Seat) (color : Z) (v : list nat) (s : nat) :
  findSeat ss color v = Some s ->
  s ∈ v /\ seatColor ss s = Some color /\ v ≡ₚ s :: eraseSeat ss color v.
Proof.
  induction v as [|s' v IH]; simpl; [done|].
  case_bool_decide as Hc.
  - intros [= <-]. split; [by left|]. done.
  - intros Hf. destruct (IH Hf) as (Hin & Hcol & Hperm).
    split; [by right|]. split; [done|].
    rewrite Hperm at 1. apply Permutation_swap.
Qed.

Lemma findSeat_None (ss : gmap nat Seat) (color : Z) (v : list nat) :
  findSeat ss color v = None <-> forall s, s ∈ v -> seatColor ss s <> Some color.
Proof.
  induction v as [|s' v IH]; simpl.
  - split; [|done]. intros _ s Hs. by apply elem_of_nil in Hs.
  - case_bool_decide as Hc.
    + split; [done|]. intros H. exfalso. apply (H s'); [by left|done].
    + rewrite IH. split.
      * intros H s Hs. apply elem_of_cons in Hs as [-> | Hs]; [done|by apply H].
      * intros H s Hs. apply H. by right.
Qed.

(** X26. [popEmptySeat] moves a seat between the pools and copies none: when it
    returns a seat, that seat was empty and has the color asked for, the
    empty seats are the old ones less that seat, and the seat is the last of
    the filled seats; when it returns [NULL] no empty seat has the color and
    both pools are as they were. With no seat filled before, a call of
    [popFilledSeat] after it gives the same seat back and leaves no seat
    filled. *)
Theorem popEmptySeat_moves (ss : gmap nat Seat) (color : Z)
        (emptySeats filledSeats : list nat) :
  match popEmptySeat ss color emptySeats filledSeats with
  | (Some seat, (emptySeats', filledSeats')) =>
      seat ∈ emptySeats
      /\ seatColor ss seat = Some color
      /\ emptySeats ≡ₚ seat :: emptySeats'
      /\ filledSeats' = filledSeats ++ [seat]
      /\ emptySeats' ++ filledSeats' ≡ₚ emptySeats ++ filledSeats
      /\ (filledSeats = [] ->
          popFilledSeat emptySeats' filledSeats'
          = (Some seat, (emptySeats' ++ [seat], [])))
  | (None, (emptySeats', filledSeats')) =>
      emptySeats' = emptySeats /\ filledSeats' = filledSeats
      /\ forall s, s ∈ emptySeats -> seatColor ss s <> Some color
  end.
Proof.
  unfold popEmptySeat.
  destruct (findSeat ss color emptySeats) as [seat|] eqn:Hf.
  - destruct (findSeat_Some _ _ _ _ Hf) as (Hin & Hcol & Hperm).
    split; [done|]. split; [done|]. split; [done|]. split; [done|]. split.
    + rewrite Hperm at 2. rewrite app_assoc.
      rewrite <- Permutation_cons_append. simpl.
      by rewrite Permutation_middle.
    + by intros ->.
  - split; [done|]. split; [done|]. by apply findSeat_None.
Qed.

(** X27. [getSeatByColor] gives [NULL] exactly when no seat of either pool has
    the color; the seat it gives has the color and is in one of the pools,
    and it is an empty seat only when no filled seat has the color. *)
Theorem getSeatByColor_filled_first (ss : gmap nat Seat) (color : Z)
        (emptySeats filledSeats : list nat) :
  (getSeatByColor ss color emptySeats filledSeats = None
   <-> forall s, s ∈ filledSeats ++ emptySeats -> seatColor ss s <> Some color)
  /\ forall s, getSeatByColor ss color emptySeats filledSeats = Some s ->
       seatColor ss s = Some color
       /\ (s ∈ filledSeats
           \/ (s ∈ emptySeats
               /\ forall s', s' ∈ filledSeats -> seatColor ss s' <> Some color)).
Proof.
  unfold getSeatByColor.
  destruct (findSeat ss color filledSeats) as [sf|] eqn:Hf.
  - destruct (findSeat_Some _ _ _ _ Hf) as (Hin & Hcol & _). split.
    + split; [done|]. intros H. exfalso.
      apply (H sf); [apply elem_of_app; by left|done].
    + intros s [= <-]. split; [done|]. by left.
  - pose proof (proj1 (findSeat_None _ _ _) Hf) as Hnone. split.
    + rewrite findSeat_None. split.
      * intros H s Hs. apply elem_of_app in Hs as [Hs|Hs]; [by apply Hnone|by apply H].
      * intros H s Hs. apply H. apply elem_of_app. by right.
    + intros s Hs. destruct (findSeat_Some _ _ _ _ Hs) as (Hin & Hcol & _).
      split; [done|]. right. done.
Qed.

(** ** The winning seats *)

Lemma seatIsAWinner_elem_of (winningSeats : list nat) (s : nat) :
  seatIsAWinner winningSeats s = true <-> s ∈ winningSeats.
Proof.
  induction winningSeats as [|w l IH]; simpl.
  - split; [done|]. intros H. by apply elem_of_nil in H.
  - case_bool_decide as Hw.
    + subst. split; [intros _; by left|done].
    + rewrite IH. split; [intros H; by right|].
      intros H. apply elem_of_cons in H as [-> | H]; done.
Qed.

(** X28. [addWinningSeat] makes the seat a winner, leaves every other seat as it
    was, keeps the vector free of repetitions, and does nothing when the
    seat is a winner already. *)
Theorem addWinningSeat_once (winningSeats : list nat) (s : nat) :
  seatIsAWinner (addWinningSeat winningSeats s) s = true
  /\ (forall s', s' <> s ->
        seatIsAWinner (addWinningSeat winningSeats s) s'
        = seatIsAWinner winningSeats s')
  /\ (NoDup winningSeats -> NoDup (addWinningSeat winningSeats s))
  /\ addWinningSeat (addWinningSeat winningSeats s) s = addWinningSeat winningSeats s
  /\ (seatIsAWinner winningSeats s = true -> addWinningSeat winningSeats s = winningSeats).
Proof.
  assert (Hadd : seatIsAWinner (addWinningSeat winningSeats s) s = true).
  { unfold addWinningSeat. destruct (seatIsAWinner winningSeats s) eqn:Hw; [done|].
    apply seatIsAWinner_elem_of. apply elem_of_app. right. by left. }
  split; [done|]. split; [|split; [|split]].
  - intros s' Hne. unfold addWinningSeat.
    destruct (seatIsAWinner winningSeats s) eqn:Hw; [done|].
    destruct (seatIsAWinner winningSeats s') eqn:Hw'.
    + apply seatIsAWinner_elem_of. apply elem_of_app. left.
      by apply seatIsAWinner_elem_of.
    + apply not_true_is_false. rewrite seatIsAWinner_elem_of.
      intros Hin. apply elem_of_app in Hin as [Hin|Hin].
      * apply seatIsAWinner_elem_of in Hin. congruence.
      * by apply list_elem_of_singleton in Hin.
  - intros Hnd. unfold addWinningSeat.
    destruct (seatIsAWinner winningSeats s) eqn:Hw; [done|].
    apply NoDup_app. split; [done|]. split; [|apply NoDup_singleton].
    intros x Hx Hx'. apply list_elem_of_singleton in Hx' as ->.
    apply seatIsAWinner_elem_of in Hx. congruence.
  - unfold addWinningSeat at 1. by rewrite Hadd.
  - intros Hw. unfold addWinningSeat. by rewrite Hw.
Qed.

(** * The stack of modes *)

Section ModeManagerProperties.

Variable ModeType : Type.
Variable MENU : ModeType.

Lemma runModeCall_inv (m : ModeManager ModeType) (c : ModeCall ModeType) :
  last (modesStack ModeType m) = Some MENU ->
  last (focusGiven ModeType m) = head (modesStack ModeType m) ->
  last (modesStack ModeType (runModeCall ModeType m c)) = Some MENU
  /\ last (focusGiven ModeType (runModeCall ModeType m c))
     = head (modesStack ModeType (runModeCall ModeType m c)).
Proof.
  intros Hbottom Hfocus. destruct m as [stack focus]. simpl in *.
  destruct c as [mm|]; simpl.
  - split; [|by rewrite last_snoc].
    destruct stack; [done|]. done.
  - unfold regressMode. simpl. case_bool_decide as Hlen; [|done].
    destruct stack as [|a [|b stack]]; simpl in *; [lia|lia|].
    split; [done|]. by rewrite last_snoc.
Qed.

(** X29. Whatever calls of [progressMode] and [regressMode] follow the
    constructor, the stack of modes is never empty, [MENU] stays at its
    bottom, and the mode that was given the focus last is the mode on top of
    the stack, the one [getCurrentMode] returns. A call of [regressMode]
    right after a call of [progressMode] brings the stack back. *)
Theorem modesStack_never_empty (calls : list (ModeCall ModeType)) (mm : ModeType) :
  let m := fold_left (runModeCall ModeType) calls (ModeManager_new ModeType MENU) in
  last (modesStack ModeType m) = Some MENU
  /\ is_Some (getCurrentMode ModeType m)
  /\ last (focusGiven ModeType m) = getCurrentMode ModeType m
  /\ modesStack ModeType (snd (regressMode ModeType (snd (progressMode ModeType m mm))))
     = modesStack ModeType m
  /\ fst (regressMode ModeType (snd (progressMode ModeType m mm)))
     = getCurrentMode ModeType m.
Proof.
  cbv zeta.
  assert (Hinv : forall m,
            last (modesStack ModeType m) = Some MENU ->
            last (focusGiven ModeType m) = head (modesStack ModeType m) ->
            let m' := fold_left (runModeCall ModeType) calls m in
            last (modesStack ModeType m') = Some MENU
            /\ last (focusGiven ModeType m') = head (modesStack ModeType m')).
  { induction calls as [|c calls IH]; intros m Hb Hf; simpl; [done|].
    destruct (runModeCall_inv m c Hb Hf) as [Hb' Hf']. by apply IH. }
  destruct (Hinv (ModeManager_new ModeType MENU)) as [Hb Hf]; [done|done|].
  set (m := fold_left (runModeCall ModeType) calls (ModeManager_new ModeType MENU)) in *.
  cbv zeta in Hb, Hf. unfold getCurrentMode.
  split; [done|]. split; [|split; [done|]].
  - destruct (modesStack ModeType m); [done|]. by eexists.
  - unfold regressMode, progressMode. simpl.
    destruct (modesStack ModeType m) as [|a stack] eqn:Hs; [done|].
    rewrite bool_decide_eq_true_2 by (simpl; lia). done.
Qed.

End ModeManagerProperties.

(** * [GameMap::getVisibleForce] *)

Section VisibleForceProperties.

Context {CreaturePtr RoomPtr : Type} `{EqDecision RoomPtr}.
Variable creaturesInCell : Tile -> list (option CreaturePtr).
Variable getCoveringRoom : Tile -> option RoomPtr.
Variable creatureColorOf : CreaturePtr -> Z.
Variable roomColorOf : RoomPtr -> Z.

Local Abbreviation roomsOf := (roomsOf (CreaturePtr := CreaturePtr) (RoomPtr := RoomPtr)).
Local Abbreviation creaturesOf := (creaturesOf (CreaturePtr := CreaturePtr) (RoomPtr := RoomPtr)).
Local Abbreviation visibleCreatures := (visibleCreatures (RoomPtr := RoomPtr) creaturesInCell creatureColorOf).
Local Abbreviation visibleForceOfTile := (visibleForceOfTile creaturesInCell getCoveringRoom creatureColorOf roomColorOf).
Local Abbreviation getVisibleForce := (getVisibleForce creaturesInCell getCoveringRoom creatureColorOf roomColorOf).

(** The test on the color of a creature. *)
Local Abbreviation wanted color invert :=
  (fun c => if invert : bool then negb (creatureColorOf c =? color)
            else creatureColorOf c =? color).

Lemma roomsOf_app (l l' : list (CreaturePtr + RoomPtr)) :
  roomsOf (l ++ l') = roomsOf l ++ roomsOf l'.
Proof. apply omap_app. Qed.

Lemma creaturesOf_app (l l' : list (CreaturePtr + RoomPtr)) :
  creaturesOf (l ++ l') = creaturesOf l ++ creaturesOf l'.
Proof. apply omap_app. Qed.

Lemma visibleCreatures_split (color : Z) (invert : bool)
      (returnList : list (CreaturePtr + RoomPtr)) (t : Tile) :
  roomsOf (visibleCreatures color invert returnList t) = roomsOf returnList
  /\ creaturesOf (visibleCreatures color invert returnList t)
     = creaturesOf returnList
       ++ List.filter (wanted color invert) (omap id (creaturesInCell t)).
Proof.
  unfold visibleCreatures. revert returnList.
  induction (creaturesInCell t) as [|c cs IH]; intros returnList; simpl.
  { by rewrite app_nil_r. }
  destruct c as [c|]; simpl; [|apply IH].
  destruct (IH (if (invert && negb (creatureColorOf c =? color))
                   || (negb invert && (creatureColorOf c =? color))
                then returnList ++ [inl c] else returnList)) as [IHr IHc].
  rewrite IHr, IHc.
  destruct invert, (creatureColorOf c =? color); simpl;
    rewrite ?roomsOf_app, ?creaturesOf_app, ?app_nil_r; simpl;
    rewrite <- ?app_assoc; done.
Qed.

Lemma roomFound_roomsOf (returnList : list (CreaturePtr + RoomPtr)) (r : RoomPtr) :
  roomFound returnList r = true <-> r ∈ roomsOf returnList.
Proof.
  induction returnList as [|e l IH]; simpl.
  - split; [done|]. intros Hr. by apply elem_of_nil in Hr.
  - destruct e as [c|r']; simpl; [done|].
    rewrite orb_true_iff, bool_decide_eq_true, IH.
    split.
    + intros [-> | Hr]; [by left|by right].
    + intros Hr. apply elem_of_cons in Hr as [-> | Hr]; [by left|by right].
Qed.

Lemma visibleForceOfTile_split (color : Z) (invert : bool)
      (returnList : list (CreaturePtr + RoomPtr)) (t : Tile) :
  roomsOf (visibleForceOfTile color invert returnList t)
  = match getCoveringRoom t with
    | Some r =>
        if negb (roomColorOf r =? color) && negb (bool_decide (r ∈ roomsOf returnList))
        then roomsOf returnList ++ [r] else roomsOf returnList
    | None => roomsOf returnList
    end
  /\ creaturesOf (visibleForceOfTile color invert returnList t)
     = creaturesOf returnList
       ++ List.filter (wanted color invert) (omap id (creaturesInCell t)).
Proof.
  unfold visibleForceOfTile.
  destruct (visibleCreatures_split color invert returnList t) as [Hr Hc].
  destruct (getCoveringRoom t) as [r|]; [|done].
  replace ((invert && negb (roomColorOf r =? color))
           || (negb invert && negb (roomColorOf r =? color)))
    with (negb (roomColorOf r =? color)) by (by destruct invert, (roomColorOf r =? color)).
  destruct (negb (roomColorOf r =? color)); simpl; [|done].
  destruct (roomFound (visibleCreatures color invert returnList t) r) eqn:Hfound.
  - apply roomFound_roomsOf in Hfound. rewrite Hr in Hfound.
    rewrite bool_decide_eq_true_2 by done. done.
  - assert (Hnot : r ∉ roomsOf returnList).
    { intros Hin. rewrite <- Hr in Hin. apply roomFound_roomsOf in Hin. congruence. }
    rewrite bool_decide_eq_false_2 by done. simpl.
    rewrite roomsOf_app, creaturesOf_app, Hr, Hc. simpl. by rewrite app_nil_r.
Qed.

Lemma visibleForce_fold_rooms (color : Z) (tiles : list Tile)
      (l1 l2 : list (CreaturePtr + RoomPtr)) :
  roomsOf l1 = roomsOf l2 ->
  roomsOf (fold_left (visibleForceOfTile color true) tiles l1)
  = roomsOf (fold_left (visibleForceOfTile color false) tiles l2).
Proof.
  revert l1 l2. induction tiles as [|t tiles IH]; intros l1 l2 Heq; simpl; [done|].
  apply IH.
  rewrite (proj1 (visibleForceOfTile_split color true l1 t)).
  rewrite (proj1 (visibleForceOfTile_split color false l2 t)).
  by rewrite Heq.
Qed.

Lemma visibleForce_fold_spec (color : Z) (invert : bool) (tiles : list Tile)
      (l : list (CreaturePtr + RoomPtr)) :
  let l' := fold_left (visibleForceOfTile color invert) tiles l in
  (NoDup (roomsOf l) -> NoDup (roomsOf l'))
  /\ (forall r, r ∈ roomsOf l'
                <-> r ∈ roomsOf l
                    \/ exists t, t ∈ tiles /\ getCoveringRoom t = Some r
                                 /\ roomColorOf r <> color)
  /\ creaturesOf l'
     = creaturesOf l
       ++ List.filter (wanted color invert) (omap id (flat_map creaturesInCell tiles)).
Proof.
  revert l. induction tiles as [|t tiles IH]; intros l; simpl.
  { split; [done|]. split; [|by rewrite app_nil_r].
    intros r. split; [by left|]. intros [?|(t & Ht & _)]; [done|].
    by apply elem_of_nil in Ht. }
  destruct (IH (visibleForceOfTile color invert l t)) as (IHnd & IHin & IHc).
  destruct (visibleForceOfTile_split color invert l t) as [Hr Hc].
  assert (Hstep : forall r, r ∈ roomsOf (visibleForceOfTile color invert l t)
            <-> r ∈ roomsOf l \/ (getCoveringRoom t = Some r /\ roomColorOf r <> color)).
  { intros r. rewrite Hr. destruct (getCoveringRoom t) as [r'|].
    2:{ split; [by left|]. by intros [?|[? _]]. }
    destruct (Z.eqb_spec (roomColorOf r') color) as [Hcol|Hcol]; simpl.
    { split; [by left|]. intros [?|[[= ->] ?]]; done. }
    case_bool_decide as Hin; simpl.
    - split; [by left|]. intros [?|[[= ->] ?]]; done.
    - rewrite elem_of_app, list_elem_of_singleton. split.
      + intros [? | ->]; [by left|by right].
      + intros [?|[[= ->] ?]]; [by left|by right]. }
  split; [|split].
  - intros Hnd. apply IHnd. rewrite Hr.
    destruct (getCoveringRoom t) as [r'|]; [|done].
    destruct (negb (roomColorOf r' =? color)); simpl; [|done].
    case_bool_decide as Hin; simpl; [done|].
    apply NoDup_app. split; [done|]. split; [|apply NoDup_singleton].
    intros x Hx Hx'. by apply list_elem_of_singleton in Hx' as ->.
  - intros r. rewrite IHin, Hstep. split.
    + intros [[?|[? ?]]|(t' & Ht' & ?)].
      * by left.
      * right. exists t. split; [by left|done].
      * right. exists t'. split; [by right|done].
    + intros [?|(t' & Ht' & ? & ?)]; [by left; left|].
      apply elem_of_cons in Ht' as [-> | Ht'].
      * left. by right.
      * right. by exists t'.
  - rewrite IHc, Hc, omap_app, List.filter_app. by rewrite <- app_assoc.
Qed.

(** X18. The rooms that [getVisibleForce] returns do not depend on [invert]: they
    are the rooms that cover one of the tiles and whose color is not the
    given one, each of them once. The creatures it returns are the creatures
    of the cells, in the order of the tiles, whose color is the given one,
    or, with [invert] set, is not. *)
Theorem getVisibleForce_rooms_ignore_invert (visibleTiles : list Tile)
        (color : Z) (invert : bool) :
  roomsOf (getVisibleForce visibleTiles color true)
  = roomsOf (getVisibleForce visibleTiles color false)
  /\ NoDup (roomsOf (getVisibleForce visibleTiles color invert))
  /\ (forall r, r ∈ roomsOf (getVisibleForce visibleTiles color invert)
                <-> exists t, t ∈ visibleTiles /\ getCoveringRoom t = Some r
                              /\ roomColorOf r <> color)
  /\ creaturesOf (getVisibleForce visibleTiles color invert)
     = List.filter (wanted color invert)
                   (omap id (flat_map creaturesInCell visibleTiles)).
Proof.
  unfold getVisibleForce.
  split; [by apply visibleForce_fold_rooms|].
  destruct (visibleForce_fold_spec color invert visibleTiles []) as (Hnd & Hin & Hc).
  split; [apply Hnd; apply NoDup_nil_2|]. split; [|done].
  intros r. rewrite Hin. split; [|by right].
  intros [Hr|?]; [|done]. by apply elem_of_nil in Hr.
Qed.

End VisibleForceProperties.

(** * Rooms by type and color, and the gold of a color *)

Lemma countRooms_fold (type : RoomType) (color : Z) (rs : list Room) (count : Z) :
  0 <= count < 2 ^ 32 ->
  fold_left (fun count r =>
               if bool_decide (roomType r = type) && bool_decide (roomColor r = color)
               then (count + 1) mod 2 ^ 32 else count) rs count
  = (count + Z.of_nat (length (List.filter
                                 (fun r => bool_decide (roomType r = type)
                                           && bool_decide (roomColor r = color)) rs)))
    mod 2 ^ 32.
Proof.
  revert count. induction rs as [|r rs IH]; intros count Hc; simpl.
  - rewrite Z.add_0_r, Z.mod_small; done.
  - destruct (bool_decide (roomType r = type) && bool_decide (roomColor r = color)).
    + rewrite IH by (apply Z.mod_pos_bound; lia).
      rewrite Zplus_mod_idemp_l. cbn [length]. f_equal. lia.
    + by apply IH.
Qed.

(** X21. [numRoomsByTypeAndColor] counts the rooms that [getRoomsByTypeAndColor]
    returns (modulo 2^32, the count being an [unsigned int]); these are the
    rooms of [getRoomsByType] that have the color, in their order. *)
Theorem roomsByTypeAndColor_agree (gm : GameMap) (type : RoomType) (color : Z) :
  numRoomsByTypeAndColor gm type color
  = Z.of_nat (length (getRoomsByTypeAndColor gm type color)) mod 2 ^ 32
  /\ getRoomsByTypeAndColor gm type color
     = List.filter (fun r => bool_decide (roomColor r = color)) (getRoomsByType gm type)
  /\ sublist (getRoomsByTypeAndColor gm type color) (rooms gm).
Proof.
  unfold numRoomsByTypeAndColor, getRoomsByTypeAndColor, getRoomsByType.
  split; [by rewrite countRooms_fold|]. split; [|apply filter_sublist].
  induction (rooms gm) as [|r rs IH]; simpl; [done|].
  destruct (bool_decide (roomType r = type)); simpl; [|done].
  destruct (bool_decide (roomColor r = color)); simpl; by rewrite IH.
Qed.

Lemma fold_gold (l : list Room) (a : Z) :
  fold_left (fun tempInt r => tempInt + roomTotalGold r) l a
  = a + fold_left (fun tempInt r => tempInt + roomTotalGold r) l 0.
Proof.
  revert a. induction l as [|r l IH]; intros a; simpl; [lia|].
  rewrite (IH (a + roomTotalGold r)), (IH (0 + roomTotalGold r)). lia.
Qed.

Lemma getTotalGoldForColor_cons (gm : GameMap) (r : Room) (rs : list Room) (c : Z) :
  getTotalGoldForColor (setRooms gm (r :: rs)) c
  = (if bool_decide (roomType r = treasury) && bool_decide (roomColor r = c)
     then roomTotalGold r else 0)
    + getTotalGoldForColor (setRooms gm rs) c.
Proof.
  unfold getTotalGoldForColor, getRoomsByTypeAndColor. simpl.
  destruct (bool_decide (roomType r = treasury) && bool_decide (roomColor r = c));
    simpl; [|done].
  by rewrite fold_gold.
Qed.

Lemma withdrawLoop_totals (withdrawGold : Room -> Z -> Z * Room) (gm : GameMap)
      (color : Z) (rs : list Room) (gold : Z) :
  (forall r, r ∈ rs -> honestTreasury withdrawGold r) ->
  length (withdrawLoop withdrawGold color rs gold) = length rs
  /\ (forall c, c <> color ->
        getTotalGoldForColor (setRooms gm (withdrawLoop withdrawGold color rs gold)) c
        = getTotalGoldForColor (setRooms gm rs) c)
  /\ 0 <= getTotalGoldForColor (setRooms gm rs) color
          - getTotalGoldForColor (setRooms gm (withdrawLoop withdrawGold color rs gold))
                                 color
       <= Z.max gold 0.
Proof.
  revert gold. induction rs as [|r rs IH]; intros gold Hhonest.
  { simpl. split; [done|]. split; [done|]. lia. }
  assert (Hrs : forall r', r' ∈ rs -> honestTreasury withdrawGold r').
  { intros r' Hr'. apply Hhonest. by right. }
  cbn [withdrawLoop].
  destruct (bool_decide (roomType r = treasury) && bool_decide (roomColor r = color)
            && (0 <? gold)) eqn:Hcond.
  - apply andb_true_iff in Hcond as [Hcond Hpos].
    apply Z.ltb_lt in Hpos.
    destruct (Hhonest r ltac:(by left) gold Hpos) as (Htaken & Htype & Hcolor & Hgold).
    destruct (withdrawGold r gold) as [taken r'] eqn:Hw. simpl in *.
    destruct (IH (gold - taken) Hrs) as (IHlen & IHother & IHcolor).
    split; [simpl; by rewrite IHlen|]. split.
    + intros c Hc.
      rewrite (getTotalGoldForColor_cons gm r'), (getTotalGoldForColor_cons gm r).
      rewrite (IHother c Hc), Htype, Hcolor.
      apply andb_true_iff in Hcond as [_ Hrc]. apply bool_decide_eq_true in Hrc.
      rewrite (bool_decide_eq_false_2 (roomColor r = c)) by congruence.
      by rewrite andb_false_r.
    + rewrite (getTotalGoldForColor_cons gm r'), (getTotalGoldForColor_cons gm r).
      rewrite Htype, Hcolor, Hcond. lia.
  - destruct (IH gold Hrs) as (IHlen & IHother & IHcolor).
    split; [simpl; by rewrite IHlen|]. split.
    + intros c Hc. rewrite !(getTotalGoldForColor_cons gm r).
      by rewrite (IHother c Hc).
    + rewrite !(getTotalGoldForColor_cons gm r). lia.
Qed.

(** X20. When every treasury of the map hands out at most what it is asked for
    and books it off its gold, a call of [withdrawFromTreasuries] that gives
    [true] leaves the number of rooms and the gold of every other color as
    they were, and takes from the treasuries of the color of the seat no more
    than the amount asked for (nothing when that amount is not positive). *)
Theorem withdrawFromTreasuries_bounded (withdrawGold : Room -> Z -> Z * Room)
        (gm : GameMap) (gold : Z) (seat : Seat) (gm' : GameMap) :
  (forall r, r ∈ rooms gm -> honestTreasury withdrawGold r) ->
  withdrawFromTreasuries withdrawGold gm gold seat = (true, gm') ->
  length (rooms gm') = length (rooms gm)
  /\ (forall c, c <> mColor seat ->
        getTotalGoldForColor gm' c = getTotalGoldForColor gm c)
  /\ 0 <= getTotalGoldForColor gm (mColor seat) - getTotalGoldForColor gm' (mColor seat)
       <= Z.max gold 0.
Proof.
  intros Hhonest. unfold withdrawFromTreasuries.
  destruct (mGold seat <? gold); [done|]. intros [= <-].
  destruct (withdrawLoop_totals withdrawGold gm (mColor seat) (rooms gm) gold Hhonest)
    as (Hlen & Hother & Hcolor).
  replace (setRooms gm (rooms gm)) with gm in * by (by destruct gm).
  done.
Qed.

Lemma withdrawFromTreasuries_bounded_witness :
  let gm' := setRooms oneTreasuryMap [mkRoom "Treasury1" treasury 1 4 40] in
  length (rooms gm') = length (rooms oneTreasuryMap)
  /\ (forall c, c <> mColor (mkSeat 1 100 0) ->
        getTotalGoldForColor gm' c = getTotalGoldForColor oneTreasuryMap c)
  /\ 0 <= getTotalGoldForColor oneTreasuryMap (mColor (mkSeat 1 100 0))
          - getTotalGoldForColor gm' (mColor (mkSeat 1 100 0))
       <= Z.max 60 0.
Proof.
  apply (withdrawFromTreasuries_bounded plainWithdrawGold oneTreasuryMap 60
           (mkSeat 1 100 0)).
  - intros r Hr gold Hgold. apply list_elem_of_singleton in Hr as ->.
    simpl. repeat split; try reflexivity; lia.
  - vm_compute. reflexivity.
Defined.

(** * The loop of [GameMap::doTurn] over the creatures *)

(** X22. The loop that follows the upkeep in [doTurn] adds to the count of
    controlled creatures of every seat the number of creatures with positive
    hit points whose controlling player has that seat, and changes nothing
    else: the color and the gold of the seats, the vector of creatures and
    the deletion queues are those that the upkeep left. *)
Theorem doTurn_counts_living_creatures
        (Creature_doTurn : Creature -> GameMap -> GameMap)
        (checkSeatGoals : nat -> GameMap -> GameMap)
        (produceKobold : Room -> GameMap -> GameMap)
        (upkeepRest : GameMap -> GameMap) (gm : GameMap) :
  let mid := doMiscUpkeep checkSeatGoals produceKobold upkeepRest
               (doCreatureTurns Creature_doTurn gm) in
  let gm' := doTurn Creature_doTurn checkSeatGoals produceKobold upkeepRest gm in
  (forall seat,
     seats gm' !! seat
     = (fun s => mkSeat (mColor s) (mGold s)
                        (mNumCreaturesControlled s
                         + livingCreaturesOf seat (creatures mid)))
         <$> seats mid !! seat)
  /\ creatures gm' = creatures mid
  /\ entitiesToDelete gm' = entitiesToDelete mid
  /\ mapLightsToDelete gm' = mapLightsToDelete mid
  /\ tiles gm' = tiles mid
  /\ rooms gm' = rooms mid.
Proof.
  cbv zeta. unfold doTurn, sweepCreatures.
  split; [|done]. intros seat. cbn [seats setSeats].
  apply countControlledCreatures_lookup.
Qed.

(** * [GameMap::doFloodFill]: the number of tiles flooded *)

Lemma uncolored_insert (col : Z) (ts : gmap (Z * Z) Tile) (c : Z * Z) (t : Tile) :
  ts !! c = Some t -> tilePassability t = walkableTile -> floodFillColor t <> col ->
  size (uncolored col ts)
  = S (size (uncolored col (<[c := setFloodFillColor t col]> ts))).
Proof.
  intros Ht Hw Hc.
  assert (Heq : uncolored col ts
                = {[c]} ∪ uncolored col (<[c := setFloodFillColor t col]> ts)).
  { apply set_eq. intros c'.
    rewrite elem_of_union, elem_of_singleton, !elem_of_uncolored. split.
    - intros (t' & Ht' & Hw' & Hc'). destruct (decide (c' = c)) as [->|Hne]; [by left|].
      right. exists t'. by rewrite lookup_insert_ne.
    - intros [-> | (t' & Ht' & Hw' & Hc')]; [by exists t|].
      destruct (decide (c' = c)) as [->|Hne].
      + rewrite lookup_insert_eq in Ht'. injection Ht' as <-. done.
      + rewrite lookup_insert_ne in Ht' by done. by exists t'. }
  rewrite Heq, size_union, size_singleton; [done|].
  intros c' Hc1 Hc2. apply elem_of_singleton in Hc1 as ->.
  apply elem_of_uncolored in Hc2 as (t' & Ht' & _ & Hc').
  rewrite lookup_insert_eq in Ht'. injection Ht' as <-. done.
Qed.

(** The loop over the neighbours returns when each recursive call does, and
    the count it returns grows by the tiles that lose their place among the
    walkable tiles without the color. *)
Lemma floodNeighbors_counts (col : Z) (fuel : nat)
      (recurse : GameMap -> Z -> Z -> option (nat * GameMap)) (ns : list (Z * Z)) :
  (forall gm x y t,
      floodFillEnabled gm = true -> tilesWellPlaced gm ->
      tiles gm !! (x, y) = Some t ->
      (tilePassability t = walkableTile -> floodFillColor t <> col) ->
      (size (uncolored col (tiles gm)) < fuel)%nat ->
      exists k gm',
        recurse gm x y = Some (k, gm')
        /\ size (uncolored col (tiles gm)) = (size (uncolored col (tiles gm')) + k)%nat
        /\ floodFillEnabled gm' = true /\ tilesWellPlaced gm') ->
  forall acc gm,
    floodFillEnabled gm = true -> tilesWellPlaced gm ->
    (size (uncolored col (tiles gm)) < fuel)%nat ->
    exists k gm',
      floodNeighbors recurse col ns acc gm = Some (k, gm')
      /\ (size (uncolored col (tiles gm)) + acc)%nat
         = (size (uncolored col (tiles gm')) + k)%nat
      /\ floodFillEnabled gm' = true /\ tilesWellPlaced gm'.
Proof.
  intros Hrec. induction ns as [|n ns IH]; intros acc gm Hen Hwf Hfuel; simpl.
  { by exists acc, gm. }
  destruct (tiles gm !! n) as [t|] eqn:Ht; [|by apply IH].
  case_bool_decide as Hne; [|by apply IH].
  pose proof (Hwf _ _ Ht) as Hxy. simpl in Hxy.
  destruct (Hrec gm (tile_x t) (tile_y t) t) as (k1 & gm1 & -> & Hsz1 & Hen1 & Hwf1);
    try done.
  { by rewrite Hxy. }
  destruct (IH (acc + k1)%nat gm1 Hen1 Hwf1) as (k & gm' & -> & Hsz & Hen' & Hwf');
    [lia|].
  exists k, gm'. split; [done|]. split; [lia|done].
Qed.

Lemma doFloodFill_counts_from (fuel : nat) (passability : TileClearType) (col : Z)
      (gm : GameMap) (x y : Z) (t : Tile) :
  0 <= col ->
  floodFillEnabled gm = true -> tilesWellPlaced gm ->
  tiles gm !! (x, y) = Some t ->
  (tilePassability t = walkableTile -> floodFillColor t <> col) ->
  (size (uncolored col (tiles gm)) < fuel)%nat ->
  exists k gm',
    doFloodFill fuel gm x y passability col = Some (k, gm')
    /\ size (uncolored col (tiles gm)) = (size (uncolored col (tiles gm')) + k)%nat
    /\ floodFillEnabled gm' = true /\ tilesWellPlaced gm'.
Proof.
  intros Hcol. revert gm x y t.
  induction fuel as [|fuel IH]; intros gm x y t Hen Hwf Ht Hstart Hfuel; [lia|].
  cbn [doFloodFill]. rewrite Hen. cbn [negb].
  replace (col <? 0) with false by (symmetry; apply Z.ltb_ge; lia).
  unfold getTile. rewrite Ht.
  case_bool_decide as Hwalk.
  2:{ exists 0%nat, gm. split; [done|]. split; [lia|done]. }
  pose proof (uncolored_insert col (tiles gm) (x, y) t Ht Hwalk (Hstart Hwalk)) as Hins.
  destruct (floodNeighbors_counts col fuel
              (fun gm x y => doFloodFill fuel gm x y passability col)
              (neighborTiles
                 (setTiles gm (<[(x, y) := setFloodFillColor t col]> (tiles gm))) x y)
              IH 1%nat
              (setTiles gm (<[(x, y) := setFloodFillColor t col]> (tiles gm))))
    as (k & gm' & Hloop & Hsz & Hen' & Hwf').
  - done.
  - unfold tilesWellPlaced, wellPlaced. cbn [tiles setTiles].
    apply map_Forall_insert_2; [|done]. simpl. by apply (Hwf _ _ Ht).
  - cbn [tiles setTiles]. lia.
  - exists k, gm'. split; [done|]. split; [|done].
    cbn [tiles setTiles] in Hsz. lia.
Qed.

(** X19. A call of [doFloodFill] with a color that is not negative, on an existing
    tile that does not have the color yet if it is walkable, returns the
    number of tiles it has given the color to: the walkable tiles without
    the color are fewer by that number after the call, whatever colors the
    other tiles have. On a tile that is not walkable it returns 0 and
    changes nothing. The call returns with fuel above the number of walkable
    tiles without the color. *)
Theorem doFloodFill_counts_flooded (fuel : nat) (gm : GameMap) (x y : Z)
        (passability : TileClearType) (col : Z) (t : Tile) :
  floodFillEnabled gm = true ->
  0 <= col ->
  tilesWellPlaced gm ->
  getTile gm x y = Some t ->
  (tilePassability t = walkableTile -> floodFillColor t <> col) ->
  (size (uncolored col (tiles gm)) < fuel)%nat ->
  exists k gm',
    doFloodFill fuel gm x y passability col = Some (k, gm')
    /\ size (uncolored col (tiles gm)) = (size (uncolored col (tiles gm')) + k)%nat
    /\ (tilePassability t <> walkableTile -> k = 0%nat /\ gm' = gm).
Proof.
  intros Hen Hcol Hwf Ht Hstart Hfuel. unfold getTile in Ht.
  destruct (doFloodFill_counts_from fuel passability col gm x y t)
    as (k & gm' & Hrun & Hsz & _); try done.
  exists k, gm'. split; [done|]. split; [done|]. intros Hnw.
  destruct fuel as [|fuel]; [done|].
  cbn [doFloodFill] in Hrun. rewrite Hen in Hrun. cbn [negb] in Hrun.
  replace (col <? 0) with false in Hrun by (symmetry; apply Z.ltb_ge; lia).
  unfold getTile in Hrun. rewrite Ht in Hrun.
  rewrite bool_decide_eq_false_2 in Hrun by done.
  by injection Hrun as <- <-.
Qed.

(** Two regions with colors of their own, 5 and 7, and a tile without a
    color between them: the call with the color 5 on the tile in the middle
    joins all three. *)
Lemma doFloodFill_counts_flooded_witness :
  let gm := setFloodFillEnabled
              (rectMap 3 1 (fun x y => mkTile x y walkableTile true
                                              (if x =? 0 then 5
                                               else if x =? 1 then -1 else 7)))
              true in
  exists k gm',
    doFloodFill 10 gm 1 0 walkableTile 5 = Some (k, gm')
    /\ size (uncolored 5 (tiles gm)) = (size (uncolored 5 (tiles gm')) + k)%nat
    /\ (tilePassability (mkTile 1 0 walkableTile true (-1)) <> walkableTile ->
        k = 0%nat /\ gm' = gm).
Proof.
  apply (doFloodFill_counts_flooded 10
           (setFloodFillEnabled
              (rectMap 3 1 (fun x y => mkTile x y walkableTile true
                                              (if x =? 0 then 5
                                               else if x =? 1 then -1 else 7)))
              true)
           1 0 walkableTile 5 (mkTile 1 0 walkableTile true (-1))).
  - reflexivity.
  - lia.
  - apply rectMap_wellPlaced. intros x y. done.
  - vm_compute. reflexivity.
  - intros _. simpl. lia.
  - vm_compute. lia.
Defined.

(** * [GameMap::path]: the length of the list *)

Lemma smallestAstar_min (es : list AstarEntry) (l : list nat)
      (pos best : nat) (bestCost : Z) :
  let r := smallestAstar es l pos best bestCost in
  (r = best /\ forall q, q ∈ l -> bestCost <= fCost (entryAt es q))
  \/ (exists p, l !! (r - pos)%nat = Some p /\ (pos <= r)%nat
                /\ fCost (entryAt es p) < bestCost
                /\ forall q, q ∈ l -> fCost (entryAt es p) <= fCost (entryAt es q)).
Proof.
  revert pos best bestCost.
  induction l as [|p l IH]; intros pos best bestCost; cbn [smallestAstar].
  { left. split; [done|]. intros q Hq. by apply elem_of_nil in Hq. }
  destruct (Z.ltb_spec (fCost (entryAt es p)) bestCost) as [Hlt|Hge].
  - right. destruct (IH (S pos) pos (fCost (entryAt es p)))
      as [[Hr Hmin]|(p' & Hp' & Hpos & Hlt' & Hmin)].
    + exists p. rewrite Hr, Nat.sub_diag. split; [done|]. split; [lia|].
      split; [done|]. intros q Hq. apply elem_of_cons in Hq as [-> | Hq]; [lia|].
      by apply Hmin.
    + exists p'. split.
      { replace (smallestAstar es l (S pos) pos (fCost (entryAt es p)) - pos)%nat
          with (S (smallestAstar es l (S pos) pos (fCost (entryAt es p)) - S pos))
          by lia.
        done. }
      split; [lia|]. split; [lia|].
      intros q Hq. apply elem_of_cons in Hq as [-> | Hq]; [lia|]. by apply Hmin.
  - destruct (IH (S pos) best bestCost)
      as [[Hr Hmin]|(p' & Hp' & Hpos & Hlt' & Hmin)].
    + left. split; [done|]. intros q Hq.
      apply elem_of_cons in Hq as [-> | Hq]; [lia|]. by apply Hmin.
    + right. exists p'. split.
      { replace (smallestAstar es l (S pos) best bestCost - pos)%nat
          with (S (smallestAstar es l (S pos) best bestCost - S pos)) by lia.
        done. }
      split; [lia|]. split; [done|].
      intros q Hq. apply elem_of_cons in Hq as [-> | Hq]; [lia|]. by apply Hmin.
Qed.

Lemma smallestAstarPos_min (es : list AstarEntry) (l : list nat) (cur : nat) :
  l !! smallestAstarPos es l = Some cur ->
  forall q, q ∈ l -> fCost (entryAt es cur) <= fCost (entryAt es q).
Proof.
  destruct l as [|p0 l]; [done|]. unfold smallestAstarPos.
  destruct (smallestAstar_min es (p0 :: l) 0 0 (fCost (entryAt es p0)))
    as [[Hr Hmin]|(p & Hp & _ & _ & Hmin)].
  - rewrite Hr. intros [= <-]. done.
  - rewrite Nat.sub_0_r in Hp. rewrite Hp. intros [= <-]. done.
Qed.

Lemma consecutive_lookup (R : Tile -> Tile -> Prop) (l : list Tile) (i : nat)
      (a b : Tile) :
  consecutive R l -> l !! i = Some a -> l !! S i = Some b -> R a b.
Proof.
  revert i. induction l as [|c l IH]; intros i Hc Ha Hb; [done|].
  destruct l as [|d l]; [done|]. destruct Hc as [Hcd Hc].
  destruct i as [|i].
  - simpl in Ha, Hb. by injection Ha as <-; injection Hb as <-.
  - by apply (IH i).
Qed.

Section PathShortest.

Variable isDiggable : Tile -> Z -> bool.
Variable gm : GameMap.
Variable start : Tile.
Variable passability : TileClearType.
Variable color : Z.
Variables x1 y1 : Z.
Variable destination : Tile.

Lemma visitNeighbor_layers (cur : nat) (st : AstarSearch) (n : option Tile) :
  searchInv gm start st ->
  cur ∈ closedList st ->
  (forall p, p ∈ closedList st ->
             g (entryAt (entries st) p) <= g (entryAt (entries st) cur)) ->
  (forall p q, p ∈ closedList st -> q ∈ openList st ->
               g (entryAt (entries st) p) <= g (entryAt (entries st) q)) ->
  let st' := visitNeighbor isDiggable passability color x1 y1 cur st n in
  (forall p, p ∈ closedList st ->
             g (entryAt (entries st') p) = g (entryAt (entries st) p))
  /\ (forall p q, p ∈ closedList st' -> q ∈ openList st' ->
                  g (entryAt (entries st') p) <= g (entryAt (entries st') q))
  /\ (forall t b, hasNodeWithin st t b -> hasNodeWithin st' t b)
  /\ (forall t, n = Some t ->
                processNeighbor isDiggable passability color t = true ->
                hasNodeWithin st' t (g (entryAt (entries st) cur) + 1)).
Proof.
  intros Hinv Hcur HK HO.
  pose proof (inv_bound _ _ _ Hinv) as Hb.
  assert (Hdisj : forall p, p ∈ openList st -> p ∈ closedList st -> False).
  { intros p Hp Hc. pose proof (inv_nodup _ _ _ Hinv) as Hnd.
    apply NoDup_app in Hnd as (_ & Hdis & _). by apply (Hdis p). }
  unfold visitNeighbor. destruct n as [t|]; cbn [negb].
  2:{ cbn [entries openList closedList]. split; [done|]. split; [done|]. split; [done|]. done. }
  destruct (processNeighbor isDiggable passability color t) eqn:Hpn; cbn [negb].
  2:{ cbn [entries openList closedList]. split; [done|]. split; [done|].
      split; [done|]. intros t' [= <-] ?. congruence. }
  cbn [entries openList closedList].
  destruct (findTile (entries st) (closedList st) t) as [pc|] eqn:Hfc.
  { cbn [entries openList closedList]. split; [done|]. split; [done|]. split; [done|].
    intros t' [= <-] _.
    apply find_some in Hfc as [Hin Ht].
    apply list_elem_of_In in Hin. apply bool_decide_eq_true in Ht.
    exists pc. cbn [entries openList closedList]. split; [apply elem_of_app; by right|]. split; [done|].
    specialize (HK pc Hin). lia. }
  destruct (findTile (entries st) (openList st) t) as [po|] eqn:Hfo.
  - apply find_some in Hfo as [Hin Ht].
    apply list_elem_of_In in Hin. apply bool_decide_eq_true in Ht.
    assert (Hpolt : (po < length (entries st))%nat).
    { apply Hb. apply elem_of_app. by left. }
    destruct (Z.ltb_spec (g (entryAt (entries st) cur) + 1) (g (entryAt (entries st) po)))
      as [Hlt|Hge]; cbn [entries openList closedList].
    + set (es' := alter (fun e => setParent (setG e (g (entryAt (entries st) cur) + 1))
                                            (Some cur)) po (entries st)).
      assert (Hg : forall p, p <> po -> g (entryAt es' p) = g (entryAt (entries st) p)).
      { intros p Hne. unfold entryAt, es'. by rewrite list_lookup_alter_ne. }
      assert (Hgpo : g (entryAt es' po) = g (entryAt (entries st) cur) + 1).
      { unfold entryAt at 1. unfold es'. rewrite list_lookup_alter_eq.
        destruct (lookup_lt_is_Some_2 _ _ Hpolt) as [e ->]. done. }
      assert (Htile : forall p, tile (entryAt es' p) = tile (entryAt (entries st) p)).
      { intros p. by apply tile_entryAt_alter. }
      assert (Hgc : forall p, p ∈ closedList st ->
                              g (entryAt es' p) = g (entryAt (entries st) p)).
      { intros p Hp. apply Hg. intros ->. by apply (Hdisj po). }
      split; [done|]. split; [|split].
      * intros p q Hp Hq. rewrite (Hgc p Hp).
        destruct (decide (q = po)) as [->|Hne].
        -- rewrite Hgpo. specialize (HK p Hp). lia.
        -- rewrite (Hg q Hne). by apply HO.
      * intros t' b (q & Hq & Htq & Hgq). exists q. cbn [entries openList closedList]. split; [done|].
        split; [by rewrite Htile|].
        destruct (decide (q = po)) as [->|Hne]; [rewrite Hgpo; lia|by rewrite Hg].
      * intros t' [= <-] _. exists po. cbn [entries openList closedList]. split; [apply elem_of_app; by left|].
        split; [by rewrite Htile|]. rewrite Hgpo. lia.
    + split; [done|]. split; [done|]. split; [done|].
      intros t' [= <-] _. exists po. cbn [entries openList closedList]. split; [apply elem_of_app; by left|].
      split; [done|]. lia.
  - cbn [entries openList closedList].
    set (es1 := alter (fun e => setHeuristic e x1 y1 (tile_x t) (tile_y t))
                      cur (entries st)).
    set (nb := setParent (setG (setTile (neighbor st) (Some t))
                               (g (entryAt (entries st) cur) + 1)) (Some cur)).
    assert (Hlen : length es1 = length (entries st)) by apply length_alter.
    assert (Hold : forall p, (p < length (entries st))%nat ->
              tile (entryAt (es1 ++ [nb]) p) = tile (entryAt (entries st) p)
              /\ g (entryAt (es1 ++ [nb]) p) = g (entryAt (entries st) p)).
    { intros p Hp. rewrite entryAt_app_l by lia. unfold es1.
      rewrite tile_entryAt_alter, g_entryAt_alter; done. }
    assert (Hnew : entryAt (es1 ++ [nb]) (length es1) = nb) by apply entryAt_app_new.
    assert (Hc : forall p, p ∈ closedList st -> (p < length (entries st))%nat).
    { intros p Hp. apply Hb. apply elem_of_app. by right. }
    assert (Ho : forall p, p ∈ openList st -> (p < length (entries st))%nat).
    { intros p Hp. apply Hb. apply elem_of_app. by left. }
    split; [|split; [|split]].
    + intros p Hp. by apply Hold, Hc.
    + intros p q Hp Hq. rewrite (proj2 (Hold p (Hc p Hp))).
      apply elem_of_app in Hq as [Hq|Hq].
      * rewrite (proj2 (Hold q (Ho q Hq))). by apply HO.
      * apply list_elem_of_singleton in Hq as ->. rewrite Hnew. simpl.
        specialize (HK p Hp). lia.
    + intros t' b (q & Hq & Htq & Hgq). exists q. cbn [entries openList closedList].
      assert (Hqlt : (q < length (entries st))%nat) by (by apply Hb).
      split.
      * rewrite <- app_assoc. apply elem_of_app in Hq as [Hq|Hq]; apply elem_of_app.
        -- by left.
        -- right. by right.
      * by rewrite (proj1 (Hold q Hqlt)), (proj2 (Hold q Hqlt)).
    + intros t' [= <-] _. exists (length es1). cbn [entries openList closedList]. split.
      * rewrite <- app_assoc. apply elem_of_app. right. by left.
      * rewrite Hnew. simpl. split; [done|]. lia.
Qed.

Lemma visitNeighbors_fold_layers (cur : nat) (tcur : Tile)
      (l : list (option Tile)) (st : AstarSearch) :
  searchInv gm start st ->
  0%nat ∈ closedList st ->
  cur ∈ closedList st ->
  tile (entryAt (entries st) cur) = Some tcur ->
  (forall n, n ∈ l -> n ∈ getAllNeighbors gm tcur) ->
  (forall p, p ∈ closedList st ->
             g (entryAt (entries st) p) <= g (entryAt (entries st) cur)) ->
  (forall p q, p ∈ closedList st -> q ∈ openList st ->
               g (entryAt (entries st) p) <= g (entryAt (entries st) q)) ->
  let st' := fold_left (visitNeighbor isDiggable passability color x1 y1 cur) l st in
  (forall p, p ∈ closedList st ->
             g (entryAt (entries st') p) = g (entryAt (entries st) p))
  /\ (forall p q, p ∈ closedList st' -> q ∈ openList st' ->
                  g (entryAt (entries st') p) <= g (entryAt (entries st') q))
  /\ (forall t b, hasNodeWithin st t b -> hasNodeWithin st' t b)
  /\ (forall t, Some t ∈ l ->
                processNeighbor isDiggable passability color t = true ->
                hasNodeWithin st' t (g (entryAt (entries st) cur) + 1)).
Proof.
  revert st. induction l as [|n l IH]; intros st Hinv H0 Hcur Htcur Hl HK HO; simpl.
  { split; [done|]. split; [done|]. split; [done|].
    intros t Ht. by apply elem_of_nil in Ht. }
  assert (Hn : n ∈ getAllNeighbors gm tcur) by (apply Hl; apply elem_of_cons; by left).
  destruct (visitNeighbor_inv isDiggable gm start passability color x1 y1 cur tcur st n)
    as (Hinv1 & Hcl1 & Ht1); try done.
  destruct (visitNeighbor_layers cur st n Hinv Hcur HK HO) as (Hg1 & HO1 & Hmono1 & Hnew1).
  cbv zeta in Hinv1, Hcl1, Ht1, Hg1, HO1, Hmono1, Hnew1.
  set (st1 := visitNeighbor isDiggable passability color x1 y1 cur st n) in *.
  destruct (IH st1) as (Hg & HO' & Hmono & Hnew); try done.
  - by rewrite Hcl1.
  - by rewrite Hcl1.
  - intros n' Hn'. apply Hl. apply elem_of_cons. by right.
  - intros p Hp. rewrite Hcl1 in Hp. rewrite (Hg1 p Hp), (Hg1 cur Hcur). by apply HK.
  - split; [|split; [done|split]].
    + intros p Hp. rewrite Hg by (by rewrite Hcl1). by apply Hg1.
    + intros t b Ht. by apply Hmono, Hmono1.
    + intros t Ht Hpn. apply elem_of_cons in Ht as [<- | Ht].
      * apply Hmono. by apply Hnew1.
      * rewrite <- (Hg1 cur Hcur). by apply Hnew.
Qed.

Lemma searchStep_layers (st : AstarSearch) (r : option bool) (st' : AstarSearch) :
  searchInv gm start st ->
  heuristicsUnset st ->
  searchFrontier isDiggable gm passability color destination st ->
  searchLayers isDiggable gm passability color destination st ->
  searchStep isDiggable gm passability color x1 y1 destination st = (r, st') ->
  searchLayers isDiggable gm passability color destination st'.
Proof.
  intros Hinv Hh Hfr Hlay. unfold searchStep.
  destruct (openList st) as [|p0 ol] eqn:Hol.
  { by intros [= <- <-]. }
  rewrite <- Hol.
  set (pos := smallestAstarPos (entries st) (openList st)).
  assert (Hpos : (pos < length (openList st))%nat).
  { apply smallestAstarPos_lt. by rewrite Hol. }
  destruct (lookup_lt_is_Some_2 _ _ Hpos) as [cur Hcur]. rewrite Hcur. simpl.
  destruct (moveToClosed_inv gm start st pos cur Hinv Hcur)
    as (Hinv1 & H01 & Hcur1 & Hperm).
  set (st1 := mkAstarSearch (entries st) (delete pos (openList st))
                            (closedList st ++ [cur]) (neighbor st)) in *.
  assert (Hcur_open : cur ∈ openList st) by (by eapply list_elem_of_lookup_2).
  assert (Hdel : forall p, p ∈ delete pos (openList st) -> p ∈ openList st).
  { intros p Hp. rewrite (delete_Permutation _ _ _ Hcur). apply elem_of_cons. by right. }
  (* the node taken off the open list costs no more than the others *)
  assert (Hmin : forall q, q ∈ openList st ->
                           g (entryAt (entries st) cur) <= g (entryAt (entries st) q)).
  { intros q Hq.
    destruct (inv_start _ _ _ Hinv) as [H0c|[Ho Hc]].
    - assert (Hne0 : forall p, p ∈ openList st -> p <> 0%nat).
      { intros p Hp ->. pose proof (inv_nodup _ _ _ Hinv) as Hnd.
        apply NoDup_app in Hnd as (_ & Hdis & _). by apply (Hdis 0%nat). }
      pose proof (smallestAstarPos_min (entries st) (openList st) cur Hcur q Hq) as Hf.
      unfold fCost in Hf. destruct Hh as [_ Hopen].
      rewrite (Hopen cur Hcur_open (Hne0 cur Hcur_open)) in Hf.
      rewrite (Hopen q Hq (Hne0 q Hq)) in Hf. lia.
    - rewrite Ho in Hq, Hcur_open.
      apply list_elem_of_singleton in Hq as ->.
      apply list_elem_of_singleton in Hcur_open as ->. lia. }
  assert (HK1 : forall p, p ∈ closedList st1 ->
                          g (entryAt (entries st1) p) <= g (entryAt (entries st1) cur)).
  { intros p Hp. simpl in Hp. apply elem_of_app in Hp as [Hp|Hp].
    - by apply (sl_order _ _ _ _ _ _ Hlay).
    - apply list_elem_of_singleton in Hp as ->. simpl. lia. }
  assert (HO1 : forall p q, p ∈ closedList st1 -> q ∈ openList st1 ->
                  g (entryAt (entries st1) p) <= g (entryAt (entries st1) q)).
  { intros p q Hp Hq. simpl in Hp, Hq. apply Hdel in Hq.
    apply elem_of_app in Hp as [Hp|Hp].
    - by apply (sl_order _ _ _ _ _ _ Hlay).
    - apply list_elem_of_singleton in Hp as ->. by apply Hmin. }
  assert (Hnode1 : forall t b, hasNodeWithin st t b -> hasNodeWithin st1 t b).
  { intros t b (q & Hq & Ht). exists q. split; [|done]. by rewrite <- Hperm. }
  case_bool_decide as Hdest.
  { intros [= <- <-]. constructor; [done|].
    intros p tp t Hp Htp Hne Ht Hpn. simpl in Hp.
    apply elem_of_app in Hp as [Hp|Hp].
    - apply Hnode1. by apply (sl_near _ _ _ _ _ _ Hlay p tp t).
    - apply list_elem_of_singleton in Hp as ->. simpl in Htp. congruence. }
  intros [= <- <-]. unfold visitNeighbors.
  destruct (tile (entryAt (entries st1) cur)) as [tcur|] eqn:Htcur.
  - destruct (visitNeighbors_fold_layers cur tcur (getAllNeighbors gm tcur) st1)
      as (Hg & HO' & Hmono & Hnew); try done.
    destruct (visitNeighbors_fold_inv isDiggable gm start passability color x1 y1
                cur tcur (getAllNeighbors gm tcur) st1) as (_ & Hcl); try done.
    destruct (visitNeighbors_fold_grows isDiggable gm start passability color x1 y1
                cur tcur (getAllNeighbors gm tcur) st1)
      as (_ & _ & Htile & _); try done.
    cbv zeta in Hg, HO', Hmono, Hnew, Hcl, Htile.
    assert (Hlt : forall p, p ∈ closedList st1 -> (p < length (entries st1))%nat).
    { intros p Hp. apply (inv_bound _ _ _ Hinv1). apply elem_of_app. by right. }
    constructor; [done|].
    intros p tp t Hp Htp Hne Ht Hpn. rewrite Hcl in Hp.
    rewrite Htile in Htp by (by apply Hlt). rewrite (Hg p Hp).
    simpl in Hp. apply elem_of_app in Hp as [Hp|Hp].
    + apply Hmono, Hnode1. by apply (sl_near _ _ _ _ _ _ Hlay p tp t).
    + apply list_elem_of_singleton in Hp as ->.
      rewrite Htcur in Htp. injection Htp as <-. by apply Hnew.
  - constructor; [done|].
    intros p tp t Hp Htp Hne Ht Hpn. simpl in Hp.
    apply elem_of_app in Hp as [Hp|Hp].
    + apply Hnode1. by apply (sl_near _ _ _ _ _ _ Hlay p tp t).
    + apply list_elem_of_singleton in Hp as ->. congruence.
Qed.

Lemma searchLoop_layers (fuel : nat) (st : AstarSearch) (b : bool) (st' : AstarSearch) :
  searchInv gm start st ->
  heuristicsUnset st ->
  searchAdmissible isDiggable passability color st ->
  searchFrontier isDiggable gm passability color destination st ->
  searchLayers isDiggable gm passability color destination st ->
  searchLoop isDiggable fuel gm passability color x1 y1 destination st
    = Some (b, st') ->
  searchLayers isDiggable gm passability color destination st'.
Proof.
  revert st. induction fuel as [|fuel IH]; intros st Hinv Hh Hadm Hfr Hlay; simpl; [done|].
  destruct (searchStep isDiggable gm passability color x1 y1 destination st)
    as [r st1] eqn:Hstep.
  pose proof (searchStep_layers _ _ _ Hinv Hh Hfr Hlay Hstep) as Hlay1.
  pose proof (searchStep_heuristics isDiggable gm start _ _ _ _ _ _ _ _ Hinv Hh Hstep) as Hh1.
  destruct (searchStep_inv isDiggable gm start _ _ _ _ _ _ _ _ Hinv Hstep) as [Hinv1 _].
  destruct (searchStep_frontier isDiggable gm start passability color x1 y1
              _ _ _ _ Hinv Hadm Hfr Hstep) as (Hadm1 & Hfr1 & _).
  destruct r as [pathFound|].
  - by intros [= <- <-].
  - apply IH; try done. by apply Hfr1.
Qed.

Lemma initialSearch_layers (x2 y2 : Z) :
  searchLayers isDiggable gm passability color destination
               (initialSearch start x1 y1 x2 y2).
Proof.
  constructor; simpl.
  - intros p q Hp. by apply elem_of_nil in Hp.
  - intros p tp t Hp. by apply elem_of_nil in Hp.
Qed.

Lemma followParents_length (fuel : nat) (st : AstarSearch) (cur : nat)
      (acc l : list Tile) :
  searchInv gm start st ->
  (cur < length (entries st))%nat ->
  followParents fuel (entries st) cur acc = Some l ->
  Z.of_nat (length l) = g (entryAt (entries st) cur) + 1 + Z.of_nat (length acc).
Proof.
  intros Hinv. revert cur acc.
  induction fuel as [|fuel IH]; intros cur acc Hlt; simpl; [done|].
  destruct (lookup_lt_is_Some_2 _ _ Hlt) as [e He].
  rewrite (entryAt_lookup _ _ _ He).
  destruct (decide (cur = 0%nat)) as [->|Hne].
  - destruct (inv_root _ _ _ Hinv) as (e0 & He0 & Ht0 & Hp0 & Hg0).
    rewrite He in He0. injection He0 as <-. rewrite Ht0, Hp0, Hg0.
    intros [= <-]. simpl. lia.
  - destruct (inv_child _ _ _ Hinv cur e He Hne)
      as (q & eq & t & tq & Hp & Hq & Heq & Ht & Htq & _ & Hg).
    rewrite Ht, Hp. intros Hf.
    apply IH in Hf; [|by eapply lookup_lt_Some].
    rewrite (entryAt_lookup _ _ _ Heq) in Hf. simpl in Hf. lia.
Qed.

(** Along a route of admissible steps from the start tile, every tile that is
    nearer (in steps) than the destination node costs has a closed node that
    costs no more than the number of steps to it. *)
Lemma route_closed (st : AstarSearch) (d : nat) (w : list Tile) :
  searchInv gm start st ->
  searchBound gm st ->
  searchLayers isDiggable gm passability color destination st ->
  0%nat ∈ closedList st ->
  d ∈ closedList st ->
  tile (entryAt (entries st) d) = Some destination ->
  head w = Some start ->
  consecutive (isNeighborOf gm) w ->
  Forall (fun t => processNeighbor isDiggable passability color t = true) (tail w) ->
  forall i u, w !! i = Some u -> Z.of_nat i < g (entryAt (entries st) d) ->
    exists p, p ∈ closedList st /\ tile (entryAt (entries st) p) = Some u
              /\ g (entryAt (entries st) p) <= Z.of_nat i.
Proof.
  intros Hinv Hbd Hlay H0 Hd Htd Hhd Hcons Hadm.
  assert (Huniq : forall p, p ∈ closedList st ->
            tile (entryAt (entries st) p) = Some destination -> p = d).
  { intros p Hp Htp.
    apply (NoDup_fmap_inj_on (fun p => tile (entryAt (entries st) p))
             (openList st ++ closedList st)).
    - apply (sb_nodup _ _ Hbd).
    - apply elem_of_app. by right.
    - apply elem_of_app. by right.
    - by rewrite Htp, Htd. }
  induction i as [|i IH]; intros u Hu Hi.
  - exists 0%nat. split; [done|].
    destruct (inv_root _ _ _ Hinv) as (e0 & He0 & Ht0 & _ & Hg0).
    rewrite (entryAt_lookup _ _ _ He0), Ht0, Hg0.
    rewrite <- head_lookup, Hhd in Hu. injection Hu as <-. done.
  - assert (Hprev : is_Some (w !! i)).
    { apply lookup_lt_is_Some. apply lookup_lt_Some in Hu. lia. }
    destruct Hprev as [v Hv].
    destruct (IH v Hv) as (p & Hp & Htp & Hgp); [lia|].
    assert (Hvd : v <> destination).
    { intros ->. rewrite (Huniq p Hp Htp) in Hgp. lia. }
    destruct (sl_near _ _ _ _ _ _ Hlay p v u Hp Htp Hvd) as (q & Hq & Htq & Hgq).
    + by apply (consecutive_lookup (isNeighborOf gm) w i).
    + apply (proj1 (Forall_lookup _ _) Hadm i). by rewrite lookup_tail.
    + exists q. split; [|split; [done|lia]].
      apply elem_of_app in Hq as [Hq|Hq]; [|done]. exfalso.
      pose proof (sl_order _ _ _ _ _ _ Hlay d q Hd Hq). lia.
Qed.

End PathShortest.

(** X6. A non-empty list returned by [path] is as short as a route can be: every
    list of tiles that leads from the tile at [(x1, y1)] to the tile at
    [(x2, y2)], each tile among the neighbour pointers of the one before it
    and all but the first passing the [switch (passability)], has at least
    as many tiles. *)
Theorem path_is_shortest (isDiggable : Tile -> Z -> bool)
        (fuel : nat) (gm : GameMap) (x1 y1 x2 y2 : Z)
        (passability : TileClearType) (color : Z)
        (l : list Tile) (gm' : GameMap) (w : list Tile) :
  path isDiggable fuel gm x1 y1 x2 y2 passability color = Some (l, gm') ->
  l <> [] ->
  head w = getTile gm x1 y1 ->
  last w = getTile gm x2 y2 ->
  consecutive (isNeighborOf gm) w ->
  Forall (fun t => processNeighbor isDiggable passability color t = true) (tail w) ->
  (length l <= length w)%nat.
Proof.
  unfold path.
  set (gm1 := setNumCallsTo_path gm ((numCallsTo_path gm + 1) mod 2 ^ 32)).
  change (getTile gm1) with (getTile gm).
  destruct (getTile gm x1 y1) as [start|] eqn:H1; [|by intros [= <- <-]].
  destruct (_ && _); [by intros [= <- <-]|].
  destruct (getTile gm x2 y2) as [destination|] eqn:H2; [|by intros [= <- <-]].
  destruct (searchLoop _ _ _ _ _ _ _ _ _) as [[[|] st]|] eqn:Hloop;
    [|by intros [= <- <-]|done].
  destruct (searchLoop_inv isDiggable gm1 start _ _ _ _ _ _ _ _ _
              (initialSearch_inv gm1 start x1 y1 x2 y2) Hloop) as [Hinv H0].
  pose proof (searchLoop_bound isDiggable gm1 start passability color x1 y1
                fuel destination _ _ _
                (initialSearch_inv gm1 start x1 y1 x2 y2)
                (initialSearch_bound gm1 start x1 y1 x2 y2 H1) Hloop) as Hbd.
  pose proof (searchLoop_layers isDiggable gm1 start passability color x1 y1
                destination fuel _ _ _
                (initialSearch_inv gm1 start x1 y1 x2 y2)
                (initialSearch_heuristics start x1 y1 x2 y2)
                (initialSearch_admissible isDiggable start passability color x1 y1 x2 y2)
                (initialSearch_frontier isDiggable gm1 start passability color x1 y1
                   destination x2 y2)
                (initialSearch_layers isDiggable gm1 start passability color x1 y1
                   destination x2 y2) Hloop) as Hlay.
  destruct (findTile (entries st) (closedList st) destination) as [d|] eqn:Hd; [|done].
  destruct (followParents fuel (entries st) d []) as [r|] eqn:Hf; [|done].
  intros [= <- <-] _ Hhd Hlast Hcons Hadm.
  apply find_some in Hd as [Hdin Hdt].
  apply list_elem_of_In in Hdin. apply bool_decide_eq_true in Hdt.
  assert (Hlt : (d < length (entries st))%nat).
  { apply (inv_bound _ _ _ Hinv). apply elem_of_app. by right. }
  pose proof (followParents_length gm1 start _ _ _ _ _ Hinv Hlt Hf) as Hlen.
  simpl in Hlen.
  destruct (decide (length r <= length w)%nat) as [|Hshort]; [done|]. exfalso.
  assert (Hw : w <> []) by (by intros ->).
  rewrite last_lookup in Hlast.
  destruct (route_closed isDiggable gm1 start passability color destination st d w
              Hinv Hbd Hlay (H0 eq_refl) Hdin Hdt Hhd Hcons Hadm
              (pred (length w)) destination Hlast) as (p & Hp & Htp & Hgp).
  { destruct w; [done|]. simpl in *. lia. }
  assert (p = d) as ->.
  { apply (NoDup_fmap_inj_on (fun p => tile (entryAt (entries st) p))
             (openList st ++ closedList st)).
    - apply (sb_nodup _ _ Hbd).
    - apply elem_of_app. by right.
    - apply elem_of_app. by right.
    - by rewrite Htp, Hdt. }
  destruct w; [done|]. simpl in *. lia.
Qed.

Lemma path_is_shortest_witness :
  (length [openTile 0 0; openTile 1 0; openTile 2 0]
   <= length [openTile 0 0; openTile 1 0; openTile 0 0; openTile 1 0; openTile 2 0])%nat.
Proof.
  apply (path_is_shortest neverDiggable 10 corridor3 0 0 2 0 walkableTile 0
           [openTile 0 0; openTile 1 0; openTile 2 0]
           (setNumCallsTo_path corridor3 1)
           [openTile 0 0; openTile 1 0; openTile 0 0; openTile 1 0; openTile 2 0]).
  - vm_compute. reflexivity.
  - discriminate.
  - vm_compute. reflexivity.
  - vm_compute. reflexivity.
  - simpl. unfold isNeighborOf. repeat split; apply list_elem_of_In; vm_compute; tauto.
  - repeat constructor.
Defined.

(** * What [GameMap::path] and [GameMap::pathExists] change *)

(** X7. A call of [path] changes nothing of the map but the counter
    [numCallsTo_path], which moves on by one modulo 2^32, whatever the
    outcome of the search; a call of [pathExists] for the walkable class
    does not even count. *)
Theorem path_only_counts (isDiggable : Tile -> Z -> bool)
        (fuel : nat) (gm : GameMap) (x1 y1 x2 y2 : Z)
        (passability : TileClearType) (color : Z)
        (l : list Tile) (gm' : GameMap) :
  path isDiggable fuel gm x1 y1 x2 y2 passability color = Some (l, gm') ->
  gm' = setNumCallsTo_path gm ((numCallsTo_path gm + 1) mod 2 ^ 32)
  /\ 0 <= numCallsTo_path gm' < 2 ^ 32
  /\ pathExists isDiggable fuel gm x1 y1 x2 y2 walkableTile color
     = Some (walkablePathExists gm x1 y1 x2 y2, gm).
Proof.
  intros Hpath.
  assert (Hgm : gm' = setNumCallsTo_path gm ((numCallsTo_path gm + 1) mod 2 ^ 32)).
  { unfold path in Hpath.
    destruct (getTile _ x1 y1); [|by injection Hpath as _ <-].
    destruct (_ && _); [by injection Hpath as _ <-|].
    destruct (getTile _ x2 y2); [|by injection Hpath as _ <-].
    destruct (searchLoop _ _ _ _ _ _ _ _ _) as [[[|] st]|];
      [|by injection Hpath as _ <-|done].
    destruct (findTile _ _ _); [|done].
    destruct (followParents _ _ _ _); [|done].
    by injection Hpath as _ <-. }
  split; [done|]. split.
  - rewrite Hgm. simpl. apply Z.mod_pos_bound. lia.
  - unfold pathExists. by rewrite bool_decide_eq_true_2.
Qed.

Lemma path_only_counts_witness :
  setNumCallsTo_path corridor3 1
  = setNumCallsTo_path corridor3 ((numCallsTo_path corridor3 + 1) mod 2 ^ 32)
  /\ 0 <= numCallsTo_path (setNumCallsTo_path corridor3 1) < 2 ^ 32
  /\ pathExists neverDiggable 10 corridor3 0 0 2 0 walkableTile 0
     = Some (walkablePathExists corridor3 0 0 2 0, corridor3).
Proof.
  apply (path_only_counts neverDiggable 10 corridor3 0 0 2 0 walkableTile 0
           [openTile 0 0; openTile 1 0; openTile 2 0]
           (setNumCallsTo_path corridor3 1)).
  vm_compute. reflexivity.
Defined.

(** * [GameMap::lineOfSight]: lines that rise slowly to the right *)

Lemma isNeighborOf_at (gm : GameMap) (a b : Tile) (x y x' y' : Z) :
  tilesWellPlaced gm ->
  getTile gm x y = Some a -> getTile gm x' y' = Some b ->
  (x', y') ∈ adjacentCoords x y ->
  isNeighborOf gm a b.
Proof.
  intros Hwf Ha Hb Hadj. unfold isNeighborOf, getAllNeighbors.
  pose proof (Hwf _ _ Ha) as Hxy. simpl in Hxy. injection Hxy as -> ->.
  apply list_elem_of_In, in_map_iff. exists (x', y'). split; [done|].
  by apply list_elem_of_In.
Qed.

Lemma lineOfSightLoop_connected (gm : GameMap) (ystep TwoDy TwoDyTwoDx : Z)
      (n : nat) (x y E : Z) (l : list Tile) :
  tilesWellPlaced gm ->
  (ystep = 1 \/ ystep = -1) ->
  lineOfSightLoop gm false 1 ystep TwoDy TwoDyTwoDx n x y E = Some l ->
  consecutive (isNeighborOf gm) l
  /\ (n <> 0%nat -> head l = getTile gm x y).
Proof.
  intros Hwf Hystep. revert x y E l.
  induction n as [|n IH]; intros x y E l; cbn [lineOfSightLoop].
  { by intros [= <-]. }
  destruct (getTile gm x y) as [currentTile|] eqn:Hc; [|done].
  destruct (0 <? E).
  - destruct (getTile gm (x + 1) y) as [currentTile'|] eqn:Hc'; [|done].
    destruct (lineOfSightLoop _ _ _ _ _ _ _ _ _ _) as [rest|] eqn:Hrest; [|done].
    intros [= <-]. destruct (IH _ _ _ _ Hrest) as [Hcons Hhd].
    split; [|done]. cbn [consecutive]. split.
    + apply (isNeighborOf_at gm _ _ x y (x + 1) y); try done.
      unfold adjacentCoords. apply elem_of_cons. right. by left.
    + destruct rest as [|r rest]; [done|]. split; [|done].
      destruct n as [|n]; [by simpl in Hrest|].
      specialize (Hhd ltac:(done)). simpl in Hhd. symmetry in Hhd.
      apply (isNeighborOf_at gm _ _ (x + 1) y (x + 1) (y + ystep)); try done.
      unfold adjacentCoords. rewrite !elem_of_cons.
      destruct Hystep as [-> | ->]; [right; right; right; left|right; right; left];
        f_equal; lia.
  - destruct (lineOfSightLoop _ _ _ _ _ _ _ _ _ _) as [rest|] eqn:Hrest; [|done].
    intros [= <-]. destruct (IH _ _ _ _ Hrest) as [Hcons Hhd].
    split; [|done]. destruct rest as [|r rest]; [done|].
    cbn [consecutive]. split; [|done].
    destruct n as [|n]; [by simpl in Hrest|].
    specialize (Hhd ltac:(done)). simpl in Hhd. symmetry in Hhd.
    apply (isNeighborOf_at gm _ _ x y (x + 1) y); try done.
    unfold adjacentCoords. apply elem_of_cons. right. by left.
Qed.

(** X15. When every tile sits at its own coordinates, the line of sight from
    [(x0, y0)] to a pair to its right that is farther in [x] than in [y]
    is connected: each tile of the list is among the neighbour pointers of
    the tile before it. *)
Theorem lineOfSight_connected_rightwards (gm : GameMap) (x0 y0 x1 y1 : Z) :
  tilesWellPlaced gm ->
  Z.abs (y1 - y0) < x1 - x0 ->
  consecutive (isNeighborOf gm) (lineOfSight gm x0 y0 x1 y1).
Proof.
  intros Hwf Hflat. unfold lineOfSight. cbv zeta.
  replace (Z.abs (y1 - y0) >=? Z.abs (x1 - x0)) with false
    by (symmetry; rewrite Z.geb_leb; apply Z.leb_gt; lia).
  replace (x1 - x0 <? 0) with false by (symmetry; apply Z.ltb_ge; lia).
  destruct (lineOfSightLoop _ _ _ _ _ _ _ _ _ _) as [l|] eqn:Hl; simpl; [|done].
  apply lineOfSightLoop_connected in Hl as [Hcons _]; [done|done|].
  destruct (y1 - y0 <? 0); [by right|by left].
Qed.

Lemma lineOfSight_connected_rightwards_witness :
  consecutive (isNeighborOf corridor3) (lineOfSight corridor3 0 0 2 0).
Proof.
  apply (lineOfSight_connected_rightwards corridor3 0 0 2 0).
  - apply rectMap_wellPlaced. intros x y. done.
  - simpl. lia.
Defined.

(** * Instances *)

Lemma walkablePathExists_equivalence_witness :
  walkablePathExists corridor3 0 0 2 0 = true.
Proof.
  apply (proj2 (proj2 (walkablePathExists_equivalence corridor3 0 0 1 0 2 0)));
    vm_compute; reflexivity.
Defined.

Lemma lineOfSight_length_and_head_witness :
  (Z.to_nat (Z.max (Z.abs (2 - 0)) (Z.abs (0 - 0)))
   <= length (lineOfSight corridor3 0 0 2 0))%nat
  /\ head (lineOfSight corridor3 0 0 2 0) = getTile corridor3 0 0.
Proof.
  apply (proj2 (lineOfSight_length_and_head corridor3 0 0 2 0)).
  vm_compute. discriminate.
Defined.

Lemma removeAnimatedObject_one_occurrence_witness :
  removeAnimatedObject [2; 1; 3; 1]%nat 1%nat = [2; 3; 1]%nat.
Proof.
  apply (proj1 (proj2 (removeAnimatedObject_one_occurrence [2; 1; 3; 1]%nat 1%nat))
           [2%nat] [3; 1]%nat).
  - reflexivity.
  - intros Hin. apply list_elem_of_In in Hin. simpl in Hin.
    destruct Hin as [Hin|[]]; discriminate.
Defined.

Lemma popEmptySeat_moves_witness :
  popFilledSeat [1; 2]%nat [0%nat] = (Some 0%nat, ([1; 2; 0]%nat, [])).
Proof.
  pose proof (popEmptySeat_moves exampleSeats 1 [0; 1; 2]%nat []) as H.
  vm_compute in H. destruct H as (_ & _ & _ & _ & _ & H). apply H. reflexivity.
Defined.

Lemma getSeatByColor_filled_first_witness :
  seatColor exampleSeats 2%nat = Some 1
  /\ (2%nat ∈ [2%nat]
      \/ (2%nat ∈ [0; 1]%nat
          /\ forall s', s' ∈ [2%nat] -> seatColor exampleSeats s' <> Some 1)).
Proof.
  apply (proj2 (getSeatByColor_filled_first exampleSeats 1 [0; 1]%nat [2%nat]) 2%nat).
  vm_compute. reflexivity.
Defined.

Lemma addWinningSeat_once_witness :
  NoDup (addWinningSeat [0; 1]%nat 2%nat).
Proof.
  apply (proj1 (proj2 (proj2 (addWinningSeat_once [0; 1]%nat 2%nat)))).
  apply (NoDup_cons_2 0%nat [1%nat]); [|apply NoDup_singleton].
  intros Hin. apply list_elem_of_singleton in Hin. discriminate.
Defined.
